(** * cricci/tools: the manifest downloader and the bucket uploader

    A shallow embedding of [fetch_video_assets.py] and [upload_to_s3.py].

    Python strings are modelled as lists of 8-bit characters (code points
    below 256).  The regular expressions of the scripts are kept as syntax
    trees and run by a backtracking matcher that follows the [re] module
    (greedy repetition, leftmost match, [re.MULTILINE] anchors).  The
    network, the file system, the process environment and the object store
    are oracles of the run; everything the scripts do to them is recorded as
    a trace of events.  The downloader is modelled on a POSIX platform
    ([os.path] is [posixpath]); the uploader takes [os.path] of either
    platform. *)

From Stdlib Require Import List Ascii String ZArith Lia Bool Arith.
From Stdlib Require Import Numbers.DecimalString.
From Stdlib Require Import Relations Wellfounded.
From stdpp Require Import gmap strings list fin_maps.
Import ListNotations.

Local Open Scope list_scope.

Abbreviation str := (list ascii).

(** String literals of the scripts. *)
Definition chars (s : string) : str := list_ascii_of_string s.

(* ===================================================================== *)
(** ** Exceptions *)
(* ===================================================================== *)

Inductive exn :=
| ValueError (msg : str)
| IndexError (msg : str)
| Exception (msg : str)       (* raise Exception(...) of fetch_file *)
| RequestException (msg : str) (* raised inside requests.get *)
| OSError (msg : str)
| NoCredentialsError (msg : str)
| ClientError (msg : str).     (* raised inside boto3 *)

(** [str(e)] *)
Definition exn_msg (e : exn) : str :=
  match e with
  | ValueError m | IndexError m | Exception m | RequestException m
  | OSError m | NoCredentialsError m | ClientError m => m
  end.

Inductive result (A : Type) :=
| Ok (a : A)
| Raise (e : exn).
Arguments Ok {A} a.
Arguments Raise {A} e.

Definition bind {A B} (m : result A) (f : A -> result B) : result B :=
  match m with
  | Ok a => f a
  | Raise e => Raise e
  end.

Notation "'do' x <- m ; k" := (bind m (fun x => k))
  (at level 10, x name, m at level 100, k at level 200).

Definition is_ok {A} (m : result A) : bool :=
  match m with Ok _ => true | Raise _ => false end.

(** A list comprehension whose element expression may raise. *)
Fixpoint mapM {A B} (f : A -> result B) (l : list A) : result (list B) :=
  match l with
  | [] => Ok []
  | a :: l' => do b <- f a; do bs <- mapM f l'; Ok (b :: bs)
  end.

(* ===================================================================== *)
(** ** Python string methods *)
(* ===================================================================== *)

Module Str.

Definition newline : ascii := "010"%char.

(** [c.isspace()] for a code point below 256; also the class [\s]. *)
Definition is_space (c : ascii) : bool :=
  let n := nat_of_ascii c in
  (((9 <=? n) && (n <=? 13)) || ((28 <=? n) && (n <=? 32))
   || (n =? 133) || (n =? 160))%nat.

(** [s.startswith(p)] *)
Fixpoint startswith (p s : str) : bool :=
  match p, s with
  | [], _ => true
  | _ :: _, [] => false
  | a :: p', b :: s' => Ascii.eqb a b && startswith p' s'
  end.

(** [s.endswith(p)] *)
Definition endswith (p s : str) : bool :=
  startswith (rev p) (rev s).

(** [c in s] for a one-character [c]. *)
Definition contains (c : ascii) (s : str) : bool :=
  existsb (Ascii.eqb c) s.

(** [s.lstrip(chars)] and the no-argument [s.strip()]. *)
Fixpoint lstrip_by (f : ascii -> bool) (s : str) : str :=
  match s with
  | c :: s' => if f c then lstrip_by f s' else s
  | [] => []
  end.

Definition rstrip_by (f : ascii -> bool) (s : str) : str :=
  rev (lstrip_by f (rev s)).

Definition strip (s : str) : str :=
  rstrip_by is_space (lstrip_by is_space s).

(** [s.partition(sep)] when [sep] occurs: the text before and after its
    first occurrence. *)
Fixpoint cut (sep s : str) : option (str * str) :=
  if startswith sep s then Some ([], skipn (length sep) s)
  else match s with
       | [] => None
       | c :: s' =>
           match cut sep s' with
           | Some (a, b) => Some (c :: a, b)
           | None => None
           end
       end.

(** [s.split(sep, 1)] *)
Definition split1 (sep s : str) : list str :=
  match cut sep s with
  | Some (a, b) => [a; b]
  | None => [s]
  end.

(** [s.split(c)] for a one-character separator. *)
Fixpoint split (c : ascii) (s : str) : list str :=
  match s with
  | [] => [[]]
  | a :: s' =>
      if Ascii.eqb a c then [] :: split c s'
      else match split c s' with
           | l :: ls => (a :: l) :: ls
           | [] => [[a]]
           end
  end.

(** [sep.join(parts)] *)
Fixpoint join (sep : str) (parts : list str) : str :=
  match parts with
  | [] => []
  | [p] => p
  | p :: ps => p ++ sep ++ join sep ps
  end.

(** [l[i]] *)
Definition index {A} (l : list A) (i : nat) : result A :=
  match nth_error l i with
  | Some a => Ok a
  | None => Raise (IndexError (chars "list index out of range"))
  end.

(** [repr(s)] of a string of code points below 256. *)
Definition hex_digit (n : nat) : ascii :=
  ascii_of_nat (if (n <? 10)%nat then 48 + n else 87 + n).

Definition repr_char (q c : ascii) : str :=
  let n := nat_of_ascii c in
  if Ascii.eqb c "\" then chars "\\"
  else if Ascii.eqb c q then ["\"%char; q]
  else if Ascii.eqb c "009" then chars "\t"
  else if Ascii.eqb c "010" then chars "\n"
  else if Ascii.eqb c "013" then chars "\r"
  else if (n <? 32) || ((127 <=? n) && (n <=? 160)) || (n =? 173)
  then chars "\x" ++ [hex_digit (n / 16); hex_digit (n mod 16)]
  else [c].

Definition repr (s : str) : str :=
  let q : ascii :=
    if contains "'" s && negb (contains "034" s)
    then "034"%char else "'"%char in
  [q] ++ concat (map (repr_char q) s) ++ [q].

(** [str(n)] for an integer. *)
Definition of_Z (n : Z) : str :=
  chars (NilZero.string_of_int (Z.to_int n)).

End Str.

(* ===================================================================== *)
(** ** The fragment of [re] the scripts use *)
(* ===================================================================== *)

Module Re.

(** Members of a bracketed class. *)
Inductive atom :=
| AChar (c : ascii)
| ASpace.                      (* \s *)

(** One-character patterns. *)
Inductive cset :=
| CChar (c : ascii)            (* a literal, or an escaped literal *)
| CAny                         (* .   (no re.DOTALL) *)
| CSpace                       (* \s *)
| COneOf (l : list atom)       (* [...] *)
| CNoneOf (l : list atom).     (* [^...] *)

Inductive regex :=
| Eps
| Chr (s : cset)
| Seq (r1 r2 : regex)
| Star (s : cset)              (* s*  greedy *)
| Plus (s : cset)              (* s+  greedy *)
| Opt (r : regex)              (* r?  greedy, also (?:r)? *)
| Bol                          (* ^   under re.MULTILINE *)
| Eol                          (* $   under re.MULTILINE *)
| NotAhead (r : regex)         (* (?!r) *)
| Group (r : regex).           (* (r), the one capturing group *)

Fixpoint lit (s : str) : regex :=
  match s with
  | [] => Eps
  | c :: s' => Seq (Chr (CChar c)) (lit s')
  end.

Definition atom_mem (a : atom) (c : ascii) : bool :=
  match a with
  | AChar x => Ascii.eqb x c
  | ASpace => Str.is_space c
  end.

Definition cset_mem (s : cset) (c : ascii) : bool :=
  match s with
  | CChar x => Ascii.eqb x c
  | CAny => negb (Ascii.eqb c Str.newline)
  | CSpace => Str.is_space c
  | COneOf l => existsb (fun a => atom_mem a c) l
  | CNoneOf l => negb (existsb (fun a => atom_mem a c) l)
  end.

(** The matcher's position: the character before it, the text after it,
    and what group 1 holds. *)
Record mstate := MState {
  prev : option ascii;
  rest : str;
  grp : option str
}.

(** Greedy repetition of a one-character pattern: take as many as
    possible, give back one at a time while the continuation fails. *)
Fixpoint star_loop (s : cset) (k : mstate -> option mstate)
    (g : option str) (p : option ascii) (l : str) : option mstate :=
  match l with
  | c :: l' =>
      if cset_mem s c then
        match star_loop s k g (Some c) l' with
        | Some r => Some r
        | None => k (MState p l g)
        end
      else k (MState p l g)
  | [] => k (MState p [] g)
  end.

Fixpoint rmatch (r : regex) (st : mstate) (k : mstate -> option mstate)
    : option mstate :=
  match r with
  | Eps => k st
  | Chr s =>
      match rest st with
      | c :: l' => if cset_mem s c then k (MState (Some c) l' (grp st)) else None
      | [] => None
      end
  | Seq r1 r2 => rmatch r1 st (fun st' => rmatch r2 st' k)
  | Star s => star_loop s k (grp st) (prev st) (rest st)
  | Plus s =>
      match rest st with
      | c :: l' => if cset_mem s c then star_loop s k (grp st) (Some c) l' else None
      | [] => None
      end
  | Opt r' =>
      match rmatch r' st k with
      | Some x => Some x
      | None => k st
      end
  | Bol =>
      match prev st with
      | None => k st
      | Some c => if Ascii.eqb c Str.newline then k st else None
      end
  | Eol =>
      match rest st with
      | [] => k st
      | c :: _ => if Ascii.eqb c Str.newline then k st else None
      end
  | NotAhead r' =>
      match rmatch r' st Some with
      | Some _ => None
      | None => k st
      end
  | Group r' =>
      rmatch r' st (fun st' =>
        k (MState (prev st') (rest st')
             (Some (firstn (length (rest st) - length (rest st')) (rest st)))))
  end.

(** One attempt at a given position. *)
Definition attempt (r : regex) (p : option ascii) (s : str) : option mstate :=
  rmatch r (MState p s None) Some.

(** The same attempt, refusing the empty match. *)
Definition attempt_nonempty (r : regex) (p : option ascii) (s : str)
    : option mstate :=
  rmatch r (MState p s None)
    (fun st' => if length (rest st') =? length s then None else Some st').

(** [m.group(1)]; findall gives [''] for a group that took no part. *)
Definition group1 (st : mstate) : str :=
  match grp st with Some g => g | None => [] end.

Definition span (s : str) (st : mstate) : nat :=
  length s - length (rest st).

(** [re.search(r, s)]: the leftmost position where an attempt succeeds. *)
Fixpoint search_from (r : regex) (p : option ascii) (s : str) : option mstate :=
  match attempt r p s with
  | Some st' => Some st'
  | None =>
      match s with
      | [] => None
      | c :: s' => search_from r (Some c) s'
      end
  end.

Definition search (r : regex) (s : str) : option mstate :=
  search_from r None s.

(** [re.findall(r, s)] for a pattern with one group: the scan resumes
    where the last match ended; [skip] counts the characters of the
    last match still to pass.  After an empty match the same position is
    tried once more for a non-empty one. *)
Fixpoint findall_from (r : regex) (skip : nat) (p : option ascii) (s : str)
    : list str :=
  let next n :=
    match s with
    | [] => []
    | c :: s' => findall_from r n (Some c) s'
    end in
  match skip with
  | S n => next n
  | O =>
      match attempt r p s with
      | None => next 0
      | Some st1 =>
          group1 st1 ::
          (if span s st1 =? 0 then
             match attempt_nonempty r p s with
             | Some st2 => group1 st2 :: next (span s st2 - 1)
             | None => next 0
             end
           else next (span s st1 - 1))
      end
  end.

Definition findall (r : regex) (s : str) : list str :=
  findall_from r 0 None s.

End Re.

(* ===================================================================== *)
(** ** [urllib.parse]: urlparse and urljoin (after CPython 3.11) *)
(* ===================================================================== *)

Module UrlParse.

Definition mem_str (s : str) (l : list str) : bool :=
  existsb (fun x => bool_decide (x = s)) l.

Definition uses_relative : list str :=
  map chars ["";"ftp";"http";"gopher";"nntp";"imap";"wais";"file";"https";
             "shttp";"mms";"prospero";"rtsp";"rtspu";"sftp";"svn";"svn+ssh";
             "ws";"wss"]%string.

Definition uses_netloc : list str :=
  map chars ["";"ftp";"http";"gopher";"nntp";"telnet";"imap";"wais";"file";
             "mms";"https";"shttp";"snews";"prospero";"rtsp";"rtspu";"rsync";
             "svn";"svn+ssh";"sftp";"nfs";"git";"git+ssh";"ws";"wss"]%string.

Definition uses_params : list str :=
  map chars ["";"ftp";"hdl";"prospero";"http";"imap";"https";"shttp";"rtsp";
             "rtspu";"sip";"sips";"mms";"sftp";"tel"]%string.

Definition is_upper (c : ascii) : bool :=
  let n := nat_of_ascii c in ((65 <=? n) && (n <=? 90))%nat.
Definition is_lower (c : ascii) : bool :=
  let n := nat_of_ascii c in ((97 <=? n) && (n <=? 122))%nat.
Definition is_digit (c : ascii) : bool :=
  let n := nat_of_ascii c in ((48 <=? n) && (n <=? 57))%nat.

(** [c.isascii() and c.isalpha()] *)
Definition is_ascii_alpha (c : ascii) : bool := is_upper c || is_lower c.

(** [c in scheme_chars] *)
Definition is_scheme_char (c : ascii) : bool :=
  is_lower c || is_upper c || is_digit c
  || Ascii.eqb c "+" || Ascii.eqb c "-" || Ascii.eqb c ".".

(** [s.lower()] on scheme characters. *)
Definition lower_char (c : ascii) : ascii :=
  if is_upper c then ascii_of_nat (nat_of_ascii c + 32) else c.
Definition lower (s : str) : str := map lower_char s.

(** [c in _WHATWG_C0_CONTROL_OR_SPACE] *)
Definition is_c0_or_space (c : ascii) : bool := (nat_of_ascii c <=? 32)%nat.

(** [c in _UNSAFE_URL_BYTES_TO_REMOVE] *)
Definition is_unsafe (c : ascii) : bool :=
  Ascii.eqb c "009" || Ascii.eqb c "013" || Ascii.eqb c "010".

Definition remove_unsafe (s : str) : str :=
  List.filter (fun c => negb (is_unsafe c)) s.

(** The longest prefix free of the characters [f], and what follows. *)
Fixpoint break_at (f : ascii -> bool) (s : str) : str * str :=
  match s with
  | [] => ([], [])
  | c :: s' =>
      if f c then ([], s)
      else let '(a, b) := break_at f s' in (c :: a, b)
  end.

(** The text up to and including the last [c], and what follows it;
    [None] when [c] does not occur ([s.rfind(c) < 0]). *)
Definition rcut (c : ascii) (s : str) : option (str * str) :=
  let '(b, a) := break_at (Ascii.eqb c) (rev s) in
  match a with
  | [] => None
  | _ :: _ => Some (rev a, rev b)
  end.

Record split_result := SplitResult {
  scheme : str;
  netloc : str;
  path : str;
  query : str;
  fragment : str
}.

Record parse_result := ParseResult {
  p_scheme : str;
  p_netloc : str;
  p_path : str;
  p_params : str;
  p_query : str;
  p_fragment : str
}.

Section Parse.

(** [_check_bracketed_host(hostname)]: the text of the ValueError it
    raises for a bracketed host that is no IPv6 or IPvFuture literal. *)
Variable bracketed_host_error : str -> option str.

Definition invalid_ipv6 {A} : result A :=
  Raise (ValueError (chars "Invalid IPv6 URL")).

Definition check_bracketed_netloc (netloc : str) : result unit :=
  let hostname_and_port :=
    match rcut "@" netloc with
    | Some (_, after) => after
    | None => netloc
    end in
  do hostname <-
    match Str.cut ["["%char] hostname_and_port with
    | Some (before_bracket, bracketed) =>
        match before_bracket with
        | _ :: _ => invalid_ipv6
        | [] =>
            match Str.cut ["]"%char] bracketed with
            | Some (hostname, port) =>
                match port with
                | [] => Ok hostname
                | c :: _ => if Ascii.eqb c ":" then Ok hostname else invalid_ipv6
                end
            | None => Ok bracketed
            end
        end
    | None =>
        match Str.cut [":"%char] hostname_and_port with
        | Some (hostname, _) => Ok hostname
        | None => Ok hostname_and_port
        end
    end;
  match bracketed_host_error hostname with
  | Some msg => Raise (ValueError msg)
  | None => Ok tt
  end.

(** [urlsplit(url, scheme)].  [_checknetloc] only rejects netlocs whose
    NFKC normal form gains a delimiter; no code point below 256 does. *)
Definition urlsplit (url default_scheme : str) : result split_result :=
  let url := Str.lstrip_by is_c0_or_space url in
  let scheme :=
    Str.rstrip_by is_c0_or_space (Str.lstrip_by is_c0_or_space default_scheme) in
  let url := remove_unsafe url in
  let scheme := remove_unsafe scheme in
  let '(scheme, url) :=
    match Str.cut [":"%char] url with
    | Some (c :: pre, post) =>
        if is_ascii_alpha c && forallb is_scheme_char (c :: pre)
        then (lower (c :: pre), post)
        else (scheme, url)
    | _ => (scheme, url)
    end in
  do nu <-
    (if Str.startswith (chars "//") url then
       let '(netloc, url') :=
         break_at (fun c => Ascii.eqb c "/" || Ascii.eqb c "?" || Ascii.eqb c "#")
                  (skipn 2 url) in
       let lb := Str.contains "[" netloc in
       let rb := Str.contains "]" netloc in
       if (lb && negb rb) || (rb && negb lb) then invalid_ipv6
       else
         do _u <- (if lb && rb then check_bracketed_netloc netloc else Ok tt);
         Ok (netloc, url')
     else Ok ([], url));
  let '(netloc, url) := nu in
  let '(url, fragment) :=
    match Str.cut ["#"%char] url with
    | Some (a, b) => (a, b)
    | None => (url, [])
    end in
  let '(url, query) :=
    match Str.cut ["?"%char] url with
    | Some (a, b) => (a, b)
    | None => (url, [])
    end in
  Ok (SplitResult scheme netloc url query fragment).

Definition splitparams (url : str) : str * str :=
  match rcut "/" url with
  | Some (head, tail) =>
      match Str.cut [";"%char] tail with
      | Some (a, b) => (head ++ a, b)
      | None => (url, [])
      end
  | None =>
      match Str.cut [";"%char] url with
      | Some (a, b) => (a, b)
      | None => (url, [])
      end
  end.

Definition urlparse (url default_scheme : str) : result parse_result :=
  do r <- urlsplit url default_scheme;
  let '(url, params) :=
    if mem_str (scheme r) uses_params && Str.contains ";" (path r)
    then splitparams (path r)
    else (path r, []) in
  Ok (ParseResult (scheme r) (netloc r) url params (query r) (fragment r)).

Definition nonempty (s : str) : bool :=
  match s with [] => false | _ :: _ => true end.

Definition urlunsplit (scheme netloc url query fragment : str) : str :=
  let url :=
    if nonempty netloc
       || (nonempty scheme && mem_str scheme uses_netloc
           && negb (Str.startswith (chars "//") url))
    then
      let url :=
        if nonempty url && negb (Str.startswith (chars "/") url)
        then chars "/" ++ url else url in
      chars "//" ++ netloc ++ url
    else url in
  let url := if nonempty scheme then scheme ++ chars ":" ++ url else url in
  let url := if nonempty query then url ++ chars "?" ++ query else url in
  let url := if nonempty fragment then url ++ chars "#" ++ fragment else url in
  url.

Definition urlunparse (scheme netloc url params query fragment : str) : str :=
  let url := if nonempty params then url ++ chars ";" ++ params else url in
  urlunsplit scheme netloc url query fragment.

(** [segments[1:-1] = filter(None, segments[1:-1])] *)
Definition filter_middle (segments : list str) : list str :=
  match segments with
  | [] => []
  | first :: tl =>
      first :: List.filter nonempty (removelast tl)
            ++ match tl with [] => [] | _ :: _ => [List.last tl []] end
  end.

(** The loop over [segments] that builds [resolved_path]. *)
Definition resolve_step (resolved : list str) (seg : str) : list str :=
  if bool_decide (seg = chars "..") then removelast resolved
  else if bool_decide (seg = chars ".") then resolved
  else resolved ++ [seg].

Definition urljoin (base url : str) : result str :=
  match base, url with
  | [], _ => Ok url
  | _, [] => Ok base
  | _, _ =>
      do b <- urlparse base [];
      do u <- urlparse url (p_scheme b);
      if negb (bool_decide (p_scheme u = p_scheme b))
         || negb (mem_str (p_scheme u) uses_relative)
      then Ok url
      else if mem_str (p_scheme u) uses_netloc && nonempty (p_netloc u)
      then Ok (urlunparse (p_scheme u) (p_netloc u) (p_path u)
                 (p_params u) (p_query u) (p_fragment u))
      else
        let netloc :=
          if mem_str (p_scheme u) uses_netloc then p_netloc b else p_netloc u in
        if negb (nonempty (p_path u)) && negb (nonempty (p_params u))
        then
          let query := if nonempty (p_query u) then p_query u else p_query b in
          Ok (urlunparse (p_scheme u) netloc (p_path b) (p_params b)
                query (p_fragment u))
        else
          let base_parts := Str.split "/" (p_path b) in
          let base_parts :=
            if nonempty (List.last base_parts []) then removelast base_parts
            else base_parts in
          let segments :=
            if Str.startswith (chars "/") (p_path u)
            then Str.split "/" (p_path u)
            else filter_middle (base_parts ++ Str.split "/" (p_path u)) in
          let resolved_path := fold_left resolve_step segments [] in
          let last_seg := List.last segments [] in
          let resolved_path :=
            if bool_decide (last_seg = chars ".")
               || bool_decide (last_seg = chars "..")
            then resolved_path ++ [[]] else resolved_path in
          let joined := Str.join (chars "/") resolved_path in
          Ok (urlunparse (p_scheme u) netloc
                (if nonempty joined then joined else chars "/")
                (p_params u) (p_query u) (p_fragment u))
  end.

End Parse.

End UrlParse.

(* ===================================================================== *)
(** ** [os.path] on a POSIX platform: [posixpath] *)
(* ===================================================================== *)

Module OsPath.

Definition sep : ascii := "/".

(** One step of [os.path.join(a, *p)]. *)
Definition join2 (path b : str) : str :=
  if Str.startswith [sep] b then b
  else if negb (UrlParse.nonempty path) || Str.endswith [sep] path then path ++ b
  else path ++ [sep] ++ b.

Definition join (a : str) (p : list str) : str := fold_left join2 p a.

(** [os.path.basename(p)]: what follows the last separator. *)
Definition basename (p : str) : str :=
  match UrlParse.rcut sep p with
  | Some (_, tail) => tail
  | None => p
  end.

(** [os.path.dirname(p)] *)
Definition dirname (p : str) : str :=
  let head :=
    match UrlParse.rcut sep p with
    | Some (head, _) => head
    | None => []
    end in
  if UrlParse.nonempty head && negb (forallb (Ascii.eqb sep) head)
  then Str.rstrip_by (Ascii.eqb sep) head
  else head.

(** [os.path.isabs(s)] *)
Definition isabs (s : str) : bool := Str.startswith [sep] s.

(** The loop of [normpath] over the components. *)
Definition normpath_step (initial_slashes : nat) (new_comps : list str)
    (comp : str) : list str :=
  if bool_decide (comp = []) || bool_decide (comp = chars ".") then new_comps
  else if negb (bool_decide (comp = chars ".."))
          || ((initial_slashes =? 0)%nat && bool_decide (new_comps = []))
          || bool_decide (List.last new_comps [] = chars "..")
  then new_comps ++ [comp]
  else removelast new_comps.

(** [os.path.normpath(path)] *)
Definition normpath (path : str) : str :=
  match path with
  | [] => chars "."
  | _ :: _ =>
      let initial_slashes :=
        if Str.startswith [sep] path then
          if Str.startswith [sep; sep] path
             && negb (Str.startswith [sep; sep; sep] path)
          then 2 else 1
        else 0 in
      let comps := Str.split sep path in
      let new_comps := fold_left (normpath_step initial_slashes) comps [] in
      let path := Str.join [sep] new_comps in
      let path := repeat sep initial_slashes ++ path in
      match path with
      | [] => chars "."
      | _ :: _ => path
      end
  end.

(** [len(commonprefix([l1, l2]))] for two lists of components. *)
Fixpoint common_length (l1 l2 : list str) : nat :=
  match l1, l2 with
  | a :: l1', b :: l2' =>
      if bool_decide (a = b) then S (common_length l1' l2') else 0
  | _, _ => 0
  end.

Section WithCwd.

(** [os.getcwd()] *)
Variable cwd : str.

(** [os.path.abspath(path)] *)
Definition abspath (path : str) : str :=
  normpath (if isabs path then path else join2 cwd path).

(** [os.path.relpath(path, start)] *)
Definition relpath (path start : str) : result str :=
  match path with
  | [] => Raise (ValueError (chars "no path specified"))
  | _ :: _ =>
      let start_list := List.filter UrlParse.nonempty (Str.split sep (abspath start)) in
      let path_list := List.filter UrlParse.nonempty (Str.split sep (abspath path)) in
      let i := common_length start_list path_list in
      let rel_list :=
        repeat (chars "..") (length start_list - i) ++ skipn i path_list in
      match rel_list with
      | [] => Ok (chars ".")
      | a :: p => Ok (join a p)
      end
  end.

End WithCwd.

End OsPath.

(* ===================================================================== *)
(** ** [os.path] on Windows: [ntpath] (after CPython 3.11)

    [normpath] and [abspath] follow the module's own Python definitions;
    on Windows the interpreter replaces them by the native
    [_path_normpath] and [_getfullpathname]. *)
(* ===================================================================== *)

Module NtPath.

Definition sep : ascii := "\".
Definition altsep : ascii := "/".
Definition colon : ascii := ":".

(** [c in seps] *)
Definition is_sep (c : ascii) : bool := Ascii.eqb c sep || Ascii.eqb c altsep.

(** [s.replace(altsep, sep)] *)
Definition to_sep (s : str) : str :=
  map (fun c => if Ascii.eqb c altsep then sep else c) s.

(** [s.lower()] for code points below 256. *)
Definition lower_char (c : ascii) : ascii :=
  let n := nat_of_ascii c in
  if ((65 <=? n) && (n <=? 90)) || ((192 <=? n) && (n <=? 222) && negb (n =? 215))
  then ascii_of_nat (n + 32) else c.
Definition lower (s : str) : str := map lower_char s.

(** [s.upper()] on the letters a to z.  It is only compared with the
    UNC prefix, which no other character's upper case can give. *)
Definition upper_char (c : ascii) : ascii :=
  let n := nat_of_ascii c in
  if (97 <=? n) && (n <=? 122) then ascii_of_nat (n - 32) else c.
Definition upper (s : str) : str := map upper_char s.

(** [s.find(c)] and [s.find(c, start)] *)
Fixpoint find (c : ascii) (s : str) : option nat :=
  match s with
  | [] => None
  | x :: s' => if Ascii.eqb x c then Some 0 else option_map S (find c s')
  end.

Definition find_from (c : ascii) (start : nat) (s : str) : option nat :=
  option_map (Nat.add start) (find c (skipn start s)).

Definition unc_prefix : str := chars "\\?\UNC\".

(** [splitdrive(p)] *)
Definition splitdrive (p : str) : str * str :=
  if (2 <=? length p)%nat then
    let normp := to_sep p in
    if bool_decide (firstn 2 normp = [sep; sep]) then
      let start :=
        if bool_decide (upper (firstn 8 normp) = unc_prefix) then 8 else 2 in
      match find_from sep start normp with
      | None => (p, [])
      | Some index =>
          match find_from sep (index + 1) normp with
          | None => (p, [])
          | Some index2 => (firstn index2 p, skipn index2 p)
          end
      end
    else if bool_decide (firstn 1 (skipn 1 normp) = [colon]) then
      (firstn 2 p, skipn 2 p)
    else ([], p)
  else ([], p).

(** [isabs(s)] *)
Definition isabs (s : str) : bool :=
  let s := to_sep (firstn 3 s) in
  Str.startswith [sep] s || Str.startswith [colon; sep] (skipn 1 s).

(** [p[0] in seps] and [p[-1] not in seps] for a non-empty [p]. *)
Definition starts_with_sep (p : str) : bool :=
  match p with c :: _ => is_sep c | [] => false end.

Definition ends_without_sep (p : str) : bool :=
  match rev p with c :: _ => negb (is_sep c) | [] => false end.

(** One pass of the loop of [join] over [paths]; the state is
    [result_drive] and [result_path]. *)
Definition join_step (r : str * str) (p : str) : str * str :=
  let '(result_drive, result_path) := r in
  let '(p_drive, p_path) := splitdrive p in
  if starts_with_sep p_path then
    (if UrlParse.nonempty p_drive || negb (UrlParse.nonempty result_drive)
     then p_drive else result_drive,
     p_path)
  else if UrlParse.nonempty p_drive && negb (bool_decide (p_drive = result_drive))
          && negb (bool_decide (lower p_drive = lower result_drive))
  then (p_drive, p_path)
  else
    let result_drive :=
      if UrlParse.nonempty p_drive && negb (bool_decide (p_drive = result_drive))
      then p_drive else result_drive in
    let result_path :=
      if ends_without_sep result_path then result_path ++ [sep]
      else result_path in
    (result_drive, result_path ++ p_path).

(** [join(path, *paths)] *)
Definition join (path : str) (paths : list str) : str :=
  let '(result_drive, result_path) := fold_left join_step paths (splitdrive path) in
  if UrlParse.nonempty result_path && negb (starts_with_sep result_path)
     && UrlParse.nonempty result_drive
     && negb (bool_decide (List.last result_drive sep = colon))
  then result_drive ++ [sep] ++ result_path
  else result_drive ++ result_path.

(** The loop of [normpath] over the components: [comps] holds the
    components kept so far, the ones before position [i]. *)
Definition normpath_step (prefix : str) (comps : list str) (comp : str)
    : list str :=
  if bool_decide (comp = []) || bool_decide (comp = chars ".") then comps
  else if bool_decide (comp = chars "..") then
    if negb (bool_decide (comps = []))
       && negb (bool_decide (List.last comps [] = chars ".."))
    then removelast comps
    else if bool_decide (comps = []) && Str.endswith [sep] prefix then comps
    else comps ++ [comp]
  else comps ++ [comp].

(** [normpath(path)] *)
Definition normpath (path : str) : str :=
  let path := to_sep path in
  let '(prefix, path) := splitdrive path in
  let '(prefix, path) :=
    if Str.startswith [sep] path
    then (prefix ++ [sep], Str.lstrip_by (Ascii.eqb sep) path)
    else (prefix, path) in
  let comps := fold_left (normpath_step prefix) (Str.split sep path) [] in
  let comps :=
    if negb (UrlParse.nonempty prefix) && bool_decide (comps = [])
    then [chars "."] else comps in
  prefix ++ Str.join [sep] comps.

(** [normcase(s)] *)
Definition normcase (s : str) : str := lower (to_sep s).

(** The number of leading positions at which the two lists agree up to
    [normcase]. *)
Fixpoint common_length (l1 l2 : list str) : nat :=
  match l1, l2 with
  | e1 :: l1', e2 :: l2' =>
      if bool_decide (normcase e1 = normcase e2)
      then S (common_length l1' l2') else 0
  | _, _ => 0
  end.

Section WithCwd.

(** [os.getcwd()] *)
Variable cwd : str.

(** [abspath(path)] *)
Definition abspath (path : str) : str :=
  normpath (if isabs path then path else join cwd [path]).

(** [relpath(path, start)] *)
Definition relpath (path start : str) : result str :=
  match path with
  | [] => Raise (ValueError (chars "no path specified"))
  | _ :: _ =>
      let start_abs := abspath (normpath start) in
      let path_abs := abspath (normpath path) in
      let '(start_drive, start_rest) := splitdrive start_abs in
      let '(path_drive, path_rest) := splitdrive path_abs in
      if negb (bool_decide (normcase start_drive = normcase path_drive)) then
        Raise (ValueError (chars "path is on mount " ++ Str.repr path_drive
                           ++ chars ", start on mount " ++ Str.repr start_drive))
      else
        let start_list := List.filter UrlParse.nonempty (Str.split sep start_rest) in
        let path_list := List.filter UrlParse.nonempty (Str.split sep path_rest) in
        let i := common_length start_list path_list in
        let rel_list :=
          repeat (chars "..") (length start_list - i) ++ skipn i path_list in
        match rel_list with
        | [] => Ok (chars ".")
        | a :: p => Ok (join a p)
        end
  end.

End WithCwd.

End NtPath.

(** The part of [os.path] the uploader uses, on either platform. *)
Module Platform.

Record os_path := OsPathModule {
  path_join : str -> str -> str;                    (* os.path.join(a, b) *)
  path_relpath : str -> str -> result str           (* os.path.relpath(p, start) *)
}.

Definition posix (cwd : str) : os_path :=
  OsPathModule OsPath.join2 (OsPath.relpath cwd).

Definition nt (cwd : str) : os_path :=
  OsPathModule (fun a b => NtPath.join a [b]) (NtPath.relpath cwd).

End Platform.

(* ===================================================================== *)
(** ** fetch_video_assets.py: the pure part *)
(* ===================================================================== *)

Module Fetch.

Import Re.

Definition quote : cset := COneOf [AChar "'"; AChar "034"].
Definition not_quote : cset := CNoneOf [AChar "'"; AChar "034"].
Definition not_space_quote : cset := CNoneOf [ASpace; AChar "'"; AChar "034"].

(** [-H\s*['D]?([^'D]+)['D]?], writing D for the double quote. *)
Definition header_pattern : regex :=
  Seq (lit (chars "-H"))
 (Seq (Star CSpace)
 (Seq (Opt (Chr quote))
 (Seq (Group (Plus not_quote))
      (Opt (Chr quote))))).

(** [curl\s+['D]?(https?://[^\s'D]+)['D]?] *)
Definition url_pattern : regex :=
  Seq (lit (chars "curl"))
 (Seq (Plus CSpace)
 (Seq (Opt (Chr quote))
 (Seq (Group (Seq (lit (chars "http"))
             (Seq (Opt (Chr (CChar "s")))
             (Seq (lit (chars "://"))
                  (Plus not_space_quote)))))
      (Opt (Chr quote))))).

(** [^ (?!#) ( .* \{file_extension} (?: \? .* )? ) $], spaced out here;
    compiled with [re.MULTILINE].  The two call sites pass
    ['.m3u8'] and ['.ts']: the backslash escapes the dot and the rest of
    the extension stands for itself. *)
Definition reference_pattern (file_extension : str) : regex :=
  Seq Bol
 (Seq (NotAhead (Chr (CChar "#")))
 (Seq (Group (Seq (Star CAny)
             (Seq (lit file_extension)
                  (Opt (Seq (Chr (CChar "?")) (Star CAny))))))
      Eol)).

(** The dictionary comprehension of [extract_headers]: the key expression
    is evaluated before the value expression, later headers overwrite. *)
Definition header_item (header : str) : result (str * str) :=
  do k <- Str.index (Str.split1 (chars ": ") header) 0;
  do v <- Str.index (Str.split1 (chars ": ") header) 1;
  Ok (k, v).

Fixpoint header_dict (headers : list str) (d : gmap str str)
    : result (gmap str str) :=
  match headers with
  | [] => Ok d
  | h :: hs => do kv <- header_item h; header_dict hs (<[kv.1 := kv.2]> d)
  end.

Definition extract_headers (curl_command : str) : result (gmap str str) :=
  let headers := findall header_pattern curl_command in
  header_dict headers ∅.

Definition extract_url (curl_command : str) : result str :=
  match search url_pattern curl_command with
  | Some m =>
      let url := group1 m in
      if negb (Str.endswith (chars ".m3u8") (hd [] (Str.split "?" url)))
      then Raise (ValueError (chars "The URL does not point to an .m3u8 file."))
      else Ok url
  | None => Raise (ValueError (chars "No URL found in the cURL command."))
  end.

Section WithLibrary.

Variable bracketed_host_error : str -> option str.

Definition find_references (content base_url file_extension : str)
    : result (list str) :=
  let matches := findall (reference_pattern file_extension) content in
  mapM (fun m => UrlParse.urljoin bracketed_host_error base_url (Str.strip m))
       matches.

Definition get_filename_from_url (url : str) : result str :=
  do parsed_url <- UrlParse.urlparse bracketed_host_error url [];
  let filename := OsPath.basename (UrlParse.p_path parsed_url) in
  Ok (if UrlParse.nonempty filename then filename else chars "index.m3u8").

(* --------------------------------------------------------------------- *)
(** *** The effects: requests, files written, lines printed *)

Record response := Response {
  status_code : Z;
  text : str                   (* also the bytes of [iter_content] *)
}.

Inductive event :=
| EGet (url : str) (headers : gmap str str) (stream : bool)
| EMakedirs (path : str)
| EWrite (path : str) (data : str)
| EPrint (line : str).

(** What a run has done so far: the files it wrote, by path, and the
    events in the order they happened. *)
Record world := World {
  files : gmap str str;
  trace : list event
}.

(** Code that acts on the world and may raise. *)
Definition M (A : Type) : Type := world -> result A * world.

Definition ret {A} (a : A) : M A := fun w => (Ok a, w).

Definition raise {A} (e : exn) : M A := fun w => (Raise e, w).

Definition mbind {A B} (m : M A) (f : A -> M B) : M B :=
  fun w =>
    match m w with
    | (Ok a, w') => f a w'
    | (Raise e, w') => (Raise e, w')
    end.

Notation "'let*' x ':=' m 'in' k" := (mbind m (fun x => k))
  (at level 10, x name, m at level 100, k at level 200).
Notation "m '>>' k" := (mbind m (fun _ => k))
  (at level 61, k at level 200, right associativity, only parsing).

(** [try: body except Exception as e: handler(e)]; what the body did
    before it raised stays done. *)
Definition try_except {A} (body : M A) (handler : exn -> M A) : M A :=
  fun w =>
    match body w with
    | (Ok a, w') => (Ok a, w')
    | (Raise e, w') => handler e w'
    end.

Definition lift {A} (r : result A) : M A := fun w => (r, w).

Definition emit (e : event) : M unit :=
  fun w => (Ok tt, World (files w) (trace w ++ [e])).

Definition print (line : str) : M unit := emit (EPrint line).

(** The file system: the exception [os.makedirs(path, exist_ok=True)]
    and [open(path, mode)] raise for a path, if any (the path names a
    directory, a component is a file, permission is denied, ...).  The same
    path gets the same answer throughout a run. *)
Record disk := Disk {
  makedirs_error : str -> option exn;
  open_error : str -> option exn
}.

Variable fs : disk.

(** [os.makedirs(path, exist_ok=True)]; the empty path names nothing. *)
Definition makedirs (path : str) : M unit :=
  match path with
  | [] => raise (OSError (chars "[Errno 2] No such file or directory: ''"))
  | _ :: _ =>
      match makedirs_error fs path with
      | Some e => raise e
      | None => emit (EMakedirs path)
      end
  end.

(** [with open(path, mode) as f: f.write(data)]; when [open] raises,
    the file is left as it was. *)
Definition write_file (path data : str) : M unit :=
  fun w =>
    match open_error fs path with
    | Some e => (Raise e, w)
    | None => (Ok tt, World (<[path := data]> (files w))
                            (trace w ++ [EWrite path data]))
    end.

(** The network: the answer to a GET, or the exception [requests.get]
    raises.  The same request gets the same answer throughout a run. *)
Variable http_get : str -> gmap str str -> result response.

Definition requests_get (url : str) (headers : gmap str str) (stream : bool)
    : M response :=
  emit (EGet url headers stream) >> lift (http_get url headers).

Definition fetch_file (url : str) (headers : gmap str str) : M str :=
  let* response := requests_get url headers false in
  if (status_code response =? 200)%Z then ret (text response)
  else raise (Exception (chars "Failed to retrieve file from " ++ url
                ++ chars ". Status code: "
                ++ Str.of_Z (status_code response))).

Definition download_file (url : str) (headers : gmap str str) (save_path : str)
    : M unit :=
  let* response := requests_get url headers true in
  if (status_code response =? 200)%Z then
    makedirs (OsPath.dirname save_path) >>
    write_file save_path (text response) >>
    print (chars "Saved: " ++ save_path)
  else
    print (chars "Failed to download " ++ url ++ chars ". Status code: "
           ++ Str.of_Z (status_code response)).

(* --------------------------------------------------------------------- *)
(** *** fetch_and_save_m3u8_and_ts *)

Section Run.

Variable headers : gmap str str.
Variable save_directory : str.

(** The body of [for m3u8_url in m3u8_files]; the two lists are the
    function's [m3u8_files] and [ts_files]. *)
Definition manifest_body (m3u8_url : str) (m3u8_files ts_files : list str)
    : M (list str * list str) :=
  try_except
    (let* content := fetch_file m3u8_url headers in
     let* m3u8_filename := lift (get_filename_from_url m3u8_url) in
     let m3u8_save_path :=
       OsPath.join save_directory [[]; m3u8_filename] in
     makedirs (OsPath.dirname m3u8_save_path) >>
     write_file m3u8_save_path content >>
     print (chars "Saved .m3u8 file: " ++ m3u8_save_path) >>
     let* referenced_m3u8_files :=
       lift (find_references content m3u8_url (chars ".m3u8")) in
     let* referenced_ts_files :=
       lift (find_references content m3u8_url (chars ".ts")) in
     ret (m3u8_files ++ referenced_m3u8_files,
          ts_files ++ referenced_ts_files))
    (fun e =>
       print (chars "Error fetching " ++ m3u8_url ++ chars ": " ++ exn_msg e) >>
       ret (m3u8_files, ts_files)).

(** The first loop.  A list iterator over a list that grows: position [i]
    is read as long as it exists.  [fuel] bounds the iterations; [None]
    says it ran out with the loop still going. *)
Fixpoint manifest_loop (fuel i : nat) (m3u8_files ts_files : list str)
    : M (option (list str * list str)) :=
  match nth_error m3u8_files i with
  | None => ret (Some (m3u8_files, ts_files))
  | Some m3u8_url =>
      match fuel with
      | O => ret None
      | S fuel' =>
          let* q := manifest_body m3u8_url m3u8_files ts_files in
          manifest_loop fuel' (S i) q.1 q.2
      end
  end.

(** The body of [for ts_url in ts_files]. *)
Definition segment_body (ts_url : str) : M unit :=
  try_except
    (let* ts_filename := lift (get_filename_from_url ts_url) in
     let ts_save_path := OsPath.join save_directory [[]; ts_filename] in
     download_file ts_url headers ts_save_path)
    (fun e =>
       print (chars "Error downloading " ++ ts_url ++ chars ": " ++ exn_msg e)).

Fixpoint segment_loop (ts_files : list str) : M unit :=
  match ts_files with
  | [] => ret tt
  | ts_url :: rest => segment_body ts_url >> segment_loop rest
  end.

End Run.

Inductive outcome :=
| Returned
| OutOfFuel.

Definition fetch_and_save_m3u8_and_ts (fuel : nat)
    (curl_command save_directory : str) : M outcome :=
  let* headers := lift (extract_headers curl_command) in
  let* initial_url := lift (extract_url curl_command) in
  let* q := manifest_loop headers save_directory fuel 0 [initial_url] [] in
  match q with
  | None => ret OutOfFuel
  | Some (m3u8_files, ts_files) =>
      segment_loop headers save_directory ts_files >> ret Returned
  end.

Definition start : world := World ∅ [].

(** [main()]: [input] answers the prompt with the line read from standard
    input, or raises; the files go to the default [save_directory]. *)
Definition main (input : str -> result str) (fuel : nat) : M outcome :=
  let* curl_string :=
    lift (input (chars "Enter the cURL string, to the master m3u8: ")) in
  fetch_and_save_m3u8_and_ts fuel curl_string (chars "downloads").

End WithLibrary.

End Fetch.

(* ===================================================================== *)
(** ** upload_to_s3.py *)
(* ===================================================================== *)

Module Upload.

(** A directory's content, in the order [os.scandir] lists it.  Every
    entry that is not a directory counts as a file, as in [os.walk];
    symbolic links to directories are not modelled. *)
Inductive entry :=
| File (name : str)
| Dir (name : str) (children : list entry).

Definition dir_names (es : list entry) : list str :=
  flat_map (fun e => match e with Dir n _ => [n] | File _ => [] end) es.

Definition file_names (es : list entry) : list str :=
  flat_map (fun e => match e with File n => [n] | Dir _ _ => [] end) es.

Inductive event :=
| EPrint (line : str)
| EClient (access_key secret_key : str)          (* boto3.client('s3', ...) *)
| EUpload (file_path bucket key : str).          (* s3_client.upload_file *)

(** [not x] for a string or [None]. *)
Definition falsy (x : option str) : bool :=
  match x with
  | None | Some [] => true
  | Some (_ :: _) => false
  end.

Definition text_of (x : option str) : str :=
  match x with Some s => s | None => [] end.

Section WithPlatform.

(** [os.path] of the platform the script runs on. *)
Variable os : Platform.os_path.

(** [os.walk(top)], top down, given what [top] holds. *)
Fixpoint walk_dir (top : str) (e : entry) : list (str * list str * list str) :=
  match e with
  | File _ => []
  | Dir name children =>
      let new_path := Platform.path_join os top name in
      (new_path, dir_names children, file_names children)
        :: flat_map (walk_dir new_path) children
  end.

Definition walk (top : str) (content : option (list entry))
    : list (str * list str * list str) :=
  match content with
  | None => []                   (* scandir(top) raised OSError *)
  | Some es => (top, dir_names es, file_names es) :: flat_map (walk_dir top) es
  end.

(** The environment after [load_dotenv()]. *)
Variable getenv : str -> option str.

(** [boto3.client('s3', ...)], which may raise. *)
Variable boto3_client : str -> str -> result unit.

(** [s3_client.upload_file(file_path, bucket, key)], which may raise. *)
Variable upload_file : str -> str -> str -> result unit.

(** What [scandir] finds at the source directory, if it is one. *)
Variable listing : str -> option (list entry).

(** The body of [for file in files]. *)
Definition upload_one (source_directory bucket_name root file : str)
    : result (list event) :=
  let file_path := Platform.path_join os root file in
  do s3_key <- Platform.path_relpath os file_path source_directory;
  Ok (EUpload file_path bucket_name s3_key ::
      match upload_file file_path bucket_name s3_key with
      | Ok _ =>
          [EPrint (chars "Uploaded " ++ file_path ++ chars " to s3://"
                   ++ bucket_name ++ chars "/" ++ s3_key)]
      | Raise e =>
          [EPrint (chars "Failed to upload " ++ file_path ++ chars ": "
                   ++ exn_msg e)]
      end).

(** A loop whose body may raise: the events so far, and the exception
    that ended it, if any. *)
Fixpoint for_each {A} (body : A -> result (list event)) (l : list A)
    : list event * option exn :=
  match l with
  | [] => ([], None)
  | a :: l' =>
      match body a with
      | Raise e => ([], Some e)
      | Ok evs =>
          let '(evs', r) := for_each body l' in (evs ++ evs', r)
      end
  end.

Definition upload_loop (source_directory bucket_name : str)
    : list event * option exn :=
  for_each
    (fun '(root, file) => upload_one source_directory bucket_name root file)
    (flat_map (fun '(root, _, files) => map (fun f => (root, f)) files)
              (walk source_directory (listing source_directory))).

(** The events of a call, and the exception it ends with, if any. *)
Definition upload_directory_to_s3
    (source_directory bucket_name aws_access_key_id aws_secret_access_key
       : option str) : list event * option exn :=
  let aws_access_key_id :=
    match aws_access_key_id with
    | None => getenv (chars "AWS_ACCESS_KEY_ID")
    | Some _ => aws_access_key_id
    end in
  let aws_secret_access_key :=
    match aws_secret_access_key with
    | None => getenv (chars "AWS_SECRET_ACCESS_KEY")
    | Some _ => aws_secret_access_key
    end in
  if falsy aws_access_key_id then
    ([EPrint (chars "Error: Missing AWS Access Key ID")], None)
  else if falsy aws_secret_access_key then
    ([EPrint (chars "Error: Missing AWS Secret Access Key")], None)
  else if falsy source_directory then
    ([EPrint (chars "Error: Missing source directory")], None)
  else if falsy bucket_name then
    ([EPrint (chars "Error: Missing S3 bucket name")], None)
  else
    let client_call :=
      EClient (text_of aws_access_key_id) (text_of aws_secret_access_key) in
    match boto3_client (text_of aws_access_key_id)
                       (text_of aws_secret_access_key) with
    | Raise (NoCredentialsError _) =>
        ([client_call;
          EPrint (chars "Error: AWS credentials not provided or incorrect")],
         None)
    | Raise e => ([client_call], Some e)
    | Ok _ =>
        let '(evs, r) :=
          upload_loop (text_of source_directory) (text_of bucket_name) in
        (client_call :: evs, r)
    end.

(** How the script ends: by [sys.exit(code)], or with the call. *)
Inductive script_end :=
| Exited (code : Z)
| Finished (raised : option exn).

Definition usage : str :=
  chars "Usage: [python] upload_to_s3.py <source_directory> <bucket_name> [aws_access_key_id] [aws_secret_access_key]".

(** The script run with [sys.argv = argv]. *)
Definition script (argv : list str) : list event * script_end :=
  if (length argv <? 3)%nat then ([EPrint usage], Exited 1)
  else
    let source_directory := nth 1 argv [] in
    let bucket_name := nth 2 argv [] in
    let aws_access_key_id :=
      if (3 <? length argv)%nat then Some (nth 3 argv []) else None in
    let aws_secret_access_key :=
      if (4 <? length argv)%nat then Some (nth 4 argv []) else None in
    let '(evs, r) :=
      upload_directory_to_s3 (Some source_directory) (Some bucket_name)
        aws_access_key_id aws_secret_access_key in
    (evs, Finished r).

End WithPlatform.

End Upload.

(* ===================================================================== *)
(** ** The vocabulary of the claims *)
(* ===================================================================== *)

Module Spec.

(** What may follow the extension on a reference line: nothing, or a
    query string. *)
Definition query_or_end (s : str) : bool :=
  match s with
  | [] => true
  | c :: _ => Ascii.eqb c "?"
  end.

(** The line holds the extension at its end, or right before a [?]. *)
Fixpoint ends_in (ext l : str) : bool :=
  (Str.startswith ext l && query_or_end (skipn (length ext) l))
  || match l with
     | [] => false
     | _ :: l' => ends_in ext l'
     end.

(** A line the code takes for a reference: its first character is not
    the comment marker and it ends in the extension. *)
Definition reference_line (ext l : str) : bool :=
  negb (Str.startswith ["#"%char] l) && ends_in ext l.

Definition reference_lines (ext content : str) : list str :=
  List.filter (reference_line ext) (Str.split Str.newline content).

(** A comment line in the spec's words: the first character that is not
    white space is the comment marker. *)
Definition comment_line (l : str) : bool :=
  Str.startswith ["#"%char] (Str.lstrip_by Str.is_space l).

End Spec.


(** Positions in a text, as the matcher sees them. *)
Module Pos.

(** The character before the position reached after reading [w]. *)
Definition adv (p : option ascii) (w : str) : option ascii :=
  fold_left (fun _ c => Some c) w p.

Definition no_newline (l : str) : Prop := Forall (fun c => c <> Str.newline) l.

(** The text at a line's end: nothing, or a line feed. *)
Definition line_end (r : str) : Prop :=
  r = [] \/ exists r', r = Str.newline :: r'.

(** The character before a line's first: none, or a line feed. *)
Definition line_start (p : option ascii) : Prop :=
  p = None \/ p = Some Str.newline.

End Pos.

(** What the claims say about references. *)
Module RefSpec.

(** A manifest body with the given lines. *)
Definition join_lines (ls : list str) : str := Str.join [Str.newline] ls.

(** The scheme [urlsplit] finds at the head of a URL, if any. *)
Definition url_scheme (u : str) : option str :=
  match Str.cut [":"%char]
          (UrlParse.remove_unsafe (Str.lstrip_by UrlParse.is_c0_or_space u)) with
  | Some (c :: pre, _) =>
      if UrlParse.is_ascii_alpha c && forallb UrlParse.is_scheme_char (c :: pre)
      then Some (UrlParse.lower (c :: pre))
      else None
  | _ => None
  end.

(** An absolute URL names its scheme. *)
Definition absolute (u : str) : Prop := url_scheme u <> None.

Definition http_url (u : str) : Prop :=
  url_scheme u = Some (chars "http") \/ url_scheme u = Some (chars "https").

Section WithLibrary.

Variable bracketed_host_error : str -> option str.

(** A line resolved against the manifest's URL. *)
Definition resolve (base_url l : str) : result str :=
  UrlParse.urljoin bracketed_host_error base_url (Str.strip l).

(** The line [l] of a body gives no reference: the body without it
    yields the same. *)
Definition yields_nothing (ext base_url : str) (before : list str) (l : str)
    (after : list str) : Prop :=
  Fetch.find_references bracketed_host_error
    (join_lines (before ++ l :: after)) base_url ext
  = Fetch.find_references bracketed_host_error
      (join_lines (before ++ after)) base_url ext.

(** The count of claim C1, as it is worded: as many URLs come back as
    the body has reference lines. *)
Definition discovers_all (ext base_url content : str) : Prop :=
  exists urls,
    Fetch.find_references bracketed_host_error content base_url ext = Ok urls
    /\ length urls = length (Spec.reference_lines ext content).

End WithLibrary.

End RefSpec.

(** Concrete inputs the properties are tried on. *)
Module Samples.

Definition no_host_error : str -> option str := fun _ => None.

(** A file system that takes every directory and every file. *)
Definition plain_disk : Fetch.disk := Fetch.Disk (fun _ => None) (fun _ => None).

(** A file system on which the two dot names are the directories they
    always are: [open] raises IsADirectoryError for them. *)
Definition dot_disk : Fetch.disk :=
  Fetch.Disk (fun _ => None)
    (fun path =>
       if bool_decide (OsPath.basename path = chars ".")
          || bool_decide (OsPath.basename path = chars "..")
       then Some (OSError (chars "[Errno 21] Is a directory: " ++ Str.repr path))
       else None).

Definition sample_base : str := chars "https://x.test/a/master.m3u8".

Definition sample_body : str :=
  RefSpec.join_lines (map chars
    ["#EXTM3U"; "v/1.m3u8"; "#EXT-X-STREAM-INF:x.m3u8"; "/abs/2.m3u8?tok=1";
     "seg0.ts"; "seg1.ts?tok=1"; ""])%string.

End Samples.

(** What the claims say about validation. *)
Module ValidSpec.

(** The request description names no manifest URL: the URL pattern finds
    nothing, or what it finds does not end in [.m3u8] before its query. *)
Definition no_manifest_url (curl_command : str) : Prop :=
  match Re.search Fetch.url_pattern curl_command with
  | None => True
  | Some m =>
      Str.endswith (chars ".m3u8") (hd [] (Str.split "?" (Re.group1 m))) = false
  end.

(** A credential as the uploader uses it: the argument, or else the
    environment variable. *)
Definition credential (getenv : str -> option str) (name : string)
    (arg : option str) : option str :=
  match arg with
  | None => getenv (chars name)
  | Some _ => arg
  end.

Definition is_network_call (e : Upload.event) : bool :=
  match e with
  | Upload.EPrint _ => false
  | Upload.EClient _ _ | Upload.EUpload _ _ _ => true
  end.

(** The four values the uploader needs. *)
Inductive value :=
| AccessKey
| SecretKey
| SourceDirectory
| BucketName.

(** How the error line names a value. *)
Definition value_name (v : value) : str :=
  match v with
  | AccessKey => chars "AWS Access Key ID"
  | SecretKey => chars "AWS Secret Access Key"
  | SourceDirectory => chars "source directory"
  | BucketName => chars "S3 bucket name"
  end.

(** The values checked before [v]. *)
Definition checked_before (v : value) : list value :=
  match v with
  | AccessKey => []
  | SecretKey => [AccessKey]
  | SourceDirectory => [AccessKey; SecretKey]
  | BucketName => [AccessKey; SecretKey; SourceDirectory]
  end.

(** What a call has for a value: the two credentials with the
    environment behind them, the two names as they are passed. *)
Definition given (getenv : str -> option str)
    (source_directory bucket_name key secret : option str) (v : value)
    : option str :=
  match v with
  | AccessKey => credential getenv "AWS_ACCESS_KEY_ID" key
  | SecretKey => credential getenv "AWS_SECRET_ACCESS_KEY" secret
  | SourceDirectory => source_directory
  | BucketName => bucket_name
  end.

End ValidSpec.

(** What the claims say about the two loops. *)
Module LoopSpec.

Import Fetch.

(** The URLs the manifest GETs and the segment GETs of a trace went to. *)
Definition manifest_gets (t : list event) : list str :=
  flat_map (fun e => match e with EGet u _ false => [u] | _ => [] end) t.

Definition segment_gets (t : list event) : list str :=
  flat_map (fun e => match e with EGet u _ true => [u] | _ => [] end) t.

(** A computation that neither reads the files nor the trace: it adds
    the files [F] and the events [E] to any world and gives [r]. *)
Definition framed {A} (m : M A) (r : result A) (F : gmap str str)
    (E : list event) : Prop :=
  forall w, m w = (r, World (F ∪ files w) (trace w ++ E)).

Section WithRun.

Variable bracketed_host_error : str -> option str.
Variable fs : Fetch.disk.
Variable http_get : str -> gmap str str -> result response.
Variable headers : gmap str str.
Variable save_directory : str.

(** What one pass of the first loop's body appends to the two lists. *)
Definition discovered (m3u8_url : str) : list str * list str :=
  match (manifest_body bracketed_host_error fs http_get headers save_directory
           m3u8_url [] [] start).1 with
  | Ok q => q
  | Raise _ => ([], [])
  end.

Definition nested (u : str) : list str := (discovered u).1.
Definition segments (u : str) : list str := (discovered u).2.

(** The events of one pass of either loop's body. *)
Definition manifest_events (u : str) : list event :=
  trace (manifest_body bracketed_host_error fs http_get headers save_directory
           u [] [] start).2.

Definition segment_events (u : str) : list event :=
  trace (segment_body bracketed_host_error fs http_get headers save_directory
           u start).2.

(** The first loop on the two lists alone. *)
Fixpoint drain (fuel i : nat) (m3u8_files ts_files : list str)
    : option (list str * list str) :=
  match nth_error m3u8_files i with
  | None => Some (m3u8_files, ts_files)
  | Some u =>
      match fuel with
      | O => None
      | S fuel' =>
          drain fuel' (S i) (m3u8_files ++ nested u) (ts_files ++ segments u)
      end
  end.

(** The reference graph: [v] is a child of [u] when processing [u]
    queues [v]. *)
Definition child (v u : str) : Prop := In v (nested u).

Definition reachable (root v : str) : Prop :=
  Relation_Operators.clos_refl_trans str (fun a b => child b a) root v.

Definition on_cycle (v : str) : Prop :=
  Relation_Operators.clos_trans str child v v.

(** The graph reachable from [root] is finite and has no cycle. *)
Definition finite_acyclic (root : str) : Prop :=
  (exists nodes : list str, forall v, reachable root v -> In v nodes)
  /\ forall v, reachable root v -> ~ on_cycle v.

Definition cyclic (root : str) : Prop :=
  exists v, reachable root v /\ on_cycle v.

(** The number of manifests in the tree that unfolds below [u]. *)
Inductive tree_size : str -> nat -> Prop :=
| tree_size_node u ns :
    Forall2 tree_size (nested u) ns -> tree_size u (S (list_sum ns)).

End WithRun.

End LoopSpec.

(** More of the loops' vocabulary. *)
Module LoopSpec2.

Import Fetch LoopSpec.

Definition frameable {A} (m : M A) : Prop :=
  exists r F E, framed m r F E.

Section WithRun.

Variable bracketed_host_error : str -> option str.
Variable fs : Fetch.disk.
Variable http_get : str -> gmap str str -> result response.
Variable headers : gmap str str.
Variable save_directory : str.

(** The manifests the first loop gets to with the fuel it has. *)
Fixpoint visited (fuel i : nat) (m3u8_files : list str) : list str :=
  match nth_error m3u8_files i with
  | None => []
  | Some u =>
      match fuel with
      | O => []
      | S fuel' =>
          u :: visited fuel' (S i)
                 (m3u8_files
                  ++ nested bracketed_host_error fs http_get headers save_directory u)
      end
  end.

End WithRun.

End LoopSpec2.

(** Sample networks. *)
Module Web.

Import Fetch.

Definition command : str :=
  chars "curl 'https://x.test/master.m3u8' -H 'Authorization: Bearer t'".

Definition master : str := chars "https://x.test/master.m3u8".
Definition variant1 : str := chars "https://x.test/variant1.m3u8".
Definition variant2 : str := chars "https://x.test/variant2.m3u8".
Definition seg0 : str := chars "https://x.test/seg0.ts".

Definition auth : gmap str str :=
  {[ chars "Authorization" := chars "Bearer t" ]}.

(** A master manifest with two variants; the second one is missing. *)
Definition site (url : str) (headers : gmap str str) : result response :=
  if bool_decide (url = master) then
    Ok (Response 200
          (RefSpec.join_lines
             [chars "#EXTM3U"; chars "variant1.m3u8"; chars "variant2.m3u8"]))
  else if bool_decide (url = variant1) then Ok (Response 200 (chars "seg0.ts"))
  else if bool_decide (url = variant2) then Ok (Response 404 [])
  else if bool_decide (url = seg0) then Ok (Response 200 (chars "data"))
  else Raise (RequestException (chars "unreachable")).

(** A manifest that lists itself. *)
Definition looping (url : str) (headers : gmap str str) : result response :=
  Ok (Response 200 (chars "master.m3u8")).

End Web.

(** The default [save_directory]. *)
Module Defaults.

Definition downloads : str := chars "downloads".

End Defaults.

(** What the claims say about local file names. *)
Module NameSpec.

(** Where a fetched URL with the given file name is saved. *)
Definition save_path (save_directory name : str) : str :=
  OsPath.join save_directory [[]; name].

(** The file name for a path: its basename, or the default. *)
Definition name_of_path (path : str) : str :=
  if UrlParse.nonempty (OsPath.basename path)
  then OsPath.basename path
  else chars "index.m3u8".

(** The file system lets a file be written at [path]: the directory
    part can be made and the file opened. *)
Definition writable (fs : Fetch.disk) (path : str) : Prop :=
  Fetch.makedirs_error fs (OsPath.dirname path) = None
  /\ Fetch.open_error fs path = None.

(** The lines a trace printed. *)
Definition printed (t : list Fetch.event) : list str :=
  flat_map (fun e => match e with Fetch.EPrint l => [l] | _ => [] end) t.

(** Claim C10's consequence as it is worded, for two segment URLs fetched
    one after the other from the start: both have the same file name, and
    the file of that name holds what the later URL returned. *)
Definition later_write_wins (bhe : str -> option str) (fs : Fetch.disk)
    (http_get : str -> gmap str str -> result Fetch.response)
    (headers : gmap str str) (save_directory u1 u2 : str) : Prop :=
  let w1 := (Fetch.segment_body bhe fs http_get headers save_directory u1
               Fetch.start).2 in
  let w2 := (Fetch.segment_body bhe fs http_get headers save_directory u2 w1).2 in
  exists name response,
    Fetch.get_filename_from_url bhe u1 = Ok name
    /\ Fetch.get_filename_from_url bhe u2 = Ok name
    /\ http_get u2 headers = Ok response
    /\ Fetch.files w2 !! save_path save_directory name
       = Some (Fetch.text response).

End NameSpec.

(** A network that answers every request with the URL asked for. *)
Module Echo.

Definition echo (url : str) (headers : gmap str str) : result Fetch.response :=
  Ok (Fetch.Response 200 url).

Definition first_url : str := chars "https://x.test/a/seg.ts?x=1".
Definition second_url : str := chars "https://cdn.test/b/c/seg.ts".

Definition first_parsed : UrlParse.parse_result :=
  UrlParse.ParseResult (chars "https") (chars "x.test") (chars "/a/seg.ts")
    [] (chars "x=1") [].

Definition second_parsed : UrlParse.parse_result :=
  UrlParse.ParseResult (chars "https") (chars "cdn.test") (chars "/b/c/seg.ts")
    [] [] [].

End Echo.

(** What the claims say about request descriptions. *)
Module RequestSpec.

Import Re Fetch.

(** A header as it stands between its quotes. *)
Definition header_text (kv : str * str) : str :=
  kv.1 ++ chars ": " ++ kv.2.

(** A header declaration of a request description. *)
Definition header_decl (kv : str * str) : str :=
  chars " -H '" ++ header_text kv ++ chars "'".

(** A request description as browsers copy it: the quoted URL after
    [curl], then one [-H] declaration per header. *)
Definition request_description (url : str) (hs : list (str * str)) : str :=
  chars "curl '" ++ url ++ chars "'" ++ concat (map header_decl hs).

(** Text free of quotes. *)
Definition plain (s : str) : Prop :=
  Forall (fun c => cset_mem not_quote c = true) s.

(** A header name holds no colon-space, and neither name nor value holds
    a quote. *)
Definition well_formed_header (kv : str * str) : Prop :=
  plain kv.1 /\ plain kv.2 /\ Str.cut (chars ": ") kv.1 = None.

(** An http or https URL without white space, quotes or [-H] in it,
    ending in [.m3u8] before its query. *)
Definition well_formed_url (url : str) : Prop :=
  (exists tail, tail <> []
     /\ (url = chars "http://" ++ tail \/ url = chars "https://" ++ tail))
  /\ Forall (fun c => cset_mem not_space_quote c = true) url
  /\ Str.cut (chars "-H") url = None
  /\ Str.endswith (chars ".m3u8") (hd [] (Str.split "?" url)) = true.

Definition well_formed (url : str) (hs : list (str * str)) : Prop :=
  well_formed_url url
  /\ Forall well_formed_header hs
  /\ List.NoDup (map fst hs).

(** The dictionary the headers make, later ones overwriting. *)
Definition dict_of (hs : list (str * str)) (d : gmap str str) : gmap str str :=
  fold_left (fun d kv => <[kv.1 := kv.2]> d) hs d.

(** Claim C5 as it is worded: from the request description with the URL
    and the N headers, extraction returns a mapping of size N and the exact
    URL. *)
Definition round_trip (url : str) (hs : list (str * str)) : Prop :=
  exists d,
    extract_headers (request_description url hs) = Ok d
    /\ size d = length hs
    /\ extract_url (request_description url hs) = Ok url.

(** A manifest URL with the letters of the header flag in its path. *)
Definition hd_url : str := chars "https://cdn.test/video-HD/master.m3u8".

End RequestSpec.

(** What the claims say about the uploader. *)
Module UploadSpec.

Import Upload.

(** A directory entry's name: not empty, without the separator, and
    neither of the two dot names. *)
Definition good_name (sep : ascii) (n : str) : Prop :=
  n <> [] /\ Str.contains sep n = false /\ n <> chars "." /\ n <> chars "..".

Fixpoint good_entry (sep : ascii) (e : entry) : Prop :=
  match e with
  | File n => good_name sep n
  | Dir n children =>
      good_name sep n
      /\ (fix all (l : list entry) : Prop :=
            match l with
            | [] => True
            | c :: l' => good_entry sep c /\ all l'
            end) children
  end.

Definition good_tree (sep : ascii) (es : list entry) : Prop :=
  Forall (good_entry sep) es.

(** The files below an entry, each as the names that lead to it from the
    source directory, in the order [os.walk] meets them. *)
Fixpoint files_below (rel : list str) (e : entry) : list (list str) :=
  match e with
  | File _ => []
  | Dir n children =>
      map (fun f => (rel ++ [n]) ++ [f]) (file_names children)
      ++ flat_map (files_below (rel ++ [n])) children
  end.

Definition files_in (es : list entry) : list (list str) :=
  map (fun f => [f]) (file_names es) ++ flat_map (files_below []) es.

(** The upload calls of a trace: file path, bucket, key. *)
Definition uploads (t : list event) : list (str * str * str) :=
  flat_map (fun e => match e with
                     | EUpload p b k => [(p, b, k)]
                     | _ => []
                     end) t.

Definition keys (t : list event) : list str := map snd (uploads t).

End UploadSpec.

(** Directory trees and platforms the properties are tried on. *)
Module Trees.

Import Upload.

(** [a.txt] and [sub/b.txt]. *)
Definition small : list entry :=
  [File (chars "a.txt"); Dir (chars "sub") [File (chars "b.txt")]].

Definition run (os : Platform.os_path) (tree : list entry)
    : list event * option exn :=
  upload_directory_to_s3 os (fun _ => None)
    (fun _ _ => Ok tt) (fun _ _ _ => Ok tt) (fun _ => Some tree)
    (Some (chars "site")) (Some (chars "bucket"))
    (Some (chars "AKIA")) (Some (chars "secret")).

End Trees.

(** POSIX paths by their components. *)
Module PathSpec.

Import OsPath.

(** The components [normpath] keeps of a path. *)
Definition components (p : str) : list str :=
  fold_left (normpath_step (if Str.startswith [sep] p then 1 else 0))
    (Str.split sep p) [].

(** What joining the names [names] one after the other adds to a
    directory's path. *)
Definition tail_for (dir : str) (names : list str) : str :=
  if Str.endswith [sep] dir then Str.join [sep] names
  else sep :: Str.join [sep] names.

End PathSpec.

(** The uploader's keys as the specification words them. *)
Module KeySpec.

Import Upload UploadSpec.

(** A file's key in the storage convention: its names from the source
    directory down, joined by slashes. *)
Definition storage_key (rel : list str) : str := Str.join (chars "/") rel.

(** One upload per file of the tree, under its storage key. *)
Definition storage_keys (tree : list entry) (t : list event) : Prop :=
  keys t = map storage_key (files_in tree).

(** On a POSIX platform: one upload per file of the tree, under its
    names joined by the separator, from the path [os.walk] gives the
    file. *)
Definition posix_uploads (source_directory bucket_name : str)
    (tree : list entry) (t : list event) : Prop :=
  uploads t
  = map (fun rel => (fold_left OsPath.join2 rel source_directory,
                     bucket_name, Str.join [OsPath.sep] rel))
        (files_in tree).

End KeySpec.

(** What a pattern takes from a text. *)
Module ReSpec.

Import Re.

(** The pattern [r] takes the text [w], turning what group 1 holds from
    [g] into [g'].  Anchors and lookaheads take no text; where they hold
    is not recorded here. *)
Fixpoint takes (r : regex) (w : str) (g g' : option str) : Prop :=
  match r with
  | Eps | Bol | Eol | NotAhead _ => w = [] /\ g' = g
  | Chr s => (exists c, w = [c] /\ cset_mem s c = true) /\ g' = g
  | Seq r1 r2 =>
      exists w1 w2 g1, w = w1 ++ w2 /\ takes r1 w1 g g1 /\ takes r2 w2 g1 g'
  | Star s => Forall (fun c => cset_mem s c = true) w /\ g' = g
  | Plus s => w <> [] /\ Forall (fun c => cset_mem s c = true) w /\ g' = g
  | Opt r' => (w = [] /\ g' = g) \/ takes r' w g g'
  | Group r' => (exists g1, takes r' w g g1) /\ g' = Some w
  end.

(** The URLs the URL pattern captures. *)
Definition http_text (url : str) : Prop :=
  exists tail,
    tail <> []
    /\ Forall (fun c => cset_mem Fetch.not_space_quote c = true) tail
    /\ (url = chars "http://" ++ tail \/ url = chars "https://" ++ tail).

(** The text [url] stands in [s] behind the word curl, white space and at
    most one quote. *)
Definition after_curl (url s : str) : Prop :=
  exists before ws q after,
    s = before ++ chars "curl" ++ ws ++ q ++ url ++ after
    /\ ws <> [] /\ Forall (fun c => Str.is_space c = true) ws
    /\ (q = [] \/ exists c, q = [c] /\ cset_mem Fetch.quote c = true).

End ReSpec.

(** What a run of the downloader leaves in its trace. *)
Module RunSpec.

Import Fetch.

(** The requests of a trace, each with the headers it carried. *)
Definition requests (t : list event) : list (str * gmap str str) :=
  flat_map (fun e => match e with EGet u h _ => [(u, h)] | _ => [] end) t.

(** The paths a trace wrote to. *)
Definition written (t : list event) : list str :=
  flat_map (fun e => match e with EWrite p _ => [p] | _ => [] end) t.

(** A file name: not empty, and without a slash. *)
Definition file_name (n : str) : Prop :=
  n <> [] /\ Str.contains "/" n = false.

(** The path names a file right in the directory [dir]. *)
Definition saved_in (dir path : str) : Prop :=
  exists name, file_name name /\ path = NameSpec.save_path dir name.

(** The carriage return. *)
Definition cr : ascii := "013"%char.

End RunSpec.

(** What the uploader reports. *)
Module ReportSpec.

Import Upload.

Section WithStore.

Variable upload_file : str -> str -> str -> result unit.

(** The line printed after an upload call. *)
Definition report (file_path bucket_name s3_key : str) : str :=
  match upload_file file_path bucket_name s3_key with
  | Ok _ =>
      chars "Uploaded " ++ file_path ++ chars " to s3://" ++ bucket_name
        ++ chars "/" ++ s3_key
  | Raise e => chars "Failed to upload " ++ file_path ++ chars ": " ++ exn_msg e
  end.

(** The events of the loop on a POSIX platform for the files [rels],
    each given by the names that lead to it. *)
Definition loop_events (source_directory bucket_name : str)
    (rels : list (list str)) : list event :=
  flat_map
    (fun rel =>
       let file_path := fold_left OsPath.join2 rel source_directory in
       let s3_key := Str.join [OsPath.sep] rel in
       [EUpload file_path bucket_name s3_key;
        EPrint (report file_path bucket_name s3_key)])
    rels.

End WithStore.

End ReportSpec.

(** More sample networks. *)
Module Web2.

Import Fetch.

(** Every manifest lists one reference that urljoin takes and one that it
    rejects. *)
Definition broken (url : str) (headers : gmap str str) : result response :=
  Ok (Response 200 (RefSpec.join_lines [chars "v1.m3u8"; chars "//[v2.m3u8"])).

(** Every answer is a manifest whose one reference has the name of the
    parent directory for its file name. *)
Definition dotdot (url : str) (headers : gmap str str) : result response :=
  Ok (Response 200 (chars "//x.test/a/..?x=.m3u8")).

Definition dotdot_url : str := chars "https://x.test/a/..?x=.m3u8".

(** A manifest as a server with CRLF line ends sends it. *)
Definition crlf_body : list str :=
  [chars "#EXTM3U" ++ [RunSpec.cr]; chars "seg0.ts" ++ [RunSpec.cr];
   chars "seg1.ts" ++ [RunSpec.cr]].

End Web2.

(** What a run keeps to, event by event. *)
Module EventSpec.

Import Fetch RunSpec.

(** A request carries the run's headers; a write goes to a file name
    right in the save directory. *)
Definition well_behaved (headers : gmap str str) (save_directory : str)
    (e : event) : Prop :=
  match e with
  | EGet _ h _ => h = headers
  | EWrite p _ => saved_in save_directory p
  | _ => True
  end.

End EventSpec.

(* ===================================================================== *)
(** * Properties *)
(* ===================================================================== *)

Module ReFacts.
Import Re Pos.

#[global] Arguments Ascii.eqb : simpl never.

Lemma adv_app p x y : adv p (x ++ y) = adv (adv p x) y.
Proof. apply fold_left_app. Qed.

Lemma rmatch_seq r1 r2 st k :
  rmatch (Seq r1 r2) st k = rmatch r1 st (fun st' => rmatch r2 st' k).
Proof. reflexivity. Qed.

Lemma rmatch_opt r st k :
  rmatch (Opt r) st k =
  match rmatch r st k with Some x => Some x | None => k st end.
Proof. reflexivity. Qed.

Lemma rmatch_not_ahead r st k :
  rmatch (NotAhead r) st k =
  match rmatch r st Some with Some _ => None | None => k st end.
Proof. reflexivity. Qed.

Lemma rmatch_group r st k :
  rmatch (Group r) st k =
  rmatch r st (fun st' =>
    k (MState (prev st') (rest st')
         (Some (firstn (length (rest st) - length (rest st')) (rest st))))).
Proof. reflexivity. Qed.

Lemma rmatch_star c st k :
  rmatch (Star c) st k = star_loop c k (grp st) (prev st) (rest st).
Proof. reflexivity. Qed.

Lemma rmatch_chr c p a s g k :
  rmatch (Chr c) (MState p (a :: s) g) k =
  if cset_mem c a then k (MState (Some a) s g) else None.
Proof. reflexivity. Qed.

Lemma rmatch_chr_nil c p g k : rmatch (Chr c) (MState p [] g) k = None.
Proof. reflexivity. Qed.

Lemma rmatch_plus c p a s g k :
  rmatch (Plus c) (MState p (a :: s) g) k =
  if cset_mem c a then star_loop c k g (Some a) s else None.
Proof. reflexivity. Qed.

Lemma rmatch_lit w : forall p s g k,
  rmatch (lit w) (MState p s g) k =
  if Str.startswith w s
  then k (MState (adv p w) (skipn (length w) s) g)
  else None.
Proof.
  induction w as [|a w IH]; intros p s g k; simpl.
  - reflexivity.
  - destruct s as [|b s]; simpl; [reflexivity|].
    unfold cset_mem. destruct (Ascii.eqb_spec a b) as [->|Hne]; simpl.
    + apply IH.
    + reflexivity.
Qed.

Lemma startswith_app w : forall s r,
  no_newline w -> line_end r -> ~ In Str.newline s ->
  Str.startswith w (s ++ r) = Str.startswith w s.
Proof.
  induction w as [|a w IH]; intros s r Hw Hr Hs; simpl; [reflexivity|].
  inversion Hw as [|? ? Ha Hw']; subst.
  destruct s as [|b s]; simpl.
  - destruct Hr as [->|[r' ->]]; simpl; [reflexivity|].
    destruct (Ascii.eqb_spec a Str.newline); [contradiction|reflexivity].
  - rewrite IH; auto. intros Hin. apply Hs. now right.
Qed.

Lemma startswith_split w s :
  Str.startswith w s = true -> s = w ++ skipn (length w) s.
Proof.
  revert s. induction w as [|a w IH]; intros s H; simpl in *; [reflexivity|].
  destruct s as [|b s]; [discriminate|].
  apply andb_prop in H as [H1 H2]. apply Ascii.eqb_eq in H1. subst b.
  simpl. f_equal. now apply IH.
Qed.

Lemma startswith_refl w s : Str.startswith w (w ++ s) = true.
Proof.
  induction w as [|a w IH]; simpl; [reflexivity|].
  now rewrite Ascii.eqb_refl.
Qed.

(** Greedy repetition settles on the longest run when the rest of the
    pattern accepts it. *)
Lemma star_loop_greedy c k g w : forall p s res,
  forallb (cset_mem c) w = true ->
  k (MState (adv p w) s g) = Some res ->
  match s with [] => True | a :: _ => cset_mem c a = false end ->
  star_loop c k g p (w ++ s) = Some res.
Proof.
  induction w as [|a w IH]; intros p s res Hw Hk Hs; simpl in *.
  - destruct s as [|b s]; simpl; [exact Hk|]. now rewrite Hs.
  - apply andb_prop in Hw as [Ha Hw]. rewrite Ha.
    now rewrite (IH (Some a) s res).
Qed.

End ReFacts.

Module RefFacts.
Import Re Pos ReFacts Spec Fetch.

Section Ext.

Variable ext : str.
Hypothesis ext_nonempty : ext <> [].
Hypothesis ext_no_newline : no_newline ext.

Lemma line_end_not_ext r : line_end r -> Str.startswith ext r = false.
Proof using ext_nonempty ext_no_newline.
  destruct ext as [|a w]; [congruence|].
  intros [->|[r' ->]]; simpl; [reflexivity|].
  inversion ext_no_newline; subst.
  destruct (Ascii.eqb_spec a Str.newline); [contradiction|reflexivity].
Qed.

Lemma no_newline_In l : no_newline l -> ~ In Str.newline l.
Proof.
  unfold no_newline. rewrite List.Forall_forall. intros H Hin. now apply (H _ Hin).
Qed.

Lemma forallb_any l : no_newline l -> forallb (cset_mem CAny) l = true.
Proof.
  induction 1 as [|c l Hc _ IH]; simpl; [reflexivity|].
  rewrite IH, andb_true_r. destruct (Ascii.eqb_spec c Str.newline); [contradiction|reflexivity].
Qed.

Lemma line_end_stops r :
  line_end r -> match r with [] => True | a :: _ => cset_mem CAny a = false end.
Proof. intros [->|[r' ->]]; simpl; [exact I|reflexivity]. Qed.

Lemma eol_at_line_end r p g :
  line_end r -> rmatch Eol (MState p r g) Some = Some (MState p r g).
Proof. intros [->|[r' ->]]; reflexivity. Qed.

(** What follows the extension: the optional query, the end of the
    group, the end of the line. *)
Lemma query_tail (full z r : str) p g0 :
  no_newline z -> line_end r ->
  rmatch (Opt (Seq (Chr (CChar "?")) (Star CAny))) (MState p (z ++ r) g0)
    (fun st' =>
       rmatch Eol
         (MState (prev st') (rest st')
            (Some (firstn (length full - length (rest st')) full))) Some)
  = if query_or_end z
    then Some (MState (adv p z) r (Some (firstn (length full - length r) full)))
    else None.
Proof.
  intros Hz Hr. destruct z as [|c z]; simpl.
  - destruct Hr as [->|[r' ->]]; reflexivity.
  - inversion Hz as [|? ? Hc Hz']; subst.
    destruct (Ascii.eqb_spec "?"%char c) as [<-|Hne].
    + rewrite (Ascii.eqb_refl "?"%char). simpl.
      erewrite star_loop_greedy; [reflexivity| |simpl|].
      * now apply forallb_any.
      * now apply eol_at_line_end.
      * now apply line_end_stops.
    + replace (Ascii.eqb c "?") with false
        by (symmetry; apply Ascii.eqb_neq; congruence).
      destruct (Ascii.eqb_spec c Str.newline); [contradiction|reflexivity].
Qed.

(** The greedy [.*] of the reference pattern, started anywhere in a line. *)
Lemma star_reference (full r : str) : line_end r -> forall y p,
  no_newline y ->
  star_loop CAny
    (fun st1 =>
       rmatch (lit ext) st1 (fun st2 =>
         rmatch (Opt (Seq (Chr (CChar "?")) (Star CAny))) st2 (fun st' =>
           rmatch Eol
             (MState (prev st') (rest st')
                (Some (firstn (length full - length (rest st')) full))) Some)))
    None p (y ++ r)
  = if ends_in ext y
    then Some (MState (adv p y) r (Some (firstn (length full - length r) full)))
    else None.
Proof using ext_nonempty ext_no_newline.
  intros Hr. induction y as [|c y IH]; intros p Hy.
  - assert (Hk : rmatch (lit ext) (MState p r None) (fun st2 =>
         rmatch (Opt (Seq (Chr (CChar "?")) (Star CAny))) st2 (fun st' =>
           rmatch Eol
             (MState (prev st') (rest st')
                (Some (firstn (length full - length (rest st')) full))) Some))
        = None).
    { rewrite rmatch_lit. now rewrite line_end_not_ext. }
    assert (He : ends_in ext [] = false).
    { simpl. destruct ext; [congruence|reflexivity]. }
    rewrite He. simpl.
    destruct Hr as [->|[r' ->]]; simpl; simpl in Hk; exact Hk.
  - inversion Hy as [|? ? Hc Hy']; subst.
    change ((c :: y) ++ r) with (c :: (y ++ r)).
    cbn [star_loop]. 
    replace (cset_mem CAny c) with true
      by (simpl; destruct (Ascii.eqb_spec c Str.newline); [contradiction|reflexivity]).
    rewrite (IH (Some c) Hy').
    change (adv p (c :: y)) with (adv (Some c) y).
    cbn [ends_in]. destruct (ends_in ext y).
    + now rewrite orb_true_r.
    + rewrite orb_false_r. rewrite rmatch_lit.
      change (c :: y ++ r) with ((c :: y) ++ r).
      rewrite startswith_app; auto using no_newline_In.
      destruct (Str.startswith ext (c :: y)) eqn:Hs; [|reflexivity].
      apply startswith_split in Hs.
      set (z := skipn (length ext) (c :: y)) in *.
      assert (Hz : no_newline z).
      { unfold no_newline in *. rewrite Hs in Hy.
        apply List.Forall_app in Hy. tauto. }
      replace (skipn (length ext) ((c :: y) ++ r)) with (z ++ r).
      2:{ rewrite Hs. rewrite <- List.app_assoc.
          rewrite List.skipn_app, List.skipn_all, Nat.sub_diag. reflexivity. }
      simpl andb. rewrite (query_tail full z r); auto.
      replace (adv (adv p ext) z) with (adv (Some c) y); [reflexivity|].
      change (adv (Some c) y) with (adv p (c :: y)).
      rewrite Hs at 1. now rewrite adv_app.
Qed.

(** One attempt at the start of a line. *)
Lemma attempt_line_start l r p :
  line_start p -> no_newline l -> line_end r ->
  attempt (reference_pattern ext) p (l ++ r)
  = if reference_line ext l then Some (MState (adv p l) r (Some l)) else None.
Proof using ext_nonempty ext_no_newline.
  intros Hp Hl Hr. unfold attempt, reference_pattern, reference_line.
  rewrite rmatch_seq.
  assert (Hbol : forall k, rmatch Bol (MState p (l ++ r) None) k
                           = k (MState p (l ++ r) None)).
  { intros k. destruct Hp as [->| ->]; reflexivity. }
  rewrite Hbol, rmatch_seq, rmatch_not_ahead.
  destruct (Str.startswith ["#"%char] l) eqn:Hh; cbn [negb andb].
  - destruct l as [|c l]; [discriminate|].
    simpl in Hh. apply andb_prop in Hh as [Hh _].
    cbn [app]. rewrite rmatch_chr. cbn [cset_mem]. now rewrite Hh.
  - assert (Hhash : rmatch (Chr (CChar "#")) (MState p (l ++ r) None) Some = None).
    { destruct l as [|c l]; cbn [app].
      - destruct Hr as [->|[r' ->]]; reflexivity.
      - rewrite rmatch_chr. cbn [cset_mem].
        simpl in Hh. rewrite andb_true_r in Hh. now rewrite Hh. }
    rewrite Hhash.
    transitivity
      (if ends_in ext l
       then Some (MState (adv p l) r
                    (Some (firstn (length (l ++ r) - length r) (l ++ r))))
       else None).
    + exact (star_reference (l ++ r) r Hr l p Hl).
    + rewrite List.length_app.
      replace (length l + length r - length r) with (length l) by lia.
      now rewrite List.firstn_app, List.firstn_all, Nat.sub_diag, List.app_nil_r.
Qed.

(** No attempt succeeds inside a line. *)
Lemma attempt_mid_line c s :
  c <> Str.newline -> attempt (reference_pattern ext) (Some c) s = None.
Proof.
  intros Hc. unfold attempt. simpl.
  destruct (Ascii.eqb_spec c Str.newline); [contradiction|reflexivity].
Qed.

End Ext.

End RefFacts.

Module LineFacts.
Import Re Pos ReFacts Spec Fetch RefFacts.

(** Passing over the characters of the last match. *)
Lemma findall_skip r w : forall p s,
  w <> [] ->
  findall_from r (length w) p (w ++ s) = findall_from r 0 (adv p w) s.
Proof.
  induction w as [|c w IH]; intros p s Hw; [congruence|].
  destruct w as [|c' w'].
  - reflexivity.
  - change (findall_from r (length (c :: c' :: w')) p ((c :: c' :: w') ++ s))
      with (findall_from r (length (c' :: w')) (Some c) ((c' :: w') ++ s)).
    now rewrite IH.
Qed.

(** A successful attempt that consumed [w]. *)
Lemma findall_hit r p w s st :
  w <> [] -> attempt r p (w ++ s) = Some st -> rest st = s ->
  findall_from r 0 p (w ++ s) = group1 st :: findall_from r 0 (adv p w) s.
Proof.
  intros Hw Ha Hr. destruct w as [|c w]; [congruence|].
  assert (Hspan : span ((c :: w) ++ s) st = S (length w)).
  { unfold span. rewrite Hr, List.length_app. simpl. lia. }
  cbn [findall_from app]. cbn [app] in Ha, Hspan. rewrite Ha. rewrite Hspan.
  cbn [Nat.eqb Nat.sub]. rewrite Nat.sub_0_r. f_equal.
  destruct w as [|c' w].
  - reflexivity.
  - change (c' :: w ++ s) with ((c' :: w) ++ s).
    now rewrite (findall_skip r (c' :: w) (Some c) s).
Qed.

Lemma findall_miss r p c s :
  attempt r p (c :: s) = None ->
  findall_from r 0 p (c :: s) = findall_from r 0 (Some c) s.
Proof. intros Ha. cbn [findall_from]. now rewrite Ha. Qed.

Lemma findall_miss_nil r p :
  attempt r p [] = None -> findall_from r 0 p [] = [].
Proof. intros Ha. cbn [findall_from]. now rewrite Ha. Qed.

Lemma split_line l r :
  no_newline l ->
  Str.split Str.newline (l ++ Str.newline :: r) = l :: Str.split Str.newline r.
Proof.
  induction 1 as [|c l Hc _ IH]; simpl.
  - reflexivity.
  - destruct (Ascii.eqb_spec c Str.newline); [contradiction|]. now rewrite IH.
Qed.

Lemma split_last_line l :
  no_newline l -> Str.split Str.newline l = [l].
Proof.
  induction 1 as [|c l Hc _ IH]; simpl; [reflexivity|].
  destruct (Ascii.eqb_spec c Str.newline); [contradiction|]. now rewrite IH.
Qed.

(** A text is its first line, then nothing or a line feed and the rest. *)
Lemma first_line (s : str) :
  exists l r, s = l ++ r /\ no_newline l /\
              (r = [] \/ exists r', r = Str.newline :: r').
Proof.
  induction s as [|c s (l & r & -> & Hl & Hr)].
  - exists [], []. repeat split; [constructor|now left].
  - destruct (Ascii.eqb_spec c Str.newline) as [->|Hc].
    + exists [], (Str.newline :: l ++ r). repeat split; [constructor|]. right. eauto.
    + exists (c :: l), r. repeat split; [now constructor|exact Hr].
Qed.

Section Ext.

Variable ext : str.
Hypothesis ext_nonempty : ext <> [].
Hypothesis ext_no_newline : no_newline ext.

Lemma reference_line_nonempty l : reference_line ext l = true -> l <> [].
Proof using ext_nonempty ext_no_newline.
  intros H ->. unfold reference_line in H. simpl in H.
  destruct ext; [congruence|discriminate].
Qed.

Lemma adv_mid l c :
  no_newline (c :: l) -> exists c', adv (Some c) l = Some c' /\ c' <> Str.newline.
Proof.
  revert c. induction l as [|a l IH]; intros c H; inversion H; subst.
  - exists c. now split.
  - apply (IH a). assumption.
Qed.

(** Inside a line nothing matches: the scan runs on to the line's end. *)
Lemma findall_rest_of_line l r : line_end r -> forall c,
  c <> Str.newline -> no_newline l ->
  findall_from (reference_pattern ext) 0 (Some c) (l ++ r)
  = match r with
    | [] => []
    | _ :: r' => findall_from (reference_pattern ext) 0 (Some Str.newline) r'
    end.
Proof.
  intros Hr. induction l as [|a l IH]; intros c Hc Hl.
  - destruct Hr as [->|[r' ->]]; cbn [app].
    + apply findall_miss_nil. now apply attempt_mid_line.
    + apply findall_miss. now apply attempt_mid_line.
  - inversion Hl; subst. cbn [app].
    rewrite findall_miss by now apply attempt_mid_line.
    now apply IH.
Qed.

(** The scan of one line, started at its first character. *)
Lemma findall_line l r p :
  line_start p -> no_newline l -> line_end r ->
  findall_from (reference_pattern ext) 0 p (l ++ r)
  = (if reference_line ext l then [l] else [])
    ++ match r with
       | [] => []
       | _ :: r' => findall_from (reference_pattern ext) 0 (Some Str.newline) r'
       end.
Proof using ext_nonempty ext_no_newline.
  intros Hp Hl Hr.
  pose proof (attempt_line_start ext ext_nonempty ext_no_newline l r p Hp Hl Hr) as Ha.
  destruct (reference_line ext l) eqn:Href.
  - pose proof (reference_line_nonempty l Href) as Hne.
    rewrite (findall_hit _ p l r _ Hne Ha eq_refl). cbn [group1 grp app].
    f_equal. destruct l as [|c l]; [congruence|].
    destruct (adv_mid l c Hl) as (c' & Hc' & Hnl).
    change (adv p (c :: l)) with (adv (Some c) l). rewrite Hc'.
    apply (findall_rest_of_line [] r Hr c' Hnl). constructor.
  - cbn [app]. destruct l as [|c l].
    + cbn [app] in *. destruct Hr as [->|[r' ->]].
      * now apply findall_miss_nil.
      * now apply findall_miss.
    + cbn [app] in *. rewrite (findall_miss _ _ _ _ Ha).
      inversion Hl; subst. now apply findall_rest_of_line.
Qed.

Lemma findall_from_lines n : forall content p,
  length content <= n -> line_start p ->
  findall_from (reference_pattern ext) 0 p content
  = reference_lines ext content.
Proof using ext_nonempty ext_no_newline.
  induction n as [|n IH]; intros content p Hn Hp;
    destruct (first_line content) as (l & r & -> & Hl & Hr).
  - rewrite findall_line by (auto; exact Hr).
    unfold reference_lines.
    destruct Hr as [->|[r' ->]]; [|rewrite List.length_app in Hn; simpl in Hn; lia].
    rewrite (List.app_nil_r l), split_last_line by assumption. simpl.
    rewrite ?List.app_nil_r.
    now destruct (reference_line ext l).
  - rewrite findall_line by (auto; exact Hr).
    unfold reference_lines.
    destruct Hr as [->|[r' ->]].
    + rewrite (List.app_nil_r l), split_last_line by assumption. simpl.
    rewrite ?List.app_nil_r.
      now destruct (reference_line ext l).
    + rewrite split_line by assumption. simpl List.filter.
      rewrite (IH r' (Some Str.newline)).
      * unfold reference_lines. now destruct (reference_line ext l).
      * rewrite List.length_app in Hn. simpl in Hn. lia.
      * now right.
Qed.

(** [re.findall] with the reference pattern returns, in order, the lines
    that are reference lines. *)
Lemma findall_reference_lines content :
  findall (reference_pattern ext) content = reference_lines ext content.
Proof using ext_nonempty ext_no_newline.
  apply (findall_from_lines (length content)); [lia|now left].
Qed.

End Ext.

End LineFacts.

Module UrlFacts.
Import UrlParse RefSpec.

(** Facts about single characters, by enumeration. *)
Ltac by_cases_on_char c :=
  destruct c as [[] [] [] [] [] [] [] []]; vm_compute; (discriminate || reflexivity || auto).

Lemma alpha_not_c0 c : is_ascii_alpha c = true -> is_c0_or_space c = false.
Proof. by_cases_on_char c. Qed.

Lemma scheme_char_safe c : is_scheme_char c = true -> is_unsafe c = false.
Proof. by_cases_on_char c. Qed.

Lemma scheme_char_not_colon c :
  is_scheme_char c = true -> Ascii.eqb ":" c = false.
Proof. by_cases_on_char c. Qed.

Lemma remove_unsafe_scheme s rest :
  forallb is_scheme_char s = true ->
  remove_unsafe (s ++ ":"%char :: rest) = s ++ ":"%char :: remove_unsafe rest.
Proof.
  induction s as [|c s IH]; intros H.
  - reflexivity.
  - simpl in H. apply andb_prop in H as [Hc Hs].
    unfold remove_unsafe in *. simpl. rewrite (scheme_char_safe c Hc). simpl.
    now rewrite IH.
Qed.

Lemma cut_colon_scheme s rest :
  forallb is_scheme_char s = true ->
  Str.cut [":"%char] (s ++ ":"%char :: rest) = Some (s, rest).
Proof.
  induction s as [|c s IH]; intros H.
  - reflexivity.
  - simpl in H. apply andb_prop in H as [Hc Hs].
    simpl. rewrite (scheme_char_not_colon c Hc). simpl.
    now rewrite IH.
Qed.

(** A URL that is a lower-case scheme, a colon and anything is absolute
    with that scheme. *)
Lemma url_scheme_prefix c s rest :
  is_ascii_alpha c = true -> forallb is_scheme_char (c :: s) = true ->
  lower (c :: s) = c :: s ->
  url_scheme ((c :: s) ++ ":"%char :: rest) = Some (c :: s).
Proof.
  intros Ha Hs Hl. unfold url_scheme.
  change (Str.lstrip_by is_c0_or_space ((c :: s) ++ ":"%char :: rest))
    with (if is_c0_or_space c then Str.lstrip_by is_c0_or_space (s ++ ":"%char :: rest)
          else (c :: s) ++ ":"%char :: rest).
  rewrite (alpha_not_c0 c Ha).
  rewrite remove_unsafe_scheme, cut_colon_scheme by assumption.
  now rewrite Ha, Hs, Hl.
Qed.

Section WithLibrary.

Variable bhe : str -> option str.

(** The scheme [urlsplit] reports is the one at the head of the URL, or
    else the default it was given. *)
Lemma urlsplit_scheme u d r :
  urlsplit bhe u d = Ok r ->
  scheme r = match url_scheme u with
             | Some s => s
             | None =>
                 remove_unsafe
                   (Str.rstrip_by is_c0_or_space (Str.lstrip_by is_c0_or_space d))
             end.
Proof.
  unfold urlsplit, url_scheme, bind.
  intros H. repeat case_match; simplify_eq; reflexivity.
Qed.

Lemma urlparse_scheme u d r :
  urlparse bhe u d = Ok r ->
  p_scheme r = match url_scheme u with
               | Some s => s
               | None =>
                   remove_unsafe
                     (Str.rstrip_by is_c0_or_space (Str.lstrip_by is_c0_or_space d))
               end.
Proof.
  unfold urlparse, bind. intros H.
  destruct (urlsplit bhe u d) as [sr|] eqn:E; [|discriminate].
  apply urlsplit_scheme in E. rewrite <- E.
  repeat case_match; simplify_eq; reflexivity.
Qed.

End WithLibrary.

End UrlFacts.

Module JoinFacts.
Import UrlParse RefSpec UrlFacts.

Lemma urlunparse_scheme c s netloc url params query fragment :
  is_ascii_alpha c = true -> forallb is_scheme_char (c :: s) = true ->
  lower (c :: s) = c :: s ->
  url_scheme (urlunparse (c :: s) netloc url params query fragment)
  = Some (c :: s).
Proof.
  intros Ha Hs Hl. unfold urlunparse, urlunsplit.
  cbn [nonempty andb orb].
  set (u1 := if nonempty params then _ else _).
  set (u2 := if nonempty netloc || _ then _ else _).
  assert (E : exists rest,
             (if nonempty fragment
              then (if nonempty query
                    then ((c :: s) ++ chars ":" ++ u2) ++ chars "?" ++ query
                    else (c :: s) ++ chars ":" ++ u2) ++ chars "#" ++ fragment
              else if nonempty query
                   then ((c :: s) ++ chars ":" ++ u2) ++ chars "?" ++ query
                   else (c :: s) ++ chars ":" ++ u2)
             = (c :: s) ++ ":"%char :: rest).
  { change (chars ":" ++ u2) with (":"%char :: u2).
    destruct (nonempty fragment), (nonempty query);
      rewrite <- ?List.app_assoc; simpl; eexists; reflexivity. }
  destruct E as [rest ->]. now apply url_scheme_prefix.
Qed.

Lemma http_scheme_facts s :
  s = chars "http" \/ s = chars "https" ->
  exists c t, s = c :: t /\ is_ascii_alpha c = true
              /\ forallb is_scheme_char (c :: t) = true
              /\ lower (c :: t) = c :: t
              /\ mem_str s uses_relative = true
              /\ remove_unsafe
                   (Str.rstrip_by is_c0_or_space (Str.lstrip_by is_c0_or_space s)) = s.
Proof.
  intros [-> | ->]; eexists _, _; split; try reflexivity;
    repeat split; vm_compute; reflexivity.
Qed.

Section WithLibrary.

Variable bhe : str -> option str.

(** Whatever [urljoin] makes of a reference against an http(s) base is
    absolute. *)
Lemma urljoin_absolute base url r :
  http_url base -> urljoin bhe base url = Ok r -> absolute r.
Proof.
  intros Hb H. unfold urljoin in H.
  destruct base as [|b0 base'].
  { destruct Hb as [Hb|Hb]; vm_compute in Hb; discriminate. }
  destruct url as [|u0 url'].
  { injection H as <-. unfold absolute. destruct Hb as [-> | ->]; discriminate. }
  set (base := b0 :: base') in *. set (url := u0 :: url') in *.
  unfold bind in H.
  destruct (urlparse bhe base []) as [b|] eqn:Eb; [|discriminate].
  destruct (urlparse bhe url (p_scheme b)) as [u|] eqn:Eu; [|discriminate].
  apply urlparse_scheme in Eb, Eu.
  assert (Hbs : p_scheme b = chars "http" \/ p_scheme b = chars "https").
  { rewrite Eb. destruct Hb as [-> | ->]; auto. }
  destruct (http_scheme_facts _ Hbs) as (c & t & Hct & Ha & Hs & Hl & Hrel & Hclean).
  rewrite Hclean in Eu.
  destruct (negb (bool_decide (p_scheme u = p_scheme b))
            || negb (mem_str (p_scheme u) uses_relative)) eqn:Hcond.
  - injection H as <-. unfold absolute.
    destruct (url_scheme url); [discriminate|].
    rewrite Eu, Hrel, bool_decide_eq_true_2 in Hcond by reflexivity.
    discriminate.
  - apply orb_false_elim in Hcond as [Hsame _].
    apply negb_false_iff, bool_decide_eq_true_1 in Hsame.
    rewrite Hsame, Hct in H. unfold absolute.
    repeat case_match; simplify_eq; rewrite urlunparse_scheme; auto.
Qed.

End WithLibrary.

End JoinFacts.

Module ReferenceClaims.
Import Re Pos ReFacts Spec RefSpec Fetch RefFacts LineFacts JoinFacts.

Lemma mapM_ok {A B} (f : A -> result B) l bs :
  mapM f l = Ok bs -> Forall2 (fun a b => f a = Ok b) l bs.
Proof.
  revert bs. induction l as [|a l IH]; intros bs H; simpl in H.
  - injection H as <-. constructor.
  - unfold bind in H. destruct (f a) as [b|] eqn:Ea; [|discriminate].
    destruct (mapM f l) as [bs'|]; [|discriminate].
    injection H as <-. constructor; auto.
Qed.

Lemma mapM_all_ok {A B} (f : A -> result B) l :
  Forall (fun a => is_ok (f a) = true) l -> exists bs, mapM f l = Ok bs.
Proof.
  induction 1 as [|a l Ha _ [bs IH]]; simpl.
  - eexists; reflexivity.
  - unfold bind. destruct (f a); [|discriminate]. rewrite IH. eexists; reflexivity.
Qed.

Lemma mapM_raises {A B} (f : A -> result B) l a :
  In a l -> is_ok (f a) = false -> is_ok (mapM f l) = false.
Proof.
  induction l as [|x l IH]; intros Hin Ha; [destruct Hin|].
  destruct Hin as [->|Hin]; simpl; unfold bind.
  - destruct (f a); [discriminate|reflexivity].
  - destruct (f x); [|reflexivity].
    specialize (IH Hin Ha). destruct (mapM f l); [discriminate|reflexivity].
Qed.

Lemma split_join_lines ls :
  ls <> [] -> Forall no_newline ls ->
  Str.split Str.newline (join_lines ls) = ls.
Proof.
  intros Hne H. induction H as [|l ls Hl Hls IH]; [congruence|].
  destruct ls as [|l2 ls].
  - now apply split_last_line.
  - change (join_lines (l :: l2 :: ls))
      with (l ++ Str.newline :: join_lines (l2 :: ls)).
    rewrite split_line by assumption. f_equal. now apply IH.
Qed.

Lemma no_newline_m3u8 : no_newline (chars ".m3u8").
Proof. repeat constructor; discriminate. Qed.

Lemma no_newline_ts : no_newline (chars ".ts").
Proof. repeat constructor; discriminate. Qed.

Section WithLibrary.

Variable bhe : str -> option str.

Section Ext.

Variable ext : str.
Hypothesis ext_nonempty : ext <> [].
Hypothesis ext_no_newline : no_newline ext.

(** The references are the reference lines, each stripped and joined to
    the base. *)
Lemma find_references_lines content base :
  find_references bhe content base ext
  = mapM (resolve bhe base) (reference_lines ext content).
Proof using ext_nonempty ext_no_newline.
  unfold find_references. now rewrite findall_reference_lines.
Qed.

Lemma reference_lines_join ls :
  Forall no_newline ls ->
  reference_lines ext (join_lines ls) = List.filter (reference_line ext) ls.
Proof using ext_nonempty ext_no_newline.
  intros H. unfold reference_lines. destruct ls as [|l ls].
  - simpl. destruct (reference_line ext []) eqn:E; [|reflexivity].
    now apply reference_line_nonempty in E.
  - now rewrite split_join_lines.
Qed.

End Ext.

(** C2, as the code has it: a line whose first character is [#] never
    yields a reference, whatever follows the marker.  Taking the line out
    of the body changes nothing in what find_references returns. *)
Theorem hash_line_yields_nothing ext base before l after :
  ext <> [] -> no_newline ext ->
  Forall no_newline (before ++ l :: after) ->
  Str.startswith ["#"%char] l = true ->
  yields_nothing bhe ext base before l after.
Proof.
  intros Hne Hnl Hls Hhash. unfold yields_nothing.
  rewrite !find_references_lines by assumption.
  rewrite !reference_lines_join; try assumption.
  - rewrite !List.filter_app. cbn [List.filter].
    unfold reference_line at 2. now rewrite Hhash.
  - apply List.Forall_app in Hls as [Hb Ha]. inversion Ha; subst.
    apply List.Forall_app. now split.
Qed.

(** C1, as the code has it: when urljoin accepts every reference line,
    find_references returns one URL per reference line, in order, each
    the line stripped and resolved against the manifest's URL; with an
    http or https manifest URL they are all absolute. *)
Theorem find_references_exact content base :
  Forall (fun l => is_ok (resolve bhe base l) = true)
    (reference_lines (chars ".m3u8") content ++ reference_lines (chars ".ts") content) ->
  exists nested segments,
    find_references bhe content base (chars ".m3u8") = Ok nested
    /\ find_references bhe content base (chars ".ts") = Ok segments
    /\ length nested = length (reference_lines (chars ".m3u8") content)
    /\ length segments = length (reference_lines (chars ".ts") content)
    /\ Forall2 (fun l u => resolve bhe base l = Ok u)
         (reference_lines (chars ".m3u8") content) nested
    /\ Forall2 (fun l u => resolve bhe base l = Ok u)
         (reference_lines (chars ".ts") content) segments
    /\ (http_url base -> Forall absolute (nested ++ segments)).
Proof.
  intros H. apply List.Forall_app in H as [Hm Ht].
  destruct (mapM_all_ok _ _ Hm) as [nested En].
  destruct (mapM_all_ok _ _ Ht) as [segments Es].
  exists nested, segments.
  rewrite !find_references_lines by (discriminate || apply no_newline_m3u8 || apply no_newline_ts).
  pose proof (mapM_ok _ _ _ En) as Fn. pose proof (mapM_ok _ _ _ Es) as Fs.
  repeat split; auto.
  - symmetry. eapply Forall2_length; eauto.
  - symmetry. eapply Forall2_length; eauto.
  - intros Hb. apply List.Forall_app. split.
    + clear -Fn Hb. induction Fn; constructor; auto.
      eapply urljoin_absolute; eauto.
    + clear -Fs Hb. induction Fs; constructor; auto.
      eapply urljoin_absolute; eauto.
Qed.

(** One line that urljoin rejects makes find_references raise. *)
Lemma find_references_raises ext content base l :
  ext <> [] -> no_newline ext ->
  In l (reference_lines ext content) -> is_ok (resolve bhe base l) = false ->
  is_ok (find_references bhe content base ext) = false.
Proof.
  intros Hne Hnl Hin Hl. rewrite find_references_lines by assumption.
  eapply mapM_raises; eauto.
Qed.

End WithLibrary.

End ReferenceClaims.

Module ReferenceExamples.
Import Spec RefSpec Fetch Pos ReferenceClaims Samples.

(** Relative paths, absolute paths and query strings, resolved. *)
Example find_references_nested :
  find_references no_host_error sample_body sample_base (chars ".m3u8")
  = Ok [chars "https://x.test/a/v/1.m3u8"; chars "https://x.test/abs/2.m3u8?tok=1"].
Proof. vm_compute. reflexivity. Qed.

Example find_references_segments :
  find_references no_host_error sample_body sample_base (chars ".ts")
  = Ok [chars "https://x.test/a/seg0.ts"; chars "https://x.test/a/seg1.ts?tok=1"].
Proof. vm_compute. reflexivity. Qed.

Lemma find_references_exact_witness :
  exists nested segments,
    find_references no_host_error sample_body sample_base (chars ".m3u8") = Ok nested
    /\ find_references no_host_error sample_body sample_base (chars ".ts") = Ok segments
    /\ length nested = length (reference_lines (chars ".m3u8") sample_body)
    /\ length segments = length (reference_lines (chars ".ts") sample_body)
    /\ Forall2 (fun l u => resolve no_host_error sample_base l = Ok u)
         (reference_lines (chars ".m3u8") sample_body) nested
    /\ Forall2 (fun l u => resolve no_host_error sample_base l = Ok u)
         (reference_lines (chars ".ts") sample_body) segments
    /\ (http_url sample_base -> Forall absolute (nested ++ segments)).
Proof.
  apply (find_references_exact no_host_error sample_body sample_base).
  replace (reference_lines (chars ".m3u8") sample_body
           ++ reference_lines (chars ".ts") sample_body)
    with [chars "v/1.m3u8"; chars "/abs/2.m3u8?tok=1";
          chars "seg0.ts"; chars "seg1.ts?tok=1"]
    by (vm_compute; reflexivity).
  repeat constructor; vm_compute; reflexivity.
Defined.

(** C1 as worded fails: one line that urljoin rejects loses the valid
    reference next to it as well. *)
Lemma rejected_line_loses_all :
  ~ discovers_all no_host_error (chars ".m3u8") sample_base
      (join_lines [chars "v1.m3u8"; chars "//[v2.m3u8"]).
Proof.
  intros (urls & H & _). vm_compute in H. discriminate.
Qed.

Example rejected_line_raises :
  find_references no_host_error
    (join_lines [chars "v1.m3u8"; chars "//[v2.m3u8"]) sample_base (chars ".m3u8")
  = Raise (ValueError (chars "Invalid IPv6 URL")).
Proof. vm_compute. reflexivity. Qed.

Lemma hash_line_yields_nothing_witness :
  yields_nothing no_host_error (chars ".m3u8") sample_base
    [chars "#EXTM3U"; chars "v/1.m3u8"] (chars "#EXT-X-STREAM-INF:x.m3u8")
    [chars "seg0.ts"].
Proof.
  apply hash_line_yields_nothing.
  - discriminate.
  - apply no_newline_m3u8.
  - repeat constructor; discriminate.
  - reflexivity.
Defined.

(** C2 as worded fails: a marker behind leading white space does not stop
    the line from being taken for a reference. *)
Lemma indented_comment_yields_reference :
  comment_line (chars " #c.m3u8") = true
  /\ ~ yields_nothing no_host_error (chars ".m3u8") sample_base
         [] (chars " #c.m3u8") [].
Proof.
  split; [reflexivity|].
  unfold yields_nothing. vm_compute. discriminate.
Qed.

Example indented_comment_reference :
  find_references no_host_error (chars " #c.m3u8") sample_base (chars ".m3u8")
  = Ok [chars "https://x.test/a/master.m3u8#c.m3u8"].
Proof. vm_compute. reflexivity. Qed.

End ReferenceExamples.

Module ValidationClaims.
Import ValidSpec.

Section Fetch.
Import Fetch.

Variable bhe : str -> option str.
Variable fs : disk.
Variable http_get : str -> gmap str str -> result response.

(** C6: a request description without a manifest URL makes extract_url
    raise ValueError, and fetch_and_save_m3u8_and_ts raises before it has
    done anything: no request is sent, no file written, nothing printed. *)
Theorem invalid_url_no_network curl_command :
  no_manifest_url curl_command ->
  (exists msg, extract_url curl_command = Raise (ValueError msg))
  /\ forall fuel save_directory w,
       exists e,
         fetch_and_save_m3u8_and_ts bhe fs http_get fuel curl_command
           save_directory w = (Raise e, w).
Proof.
  unfold no_manifest_url. intros H.
  assert (Hurl : exists msg, extract_url curl_command = Raise (ValueError msg)).
  { unfold extract_url. destruct (Re.search url_pattern curl_command) as [m|].
    - rewrite H. simpl. eexists; reflexivity.
    - eexists; reflexivity. }
  split; [exact Hurl|].
  intros fuel save_directory w. destruct Hurl as [msg Hurl].
  unfold fetch_and_save_m3u8_and_ts, mbind, lift.
  destruct (extract_headers curl_command) as [headers|e].
  - rewrite Hurl. eexists; reflexivity.
  - eexists; reflexivity.
Qed.

End Fetch.

Section Upload.
Import Upload.

Variable os : Platform.os_path.
Variable getenv : str -> option str.
Variable boto3_client : str -> str -> result unit.
Variable upload_file : str -> str -> str -> result unit.
Variable listing : str -> option (list entry).

(** C8: with the access key, the secret key, the source directory or the
    bucket name missing, upload_directory_to_s3 prints one line, which
    names a value that is missing (the first of them, in the order access
    key, secret key, source directory, bucket name), and returns; it creates
    no client and uploads nothing: the line is the call's only event. *)
Theorem missing_value_fails_fast source_directory bucket_name key secret :
  (exists v,
     falsy (given getenv source_directory bucket_name key secret v) = true) ->
  exists v,
    falsy (given getenv source_directory bucket_name key secret v) = true
    /\ Forall (fun v' =>
                 falsy (given getenv source_directory bucket_name key secret v')
                 = false)
         (checked_before v)
    /\ upload_directory_to_s3 os getenv boto3_client upload_file listing
         source_directory bucket_name key secret
       = ([EPrint (chars "Error: Missing " ++ value_name v)], None).
Proof.
  intros [v0 H0].
  destruct (falsy (given getenv source_directory bucket_name key secret
                     AccessKey)) eqn:Hk.
  { exists AccessKey. split; [exact Hk|]. split; [constructor|].
    unfold upload_directory_to_s3. cbn [given] in Hk. unfold credential in Hk.
    now rewrite Hk. }
  destruct (falsy (given getenv source_directory bucket_name key secret
                     SecretKey)) eqn:Hs.
  { exists SecretKey. split; [exact Hs|]. split; [now repeat constructor|].
    unfold upload_directory_to_s3. cbn [given] in Hk, Hs.
    unfold credential in Hk, Hs. now rewrite Hk, Hs. }
  destruct (falsy (given getenv source_directory bucket_name key secret
                     SourceDirectory)) eqn:Hd.
  { exists SourceDirectory. split; [exact Hd|]. split; [now repeat constructor|].
    unfold upload_directory_to_s3. cbn [given] in Hk, Hs, Hd.
    unfold credential in Hk, Hs. now rewrite Hk, Hs, Hd. }
  destruct (falsy (given getenv source_directory bucket_name key secret
                     BucketName)) eqn:Hb.
  { exists BucketName. split; [exact Hb|]. split; [now repeat constructor|].
    unfold upload_directory_to_s3. cbn [given] in Hk, Hs, Hd, Hb.
    unfold credential in Hk, Hs. now rewrite Hk, Hs, Hd, Hb. }
  destruct v0; congruence.
Qed.

End Upload.

End ValidationClaims.

Module ValidationExamples.
Import ValidSpec ValidationClaims Samples.

Lemma invalid_url_no_network_witness :
  (exists msg,
     Fetch.extract_url (chars "curl 'https://x.test/master.mp4?x=.m3u8' -H 'A: b'")
     = Raise (ValueError msg))
  /\ forall fuel save_directory w,
       exists e,
         Fetch.fetch_and_save_m3u8_and_ts no_host_error plain_disk
           (fun _ _ => Ok (Fetch.Response 200 [])) fuel
           (chars "curl 'https://x.test/master.mp4?x=.m3u8' -H 'A: b'")
           save_directory w = (Raise e, w).
Proof.
  apply invalid_url_no_network. vm_compute. reflexivity.
Defined.

Lemma missing_value_fails_fast_witness :
  exists v,
    Upload.falsy (given (fun _ => None) (Some (chars "site")) None
             (Some (chars "AKIA")) None v) = true
    /\ Forall (fun v' =>
                 Upload.falsy (given (fun _ => None) (Some (chars "site")) None
                          (Some (chars "AKIA")) None v') = false)
         (checked_before v)
    /\ Upload.upload_directory_to_s3 (Platform.posix (chars "/home/u"))
         (fun _ => None) (fun _ _ => Ok tt) (fun _ _ _ => Ok tt)
         (fun _ => Some [])
         (Some (chars "site")) None (Some (chars "AKIA")) None
       = ([Upload.EPrint (chars "Error: Missing " ++ value_name v)], None).
Proof.
  apply missing_value_fails_fast. exists BucketName. reflexivity.
Defined.

(** The secret key and the bucket name both missing: the line names the
    secret key, which is checked first. *)
Example first_missing_value_is_named :
  Upload.upload_directory_to_s3 (Platform.posix (chars "/home/u"))
    (fun _ => None) (fun _ _ => Ok tt) (fun _ _ _ => Ok tt) (fun _ => Some [])
    (Some (chars "site")) None (Some (chars "AKIA")) None
  = ([Upload.EPrint (chars "Error: Missing AWS Secret Access Key")], None).
Proof. reflexivity. Qed.

End ValidationExamples.

Module FrameFacts.
Import Fetch LoopSpec LoopSpec2.

Lemma world_eta w : World (files w) (trace w) = w.
Proof. now destruct w. Qed.

Lemma framed_start {A} (m : M A) r F E :
  framed m r F E -> (m start).1 = r /\ files (m start).2 = F /\ trace (m start).2 = E.
Proof.
  intros H. rewrite (H start). simpl. repeat split.
  apply (right_id_L ∅ (∪)).
Qed.

(** A frameable computation does in any world what it does at the start. *)
Lemma frameable_start {A} (m : M A) :
  frameable m ->
  forall w, m w = ((m start).1,
                   World (files (m start).2 ∪ files w) (trace w ++ trace (m start).2)).
Proof.
  intros (r & F & E & H) w. destruct (framed_start m r F E H) as (-> & -> & ->).
  apply H.
Qed.

Lemma frameable_ret {A} (a : A) : frameable (ret a).
Proof.
  exists (Ok a), ∅, []. intros w. unfold ret.
  now rewrite (left_id_L ∅ (∪)), List.app_nil_r, world_eta.
Qed.

Lemma frameable_raise {A} e : frameable (@raise A e).
Proof.
  exists (Raise e), ∅, []. intros w. unfold raise.
  now rewrite (left_id_L ∅ (∪)), List.app_nil_r, world_eta.
Qed.

Lemma frameable_lift {A} (r : result A) : frameable (lift r).
Proof.
  exists r, ∅, []. intros w. unfold lift.
  now rewrite (left_id_L ∅ (∪)), List.app_nil_r, world_eta.
Qed.

Lemma frameable_emit e : frameable (emit e).
Proof.
  exists (Ok tt), ∅, [e]. intros w. unfold emit.
  now rewrite (left_id_L ∅ (∪)).
Qed.

Lemma frameable_write fs path data : frameable (write_file fs path data).
Proof.
  destruct (open_error fs path) as [e|] eqn:E.
  - exists (Raise e), ∅, []. intros w. unfold write_file. rewrite E.
    now rewrite (left_id_L ∅ (∪)), List.app_nil_r, world_eta.
  - exists (Ok tt), {[path := data]}, [EWrite path data]. intros w.
    unfold write_file. rewrite E. now rewrite insert_union_singleton_l.
Qed.

Lemma frameable_bind {A B} (m : M A) (f : A -> M B) :
  frameable m -> (forall a, frameable (f a)) -> frameable (mbind m f).
Proof.
  intros (r & F & E & Hm) Hf. destruct r as [a|e].
  - destruct (Hf a) as (r' & F' & E' & Hfa).
    exists r', (F' ∪ F), (E ++ E'). intros w. unfold mbind.
    rewrite Hm, Hfa. simpl.
    now rewrite (assoc_L (∪)), List.app_assoc.
  - exists (Raise e), F, E. intros w. unfold mbind. now rewrite Hm.
Qed.

Lemma frameable_try {A} (body : M A) handler :
  frameable body -> (forall e, frameable (handler e)) ->
  frameable (try_except body handler).
Proof.
  intros (r & F & E & Hm) Hh. destruct r as [a|e].
  - exists (Ok a), F, E. intros w. unfold try_except. now rewrite Hm.
  - destruct (Hh e) as (r' & F' & E' & Hhe).
    exists r', (F' ∪ F), (E ++ E'). intros w. unfold try_except.
    rewrite Hm, Hhe. simpl.
    now rewrite (assoc_L (∪)), List.app_assoc.
Qed.

Lemma frameable_makedirs fs path : frameable (makedirs fs path).
Proof.
  destruct path; [apply frameable_raise|]. unfold makedirs.
  destruct (makedirs_error fs _); [apply frameable_raise|apply frameable_emit].
Qed.

Lemma frameable_print line : frameable (print line).
Proof. apply frameable_emit. Qed.

Create HintDb frame.

#[export] Hint Resolve frameable_ret frameable_raise frameable_lift
  frameable_emit frameable_write frameable_makedirs frameable_print : frame.

Ltac frame :=
  repeat first
    [ apply frameable_try; [|intros ?]
    | apply frameable_bind; [|intros ?]
    | progress auto with frame
    | match goal with |- frameable (if ?c then _ else _) => destruct c end
    | match goal with |- frameable (match ?c with _ => _ end) => destruct c end ].

Section WithRun.

Variable bhe : str -> option str.
Variable fs : disk.
Variable http_get : str -> gmap str str -> result response.
Variable headers : gmap str str.
Variable save_directory : str.

Lemma frameable_requests_get url stream :
  frameable (requests_get http_get url headers stream).
Proof. unfold requests_get. frame. Qed.

Lemma frameable_fetch_file url : frameable (fetch_file http_get url headers).
Proof. unfold fetch_file. frame; apply frameable_requests_get. Qed.

Lemma frameable_download_file url path :
  frameable (download_file fs http_get url headers path).
Proof. unfold download_file. frame; apply frameable_requests_get. Qed.

Lemma frameable_manifest_body u ms ts :
  frameable (manifest_body bhe fs http_get headers save_directory u ms ts).
Proof. unfold manifest_body. frame; apply frameable_fetch_file. Qed.

Lemma frameable_segment_body u :
  frameable (segment_body bhe fs http_get headers save_directory u).
Proof. unfold segment_body. frame; apply frameable_download_file. Qed.

End WithRun.

End FrameFacts.

Module BodyFacts.
Import Fetch LoopSpec LoopSpec2 FrameFacts.

Ltac unfold_run :=
  unfold manifest_body, segment_body, download_file, fetch_file, requests_get,
    try_except, mbind, lift, makedirs, write_file, print, emit, ret, raise.

Section WithRun.

Variable bhe : str -> option str.
Variable fs : disk.
Variable http_get : str -> gmap str str -> result response.
Variable headers : gmap str str.
Variable save_directory : str.

Local Abbreviation manifest_body := (manifest_body bhe fs http_get headers save_directory).
Local Abbreviation segment_body := (segment_body bhe fs http_get headers save_directory).
Local Abbreviation nested := (nested bhe fs http_get headers save_directory).
Local Abbreviation segments := (segments bhe fs http_get headers save_directory).
Local Abbreviation manifest_events := (manifest_events bhe fs http_get headers save_directory).
Local Abbreviation segment_events := (segment_events bhe fs http_get headers save_directory).

(** The body of the first loop never raises, and what it appends does
    not depend on the lists it appends to. *)
Lemma manifest_body_lists u ms ts w :
  exists a b w',
    manifest_body u [] [] w = (Ok (a, b), w')
    /\ manifest_body u ms ts w = (Ok (ms ++ a, ts ++ b), w').
Proof.
  unfold_run.
  destruct (http_get u headers) as [resp|e]; simpl.
  2:{ eexists [], [], _. rewrite !List.app_nil_r. split; reflexivity. }
  destruct (status_code resp =? 200)%Z; simpl.
  2:{ eexists [], [], _. rewrite !List.app_nil_r. split; reflexivity. }
  destruct (get_filename_from_url bhe u) as [name|e]; simpl.
  2:{ eexists [], [], _. rewrite !List.app_nil_r. split; reflexivity. }
  destruct (OsPath.dirname _); simpl.
  { eexists [], [], _. rewrite !List.app_nil_r. split; reflexivity. }
  destruct (makedirs_error fs _); simpl.
  { eexists [], [], _. rewrite !List.app_nil_r. split; reflexivity. }
  destruct (open_error fs _); simpl.
  { eexists [], [], _. rewrite !List.app_nil_r. split; reflexivity. }
  destruct (find_references bhe (text resp) u _) as [r1|e]; simpl.
  2:{ eexists [], [], _. rewrite !List.app_nil_r. split; reflexivity. }
  destruct (find_references bhe (text resp) u _) as [r2|e]; simpl.
  2:{ eexists [], [], _. rewrite !List.app_nil_r. split; reflexivity. }
  eexists r1, r2, _. split; reflexivity.
Qed.

(** One pass of the first loop's body, in any world. *)
Lemma manifest_body_run u ms ts w :
  exists F,
    manifest_body u ms ts w
    = (Ok (ms ++ nested u, ts ++ segments u),
       World (F ∪ files w) (trace w ++ manifest_events u)).
Proof.
  destruct (manifest_body_lists u ms ts w) as (a & b & w' & H0 & H).
  destruct (manifest_body_lists u [] [] start) as (a0 & b0 & w0 & Hs & _).
  pose proof (frameable_start _ (frameable_manifest_body bhe fs http_get headers
                                   save_directory u [] []) w) as Hf.
  rewrite H0 in Hf. unfold nested, segments, discovered, manifest_events.
  rewrite Hs in *. simpl in *. injection Hf as -> -> ->.
  rewrite H. eexists. reflexivity.
Qed.

Lemma segment_body_run u w :
  exists F,
    segment_body u w
    = (Ok tt, World (F ∪ files w) (trace w ++ segment_events u)).
Proof.
  pose proof (frameable_start _ (frameable_segment_body bhe fs http_get headers
                                   save_directory u) w) as Hf.
  rewrite Hf. unfold segment_events. eexists. f_equal.
  generalize start. intros w0. unfold_run.
  destruct (get_filename_from_url bhe u); simpl; [|reflexivity].
  destruct (http_get u headers) as [resp|e]; simpl; [|reflexivity].
  destruct (status_code resp =? 200)%Z; simpl; [|reflexivity].
  destruct (OsPath.dirname _); [reflexivity|].
  destruct (makedirs_error fs _); simpl; [reflexivity|].
  destruct (open_error fs _); reflexivity.
Qed.

(** A pass of the first loop sends exactly one request, the manifest's,
    and never a segment's. *)
Lemma manifest_events_gets u :
  manifest_gets (manifest_events u) = [u]
  /\ segment_gets (manifest_events u) = [].
Proof.
  unfold manifest_events. unfold_run. simpl.
  destruct (http_get u headers) as [resp|e]; simpl; [|now split].
  destruct (status_code resp =? 200)%Z; simpl; [|now split].
  destruct (get_filename_from_url bhe u) as [name|e]; simpl; [|now split].
  destruct (OsPath.dirname _); simpl; [now split|].
  destruct (makedirs_error fs _); simpl; [now split|].
  destruct (open_error fs _); simpl; [now split|].
  destruct (find_references bhe (text resp) u _); simpl; [|now split].
  destruct (find_references bhe (text resp) u _); simpl; now split.
Qed.

(** A pass of the second loop requests no manifest. *)
Lemma segment_events_gets u : manifest_gets (segment_events u) = [].
Proof.
  unfold segment_events. unfold_run. simpl.
  destruct (get_filename_from_url bhe u); simpl; [|reflexivity].
  destruct (http_get u headers) as [resp|e]; simpl; [|reflexivity].
  destruct (status_code resp =? 200)%Z; simpl; [|reflexivity].
  destruct (OsPath.dirname _); [reflexivity|].
  destruct (makedirs_error fs _); simpl; [reflexivity|].
  destruct (open_error fs _); reflexivity.
Qed.

End WithRun.

End BodyFacts.

Module LoopFacts.
Import Fetch LoopSpec LoopSpec2 FrameFacts BodyFacts.

Lemma manifest_gets_app t1 t2 :
  manifest_gets (t1 ++ t2) = manifest_gets t1 ++ manifest_gets t2.
Proof. apply List.flat_map_app. Qed.

Lemma segment_gets_app t1 t2 :
  segment_gets (t1 ++ t2) = segment_gets t1 ++ segment_gets t2.
Proof. apply List.flat_map_app. Qed.

Section WithRun.

Variable bhe : str -> option str.
Variable fs : disk.
Variable http_get : str -> gmap str str -> result response.
Variable headers : gmap str str.
Variable save_directory : str.

Local Abbreviation manifest_loop := (manifest_loop bhe fs http_get headers save_directory).
Local Abbreviation segment_loop := (segment_loop bhe fs http_get headers save_directory).
Local Abbreviation nested := (nested bhe fs http_get headers save_directory).
Local Abbreviation segments := (segments bhe fs http_get headers save_directory).
Local Abbreviation drain := (drain bhe fs http_get headers save_directory).
Local Abbreviation visited := (visited bhe fs http_get headers save_directory).
Local Abbreviation manifest_events := (manifest_events bhe fs http_get headers save_directory).
Local Abbreviation segment_events := (segment_events bhe fs http_get headers save_directory).

(** The first loop computes [drain]; its requests are the manifests it
    visits, one each and in order, and no segment's. *)
Lemma manifest_loop_run fuel : forall i ms ts w,
  exists F E,
    manifest_loop fuel i ms ts w
    = (Ok (drain fuel i ms ts), World (F ∪ files w) (trace w ++ E))
    /\ manifest_gets E = visited fuel i ms
    /\ segment_gets E = [].
Proof.
  induction fuel as [|fuel IH]; intros i ms ts w; simpl;
    destruct (nth_error ms i) as [u|] eqn:Hu;
    try (exists ∅, []; unfold ret;
         rewrite (left_id_L ∅ (∪)), List.app_nil_r, world_eta; now repeat split).
  unfold mbind.
  destruct (manifest_body_run bhe fs http_get headers save_directory u ms ts w)
    as [F1 ->].
  cbn [fst snd].
  destruct (IH (S i) (ms ++ nested u) (ts ++ segments u)
              (World (F1 ∪ files w) (trace w ++ manifest_events u)))
    as (F2 & E2 & -> & Hm & Hs).
  exists (F2 ∪ F1), (manifest_events u ++ E2). cbn [files trace].
  rewrite (assoc_L (∪)), List.app_assoc. split; [reflexivity|].
  rewrite manifest_gets_app, segment_gets_app, Hm, Hs.
  destruct (manifest_events_gets bhe fs http_get headers save_directory u) as [-> ->].
  now split.
Qed.

(** The second loop runs its body on every segment URL, in order. *)
Lemma segment_loop_run ts : forall w,
  exists F,
    segment_loop ts w
    = (Ok tt, World (F ∪ files w)
                (trace w ++ concat (map segment_events ts))).
Proof.
  induction ts as [|u ts IH]; intros w; simpl.
  - exists ∅. unfold ret.
    now rewrite (left_id_L ∅ (∪)), List.app_nil_r, world_eta.
  - unfold mbind.
    destruct (segment_body_run bhe fs http_get headers save_directory u w) as [F1 ->].
    destruct (IH (World (F1 ∪ files w) (trace w ++ segment_events u))) as [F2 ->].
    exists (F2 ∪ F1). cbn [files trace].
    now rewrite (assoc_L (∪)), List.app_assoc.
Qed.

Lemma manifest_gets_segments ts :
  manifest_gets (concat (map segment_events ts)) = [].
Proof.
  induction ts as [|u ts IH]; simpl; [reflexivity|].
  now rewrite manifest_gets_app, IH, segment_events_gets.
Qed.

Lemma drain_extends fuel : forall i ms ts ms' ts',
  drain fuel i ms ts = Some (ms', ts') ->
  exists x y, ms' = ms ++ x /\ ts' = ts ++ y.
Proof.
  induction fuel as [|fuel IH]; intros i ms ts ms' ts' H; simpl in H;
    destruct (nth_error ms i) as [u|] eqn:Hu; try discriminate;
    try (injection H as <- <-; exists [], []; now rewrite !List.app_nil_r).
  apply IH in H as (x & y & -> & ->).
  exists (nested u ++ x), (segments u ++ y). now rewrite !List.app_assoc.
Qed.

(** When the first loop ends, the queue holds, after what it started
    with, the references of every manifest from position [i] on, and the
    segment list their segments. *)
Lemma drain_closed fuel : forall i ms ts ms' ts',
  drain fuel i ms ts = Some (ms', ts') ->
  ms' = ms ++ concat (map nested (skipn i ms'))
  /\ ts' = ts ++ concat (map segments (skipn i ms')).
Proof.
  induction fuel as [|fuel IH]; intros i ms ts ms' ts' H; simpl in H;
    destruct (nth_error ms i) as [u|] eqn:Hu; try discriminate;
    try (injection H as <- <-; apply nth_error_None in Hu;
         rewrite List.skipn_all2 by exact Hu; simpl;
         now rewrite !List.app_nil_r).
  pose proof (drain_extends _ _ _ _ _ _ H) as (x & y & Hx & _).
  apply IH in H as [Hm Ht].
  assert (Hi : skipn i ms' = u :: skipn (S i) ms').
  { assert (Hn : nth_error ms' i = Some u).
    { rewrite Hx, <- List.app_assoc, List.nth_error_app1; [exact Hu|].
      apply nth_error_Some. congruence. }
    clear -Hn. revert i Hn. induction ms' as [|a l IHl]; intros [|i] Hn;
      simpl in *; try discriminate.
    - now injection Hn as ->.
    - now apply IHl. }
  rewrite Hi. simpl. rewrite !List.app_assoc. now split.
Qed.

Lemma visited_drain fuel : forall i ms ts ms' ts',
  drain fuel i ms ts = Some (ms', ts') -> visited fuel i ms = skipn i ms'.
Proof.
  induction fuel as [|fuel IH]; intros i ms ts ms' ts' H; simpl in *;
    destruct (nth_error ms i) as [u|] eqn:Hu; try discriminate;
    try (injection H as <- <-; apply nth_error_None in Hu;
         now rewrite List.skipn_all2 by exact Hu).
  pose proof (drain_extends _ _ _ _ _ _ H) as (x & y & Hx & _).
  rewrite (IH _ _ _ _ _ H).
  assert (Hn : nth_error ms' i = Some u).
  { rewrite Hx, <- List.app_assoc, List.nth_error_app1; [exact Hu|].
    apply nth_error_Some. congruence. }
  clear -Hn. revert i Hn. induction ms' as [|a l IHl]; intros [|i] Hn;
    simpl in *; try discriminate.
  - now injection Hn as ->.
  - now apply IHl.
Qed.

End WithRun.

End LoopFacts.

Module GraphFacts.
Import Fetch LoopSpec LoopSpec2 FrameFacts BodyFacts LoopFacts.
Import Relation_Operators.

Lemma forall2_exists {A B} (P : A -> B -> Prop) l :
  (forall a, In a l -> exists b, P a b) -> exists bs, Forall2 P l bs.
Proof.
  induction l as [|a l IH]; intros H.
  - exists []. constructor.
  - destruct (H a) as [b Hb]; [now left|].
    destruct IH as [bs Hbs]; [intros; apply H; now right|].
    exists (b :: bs). now constructor.
Qed.

Lemma acc_irreflexive {A} (R : A -> A -> Prop) x : Acc R x -> ~ R x x.
Proof. induction 1 as [x _ IH]. intros H. exact (IH x H H). Qed.

Section WithRun.

Variable bhe : str -> option str.
Variable fs : disk.
Variable http_get : str -> gmap str str -> result response.
Variable headers : gmap str str.
Variable save_directory : str.

Local Abbreviation nested := (nested bhe fs http_get headers save_directory).
Local Abbreviation segments := (segments bhe fs http_get headers save_directory).
Local Abbreviation drain := (drain bhe fs http_get headers save_directory).
Local Abbreviation child := (child bhe fs http_get headers save_directory).
Local Abbreviation reachable := (reachable bhe fs http_get headers save_directory).
Local Abbreviation on_cycle := (on_cycle bhe fs http_get headers save_directory).
Local Abbreviation tree_size := (tree_size bhe fs http_get headers save_directory).
Local Abbreviation finite_acyclic := (finite_acyclic bhe fs http_get headers save_directory).
Local Abbreviation cyclic := (cyclic bhe fs http_get headers save_directory).

(** In a finite graph without cycles every chain of references ends. *)
Lemma acc_below nodes root :
  (forall v, reachable root v -> In v nodes) ->
  (forall v, reachable root v -> ~ on_cycle v) ->
  forall k anc u,
    length nodes - length anc <= k ->
    List.NoDup anc -> (forall a, In a anc -> In a nodes) ->
    (forall a, In a anc -> clos_refl_trans str child u a) ->
    reachable root u ->
    Acc child u.
Proof.
  intros Hfin Hacyc. induction k as [|k IH]; intros anc u Hk Hnd Hin Hanc Hu;
    constructor; intros v Hv.
  all: assert (Hrv : reachable root v)
    by (eapply rt_trans; [exact Hu|apply rt_step; exact Hv]).
  all: assert (Hnv : ~ In v anc).
  1,3: intros Hvin; apply (Hacyc u Hu);
       apply Operators_Properties.clos_rt_t with v;
       [apply Hanc, Hvin|apply t_step, Hv].
  all: assert (Hnd' : List.NoDup (v :: anc)) by (constructor; assumption).
  all: assert (Hlen : length (v :: anc) <= length nodes)
    by (apply List.NoDup_incl_length; [exact Hnd'|];
        intros a [<-|Ha]; [apply Hfin, Hrv|apply Hin, Ha]).
  all: simpl in Hlen.
  - lia.
  - apply (IH (v :: anc)); auto.
    + simpl. lia.
    + intros a [<-|Ha]; [apply Hfin, Hrv|apply Hin, Ha].
    + intros a [<-|Ha]; [apply rt_refl|].
      eapply rt_trans; [apply rt_step, Hv|apply Hanc, Ha].
Qed.

Lemma acc_of_finite_acyclic root : finite_acyclic root -> Acc child root.
Proof.
  intros [[nodes Hfin] Hacyc].
  apply (acc_below nodes root Hfin Hacyc (length nodes) [] root).
  - lia.
  - constructor.
  - intros a [].
  - intros a [].
  - apply rt_refl.
Qed.

Lemma tree_size_of_acc u : Acc child u -> exists n, tree_size u n.
Proof.
  induction 1 as [u _ IH].
  destruct (forall2_exists tree_size (nested u)) as [ns Hns].
  - intros v Hv. apply IH, Hv.
  - exists (S (list_sum ns)). now constructor.
Qed.

(** The first loop takes as many passes as the trees below the pending
    manifests have nodes. *)
Lemma drain_terminates N : forall pending sizes pre ts,
  Forall2 tree_size pending sizes -> list_sum sizes = N ->
  exists q, drain N (length pre) (pre ++ pending) ts = Some q.
Proof.
  induction N as [|N IH]; intros pending sizes pre ts Hs HN;
    destruct Hs as [|u n pending sizes Hu Hs].
  - simpl. rewrite List.app_nil_r.
    rewrite (proj2 (nth_error_None pre (length pre))) by lia. eauto.
  - inversion Hu; subst. simpl in HN. lia.
  - simpl. rewrite List.app_nil_r.
    rewrite (proj2 (nth_error_None pre (length pre))) by lia. eauto.
  - inversion Hu as [u' ns Hns]; subst. simpl in HN. injection HN as HN.
    cbn [LoopSpec.drain].
    rewrite List.nth_error_app2, Nat.sub_diag by lia. cbn [nth_error].
    replace (S (length pre)) with (length (pre ++ [u]))
      by (rewrite List.length_app; simpl; lia).
    replace ((pre ++ u :: pending) ++ nested u)
      with ((pre ++ [u]) ++ (pending ++ nested u))
      by (rewrite <- !List.app_assoc; reflexivity).
    apply (IH (pending ++ nested u) (sizes ++ ns)).
    + apply List.Forall2_app; assumption.
    + rewrite list_sum_app. lia.
Qed.

(** If the first loop ends, no pending manifest starts an endless chain. *)
Lemma drain_acc fuel : forall i ms ts q,
  drain fuel i ms ts = Some q -> List.Forall (Acc child) (skipn i ms).
Proof.
  induction fuel as [|fuel IH]; intros i ms ts q H; simpl in H;
    destruct (nth_error ms i) as [u|] eqn:Hu; try discriminate;
    try (apply nth_error_None in Hu; rewrite List.skipn_all2 by exact Hu;
         constructor).
  apply IH in H.
  assert (Hlt : i < length ms) by (apply nth_error_Some; congruence).
  rewrite List.skipn_app in H.
  replace (S i - length ms) with 0 in H by lia. simpl skipn at 2 in H.
  apply List.Forall_app in H as [Hrest Hkids].
  assert (Hi : skipn i ms = u :: skipn (S i) ms).
  { clear -Hu. revert i Hu. induction ms as [|a l IHl]; intros [|i] Hn;
      simpl in *; try discriminate.
    - now injection Hn as ->.
    - now apply IHl. }
  rewrite Hi. constructor; [|exact Hrest].
  constructor. intros v Hv. rewrite List.Forall_forall in Hkids.
  apply Hkids, Hv.
Qed.

Lemma acc_reachable root v : Acc child root -> reachable root v -> Acc child v.
Proof.
  intros Hacc Hr. apply Operators_Properties.clos_rt_rt1n in Hr.
  induction Hr as [|a b c Hab _ IH]; [exact Hacc|].
  apply IH. apply (Acc_inv Hacc). exact Hab.
Qed.

Lemma acc_not_on_cycle v : Acc child v -> ~ on_cycle v.
Proof.
  intros Hacc. apply (Acc_clos_trans _ child) in Hacc.
  unfold LoopSpec.on_cycle. exact (acc_irreflexive _ _ Hacc).
Qed.

End WithRun.

End GraphFacts.

Module PhaseFacts.
Import Fetch LoopSpec LoopSpec2 FrameFacts BodyFacts LoopFacts GraphFacts.

Section WithNetwork.

Variable bhe : str -> option str.
Variable fs : disk.
Variable http_get : str -> gmap str str -> result response.
Variable headers : gmap str str.
Variable save_directory : str.

Local Abbreviation nested := (nested bhe fs http_get headers save_directory).
Local Abbreviation segments := (segments bhe fs http_get headers save_directory).
Local Abbreviation drain := (drain bhe fs http_get headers save_directory).
Local Abbreviation visited := (visited bhe fs http_get headers save_directory).
Local Abbreviation segment_events := (segment_events bhe fs http_get headers save_directory).

(** A loop that runs out of passes has spent every one of them on a
    manifest, and the next position of the queue still holds one. *)
Lemma drain_none fuel : forall i ms ts,
  drain fuel i ms ts = None ->
  length (visited fuel i ms) = fuel
  /\ exists u,
       nth_error (ms ++ concat (map nested (visited fuel i ms))) (i + fuel)
       = Some u.
Proof.
  induction fuel as [|fuel IH]; intros i ms ts H; simpl in *;
    destruct (nth_error ms i) as [u|] eqn:Hu; try discriminate.
  - split; [reflexivity|]. exists u.
    now rewrite List.app_nil_r, Nat.add_0_r.
  - apply IH in H as [Hl (u' & Hn)]. cbn [length map concat].
    split; [now rewrite Hl|]. exists u'.
    now rewrite List.app_assoc, <- plus_n_Sm.
Qed.

(** More passes than needed change nothing. *)
Lemma drain_more fuel : forall i ms ts q k,
  drain fuel i ms ts = Some q -> drain (fuel + k) i ms ts = Some q.
Proof.
  induction fuel as [|fuel IH]; intros i ms ts q k H; simpl in H.
  - destruct (nth_error ms i) as [u|] eqn:Hu; [discriminate|].
    destruct k; simpl; now rewrite Hu.
  - simpl. destruct (nth_error ms i) as [u|] eqn:Hu; [|exact H].
    now apply IH.
Qed.

(** A run whose request description is accepted never raises; its trace
    splits into the manifests' part and the segments' part. *)
Lemma run_split fuel curl_command root w :
  extract_headers curl_command = Ok headers ->
  extract_url curl_command = Ok root ->
  exists r w' t1 t2,
    fetch_and_save_m3u8_and_ts bhe fs http_get fuel curl_command save_directory w
    = (Ok r, w')
    /\ trace w' = trace w ++ t1 ++ t2
    /\ segment_gets t1 = []
    /\ manifest_gets t2 = []
    /\ match r with
       | OutOfFuel =>
           t2 = []
           /\ length (manifest_gets t1) = fuel
           /\ exists u,
                nth_error (root :: concat (map nested (manifest_gets t1))) fuel
                = Some u
       | Returned =>
           exists m3u8_files ts_files,
             manifest_gets t1 = m3u8_files
             /\ m3u8_files = root :: concat (map nested m3u8_files)
             /\ ts_files = concat (map segments m3u8_files)
             /\ t2 = concat (map segment_events ts_files)
       end.
Proof.
  intros Hh Hu. unfold fetch_and_save_m3u8_and_ts, mbind, lift.
  rewrite Hh, Hu.
  destruct (manifest_loop_run bhe fs http_get headers save_directory fuel 0 [root] [] w)
    as (F1 & E1 & -> & Hm & Hs).
  destruct (drain fuel 0 [root] []) as [[ms ts]|] eqn:Hd.
  - destruct (segment_loop_run bhe fs http_get headers save_directory ts
                (World (F1 ∪ files w) (trace w ++ E1))) as [F2 ->].
    eexists Returned, _, E1, _. cbn [trace]. split; [reflexivity|].
    rewrite <- List.app_assoc. split; [reflexivity|].
    split; [exact Hs|]. split; [apply manifest_gets_segments|].
    exists ms, ts.
    rewrite Hm, (visited_drain _ _ _ _ _ _ _ _ _ _ _ Hd).
    destruct (drain_closed _ _ _ _ _ _ _ _ _ _ _ Hd) as [Hms Hts].
    simpl skipn in *. repeat split; assumption.
  - eexists OutOfFuel, _, E1, []. unfold ret. cbn [trace].
    rewrite List.app_nil_r. apply drain_none in Hd as [Hl Hn].
    rewrite Hm. repeat split; assumption.
Qed.

(** With a finite graph of references free of cycles, every run with
    enough passes returns. *)
Lemma run_returns curl_command root :
  extract_headers curl_command = Ok headers ->
  extract_url curl_command = Ok root ->
  finite_acyclic bhe fs http_get headers save_directory root ->
  exists enough, forall fuel w,
    enough <= fuel ->
    (fetch_and_save_m3u8_and_ts bhe fs http_get fuel curl_command
       save_directory w).1 = Ok Returned.
Proof.
  intros Hh Hu Hfa.
  apply acc_of_finite_acyclic, tree_size_of_acc in Hfa as [n Hn].
  destruct (drain_terminates bhe fs http_get headers save_directory
              (list_sum [n]) [root] [n] [] []) as [[ms ts] Hq];
    [repeat constructor; exact Hn|reflexivity|].
  exists (list_sum [n]). intros fuel w Hle.
  replace fuel with (list_sum [n] + (fuel - list_sum [n])) by lia.
  unfold fetch_and_save_m3u8_and_ts, mbind, lift. rewrite Hh, Hu.
  destruct (manifest_loop_run bhe fs http_get headers save_directory
              (list_sum [n] + (fuel - list_sum [n])) 0 [root] [] w)
    as (F1 & E1 & -> & _).
  cbn [length app] in Hq. rewrite (drain_more _ _ _ _ _ _ Hq).
  destruct (segment_loop_run bhe fs http_get headers save_directory ts
              (World (F1 ∪ files w) (trace w ++ E1))) as [F2 ->].
  reflexivity.
Qed.

End WithNetwork.

End PhaseFacts.

Module LoopClaims.
Import Fetch LoopSpec LoopSpec2 FrameFacts BodyFacts LoopFacts GraphFacts.
Import PhaseFacts.
Import Relation_Operators.

Section WithNetwork.

Variable bhe : str -> option str.
Variable fs : disk.
Variable http_get : str -> gmap str str -> result response.




End WithNetwork.

End LoopClaims.

Module LoopExamples.
Import Fetch LoopSpec LoopSpec2 GraphFacts LoopClaims Samples Web Defaults.
Import Relation_Operators.


(** The run on the sample site: both variants are requested although the
    second is missing, then the one segment. *)
Example site_requests :
  let w := (fetch_and_save_m3u8_and_ts no_host_error plain_disk site 10 command downloads
              start).2 in
  manifest_gets (trace w) = [master; variant1; variant2]
  /\ segment_gets (trace w) = [seg0]
  /\ map fst (map_to_list (files w))
     ≡ₚ [chars "downloads/master.m3u8"; chars "downloads/variant1.m3u8";
         chars "downloads/seg0.ts"].
Proof.
  vm_compute. repeat split.
  apply NoDup_Permutation.
  - repeat constructor; rewrite ?list_elem_of_In; simpl; intuition discriminate.
  - repeat constructor; rewrite ?list_elem_of_In; simpl; intuition discriminate.
  - intros x. rewrite !list_elem_of_In. simpl. tauto.
Qed.


Lemma site_nodes v :
  reachable no_host_error plain_disk site auth downloads master v ->
  In v [master; variant1; variant2].
Proof.
  intros H. apply Operators_Properties.clos_rt_rtn1 in H.
  induction H as [|y z Hyz _ IH]; [now left|].
  unfold child in Hyz. destruct IH as [<-|[<-|[<-|[]]]]; vm_compute in Hyz;
    intuition (subst; simpl; auto).
Qed.

Lemma site_finite_acyclic :
  finite_acyclic no_host_error plain_disk site auth downloads master.
Proof.
  assert (H1 : Acc (child no_host_error plain_disk site auth downloads) variant1).
  { constructor. intros z Hz. vm_compute in Hz. destruct Hz. }
  assert (H2 : Acc (child no_host_error plain_disk site auth downloads) variant2).
  { constructor. intros z Hz. vm_compute in Hz. destruct Hz. }
  assert (H0 : Acc (child no_host_error plain_disk site auth downloads) master).
  { constructor. intros z Hz. vm_compute in Hz.
    destruct Hz as [<-|[<-|[]]]; assumption. }
  split.
  - exists [master; variant1; variant2]. apply site_nodes.
  - intros v Hv. apply acc_not_on_cycle.
    destruct (site_nodes v Hv) as [<-|[<-|[<-|[]]]]; assumption.
Qed.

Lemma looping_cyclic : cyclic no_host_error plain_disk looping auth downloads master.
Proof.
  exists master. split; [apply rt_refl|].
  apply t_step. vm_compute. now left.
Qed.


End LoopExamples.

Module PathFacts.
Import UrlParse OsPath.

Lemma break_at_split f s a b :
  break_at f s = (a, b) ->
  s = a ++ b /\ forallb (fun c => negb (f c)) a = true
  /\ match b with [] => True | c :: _ => f c = true end.
Proof.
  revert a b. induction s as [|c s IH]; intros a b H; simpl in H.
  - injection H as <- <-. now repeat split.
  - destruct (f c) eqn:Hc.
    + injection H as <- <-. now repeat split.
    + destruct (break_at f s) as [a' b'] eqn:E. injection H as <- <-.
      destruct (IH a' b' eq_refl) as (-> & Ha & Hb).
      simpl. rewrite Hc. now repeat split.
Qed.

Lemma existsb_rev {A} (f : A -> bool) l : existsb f (rev l) = existsb f l.
Proof.
  induction l as [|a l IH]; simpl; [reflexivity|].
  rewrite List.existsb_app, IH. simpl. rewrite orb_false_r. apply orb_comm.
Qed.

(** [rcut] splits right after the last separator. *)
Lemma rcut_some c s head tail :
  rcut c s = Some (head, tail) ->
  s = head ++ tail /\ (exists h, head = h ++ [c]) /\ Str.contains c tail = false.
Proof.
  unfold rcut. destruct (break_at (Ascii.eqb c) (rev s)) as [b a] eqn:E.
  destruct a as [|c' a']; [discriminate|]. intros H. injection H as <- <-.
  destruct (break_at_split _ _ _ _ E) as (Hs & Hb & Hc).
  apply Ascii.eqb_eq in Hc. subst c'. repeat split.
  - rewrite <- (List.rev_involutive s), Hs, List.rev_app_distr. reflexivity.
  - exists (rev a'). reflexivity.
  - unfold Str.contains. rewrite existsb_rev.
    clear -Hb. induction b as [|x b IH]; simpl in *; [reflexivity|].
    apply andb_prop in Hb as [Hx Hb]. apply negb_true_iff in Hx.
    now rewrite Hx, IH.
Qed.

Lemma rcut_none c s : rcut c s = None -> Str.contains c s = false.
Proof.
  unfold rcut. destruct (break_at (Ascii.eqb c) (rev s)) as [b a] eqn:E.
  destruct a as [|c' a']; [|discriminate]. intros _.
  destruct (break_at_split _ _ _ _ E) as (Hs & Hb & _).
  rewrite List.app_nil_r in Hs. subst b.
  unfold Str.contains. rewrite <- (List.rev_involutive s), existsb_rev.
  clear -Hb. induction (rev s) as [|x b IH]; simpl in *; [reflexivity|].
  apply andb_prop in Hb as [Hx Hb]. apply negb_true_iff in Hx.
  now rewrite Hx, IH.
Qed.

Lemma lstrip_by_nil f s : Str.lstrip_by f s = [] -> forallb f s = true.
Proof.
  induction s as [|c s IH]; simpl; [reflexivity|].
  destruct (f c); [exact IH|discriminate].
Qed.

Lemma forallb_rev {A} (f : A -> bool) l : forallb f (rev l) = forallb f l.
Proof.
  induction l as [|a l IH]; simpl; [reflexivity|].
  rewrite List.forallb_app, IH. simpl. rewrite andb_true_r. apply andb_comm.
Qed.

(** A path with a separator in it has a directory part. *)
Lemma dirname_nonempty p :
  Str.contains sep p = true -> dirname p <> [].
Proof.
  intros Hc. unfold dirname.
  destruct (rcut sep p) as [[head tail]|] eqn:E.
  - destruct (rcut_some _ _ _ _ E) as (_ & [h ->] & _).
    destruct (nonempty (h ++ [sep]) && negb (forallb (Ascii.eqb sep) (h ++ [sep]))) eqn:Hb.
    + apply andb_prop in Hb as [_ Hb]. apply negb_true_iff in Hb.
      unfold Str.rstrip_by. intros Hnil.
      apply (f_equal (@rev ascii)) in Hnil. rewrite List.rev_involutive in Hnil.
      simpl in Hnil. apply lstrip_by_nil in Hnil.
      rewrite forallb_rev in Hnil. congruence.
    + now destruct h.
  - apply rcut_none in E. congruence.
Qed.

Lemma contains_app c a b :
  Str.contains c (a ++ b) = Str.contains c a || Str.contains c b.
Proof. apply List.existsb_app. Qed.

Lemma endswith_contains c s :
  Str.endswith [c] s = true -> Str.contains c s = true.
Proof.
  unfold Str.endswith, Str.contains. rewrite <- (List.rev_involutive s) at 2.
  rewrite existsb_rev. simpl. destruct (rev s) as [|x l]; [discriminate|].
  simpl. intros H. apply andb_prop in H as [H _]. now rewrite H.
Qed.

(** With a save directory given, the save path lies in a directory. *)
Lemma save_path_has_dir save_directory name :
  save_directory <> [] ->
  dirname (NameSpec.save_path save_directory name) <> [].
Proof.
  intros Hd. apply dirname_nonempty.
  unfold NameSpec.save_path, join. cbn [fold_left].
  set (d1 := join2 save_directory []).
  assert (H1 : Str.contains sep d1 = true).
  { unfold d1, join2. cbn [Str.startswith].
    destruct save_directory as [|c s]; [congruence|]. cbn [nonempty negb orb].
    destruct (Str.endswith [sep] (c :: s)) eqn:He.
    - rewrite List.app_nil_r. now apply endswith_contains.
    - rewrite contains_app. simpl. now rewrite orb_true_r. }
  unfold join2. destruct (Str.startswith [sep] name) eqn:Hn.
  - destruct name as [|x name]; [discriminate|]. simpl in Hn.
    apply andb_prop in Hn as [Hn _]. simpl. now rewrite Hn.
  - destruct (negb (nonempty d1) || Str.endswith [sep] d1);
      rewrite !contains_app, H1; reflexivity.
Qed.

End PathFacts.

Module QueryFacts.
Import UrlParse PathFacts.

Lemma lstrip_app_stop f a c b :
  f c = false -> Str.lstrip_by f (a ++ c :: b) = Str.lstrip_by f a ++ c :: b.
Proof.
  intros Hc. induction a as [|x a IH]; cbn [app Str.lstrip_by].
  - now rewrite Hc.
  - destruct (f x); [exact IH|reflexivity].
Qed.

Lemma lstrip_free f c x :
  Str.contains c x = false -> Str.contains c (Str.lstrip_by f x) = false.
Proof.
  induction x as [|y x IH]; [reflexivity|]. intros H. cbn [Str.lstrip_by].
  destruct (f y); [|exact H].
  cbn [Str.contains existsb] in H. apply orb_false_elim in H as [_ H].
  now apply IH.
Qed.

Lemma filter_free (g : ascii -> bool) c x :
  Str.contains c x = false -> Str.contains c (List.filter g x) = false.
Proof.
  induction x as [|y x IH]; [reflexivity|]. intros H.
  cbn [Str.contains existsb] in H. apply orb_false_elim in H as [Hy H].
  cbn [List.filter]. destruct (g y); [|now apply IH].
  cbn [Str.contains existsb]. rewrite Hy. now apply IH.
Qed.

Lemma cut1_cons c x s :
  Str.cut [c] (x :: s)
  = if Ascii.eqb c x then Some ([], s)
    else match Str.cut [c] s with
         | Some (a, b) => Some (x :: a, b)
         | None => None
         end.
Proof.
  cbn [Str.cut Str.startswith length skipn]. rewrite andb_true_r.
  reflexivity.
Qed.

Lemma cut1_nil c : Str.cut [c] [] = None.
Proof. reflexivity. Qed.

Lemma cut1_app_some c a t pre post :
  Str.cut [c] a = Some (pre, post) ->
  Str.cut [c] (a ++ t) = Some (pre, post ++ t).
Proof.
  revert pre post. induction a as [|x a IH]; intros pre post H;
    [discriminate|].
  cbn [app]. rewrite cut1_cons in *. destruct (Ascii.eqb c x).
  - now injection H as <- <-.
  - destruct (Str.cut [c] a) as [[p1 p2]|]; [|discriminate].
    injection H as <- <-. now rewrite (IH p1 p2 eq_refl).
Qed.

Lemma cut1_free c a :
  Str.contains c a = false -> Str.cut [c] a = None.
Proof.
  induction a as [|x a IH]; intros H; [reflexivity|].
  cbn [Str.contains existsb] in H. apply orb_false_elim in H as [Hx H].
  rewrite cut1_cons, Hx. now rewrite IH.
Qed.

Lemma cut1_none_app c a t :
  Str.contains c a = false ->
  Str.cut [c] (a ++ t)
  = match Str.cut [c] t with
    | Some (p1, p2) => Some (a ++ p1, p2)
    | None => None
    end.
Proof.
  induction a as [|x a IH]; intros H.
  - cbn [app]. now destruct (Str.cut [c] t) as [[p1 p2]|].
  - cbn [Str.contains existsb] in H. apply orb_false_elim in H as [Hx H].
    cbn [app]. rewrite cut1_cons, Hx, (IH H).
    now destruct (Str.cut [c] t) as [[p1 p2]|].
Qed.

Lemma cut1_hit c a t :
  Str.contains c a = false -> Str.cut [c] (a ++ c :: t) = Some (a, t).
Proof.
  intros H. rewrite (cut1_none_app c a (c :: t) H), cut1_cons.
  now rewrite Ascii.eqb_refl, List.app_nil_r.
Qed.

Lemma cut1_parts c a pre post :
  Str.cut [c] a = Some (pre, post) -> a = pre ++ c :: post.
Proof.
  revert pre post. induction a as [|x a IH]; intros pre post H;
    [discriminate|].
  rewrite cut1_cons in H. destruct (Ascii.eqb c x) eqn:E.
  - injection H as <- <-. apply Ascii.eqb_eq in E. now subst.
  - destruct (Str.cut [c] a) as [[p1 p2]|]; [|discriminate].
    injection H as <- <-. cbn [app]. now rewrite <- (IH p1 p2 eq_refl).
Qed.

Lemma app_free c a b :
  Str.contains c (a ++ b) = false ->
  Str.contains c a = false /\ Str.contains c b = false.
Proof. rewrite contains_app. apply orb_false_elim. Qed.

Lemma break_at_app f y c t :
  f c = true ->
  break_at f (y ++ c :: t)
  = ((break_at f y).1, (break_at f y).2 ++ c :: t).
Proof.
  intros Hc. induction y as [|x y IH]; cbn [app break_at].
  - now rewrite Hc.
  - destruct (f x); [reflexivity|]. rewrite IH.
    now destruct (break_at f y).
Qed.

Lemma break_at_free f c y :
  Str.contains c y = false -> Str.contains c (break_at f y).2 = false.
Proof.
  intros H. destruct (break_at f y) as [n r] eqn:E.
  apply break_at_split in E as (-> & _). now apply app_free in H.
Qed.

Lemma skipn_free c n (y : str) :
  Str.contains c y = false -> Str.contains c (skipn n y) = false.
Proof.
  intros H. rewrite <- (List.firstn_skipn n y) in H. now apply app_free in H.
Qed.

Lemma remove_unsafe_query x q :
  remove_unsafe (x ++ "?"%char :: q)
  = remove_unsafe x ++ "?"%char :: remove_unsafe q.
Proof. unfold remove_unsafe. now rewrite List.filter_app. Qed.

End QueryFacts.

Module QueryName.
Import UrlParse OsPath Fetch PathFacts QueryFacts.

Section WithLibrary.

Variable bhe : str -> option str.

(** A query behind a URL that has none changes the query that urlsplit
    returns, and nothing else. *)
Lemma urlsplit_query u q :
  Str.contains "?" u = false -> Str.contains "#" u = false ->
  Str.contains "#" q = false ->
  urlsplit bhe (u ++ "?"%char :: q) []
  = match urlsplit bhe u [] with
    | Ok r => Ok (SplitResult (scheme r) (netloc r) (path r) (remove_unsafe q) [])
    | Raise e => Raise e
    end.
Proof.
  intros Hq Hf Hfq. unfold urlsplit. cbv zeta.
  rewrite (lstrip_app_stop is_c0_or_space u "?" q eq_refl).
  rewrite !remove_unsafe_query.
  set (a := remove_unsafe (Str.lstrip_by is_c0_or_space u)).
  set (q' := remove_unsafe q).
  set (d := remove_unsafe
              (Str.rstrip_by is_c0_or_space (Str.lstrip_by is_c0_or_space []))).
  assert (Haq : Str.contains "?" a = false)
    by (apply filter_free, lstrip_free, Hq).
  assert (Haf : Str.contains "#" a = false)
    by (apply filter_free, lstrip_free, Hf).
  assert (Hqf : Str.contains "#" q' = false) by (apply filter_free, Hfq).
  (* the scheme *)
  assert (Hs : exists s b,
             match Str.cut [":"%char] a with
             | Some (c :: pre, post) =>
                 if is_ascii_alpha c && forallb is_scheme_char (c :: pre)
                 then (lower (c :: pre), post) else (d, a)
             | _ => (d, a)
             end = (s, b)
             /\ match Str.cut [":"%char] (a ++ "?"%char :: q') with
                | Some (c :: pre, post) =>
                    if is_ascii_alpha c && forallb is_scheme_char (c :: pre)
                    then (lower (c :: pre), post) else (d, a ++ "?"%char :: q')
                | _ => (d, a ++ "?"%char :: q')
                end = (s, b ++ "?"%char :: q')
             /\ Str.contains "?" b = false /\ Str.contains "#" b = false).
  { destruct (Str.cut [":"%char] a) as [[pre post]|] eqn:Ec.
    - rewrite (cut1_app_some _ _ ("?"%char :: q') _ _ Ec).
      pose proof (cut1_parts _ _ _ _ Ec) as Ha.
      assert (Hp : Str.contains "?" post = false /\ Str.contains "#" post = false).
      { rewrite Ha in Haq, Haf. apply app_free in Haq as [_ Haq].
        apply app_free in Haf as [_ Haf].
        cbn [Str.contains existsb] in Haq, Haf.
        apply orb_false_elim in Haq as [_ Haq].
        apply orb_false_elim in Haf as [_ Haf]. now split. }
      destruct pre as [|c pre]; [now exists d, a|].
      destruct (is_ascii_alpha c && forallb is_scheme_char (c :: pre));
        [exists (lower (c :: pre)), post|exists d, a]; tauto.
    - exists d, a. split; [reflexivity|]. split; [|now split].
      assert (Hc : Str.contains ":" a = false).
      { clear -Ec. induction a as [|x a IH]; [reflexivity|].
        rewrite cut1_cons in Ec. cbn [Str.contains existsb].
        destruct (Ascii.eqb ":" x); [discriminate|].
        destruct (Str.cut [":"%char] a) as [[p1 p2]|]; [discriminate|].
        now apply IH. }
      rewrite (cut1_none_app _ _ _ Hc), cut1_cons.
      change (Ascii.eqb ":" "?") with false. cbv iota.
      destruct (Str.cut [":"%char] q') as [[p1 p2]|]; [|reflexivity].
      destruct a as [|c a'].
      + reflexivity.
      + cbn [app].
        replace (forallb is_scheme_char (c :: a' ++ "?"%char :: p1)) with false.
        * now rewrite andb_false_r.
        * symmetry. change (c :: a' ++ "?"%char :: p1)
            with ((c :: a') ++ "?"%char :: p1).
          rewrite List.forallb_app. cbn [forallb].
          change (is_scheme_char "?") with false.
          now rewrite andb_false_r. }
  destruct Hs as (s & b & -> & -> & Hbq & Hbf).
  (* the network location *)
  assert (Hst : Str.startswith (chars "//") (b ++ "?"%char :: q')
                = Str.startswith (chars "//") b).
  { change (chars "//") with ["/"%char; "/"%char].
    destruct b as [|x [|y b']]; [reflexivity| |reflexivity].
    cbn [app Str.startswith]. change (Ascii.eqb "/" "?") with false.
    reflexivity. }
  rewrite Hst. destruct (Str.startswith (chars "//") b) eqn:Eb.
  - assert (Hsk : skipn 2 (b ++ "?"%char :: q') = skipn 2 b ++ "?"%char :: q').
    { destruct b as [|x [|y b']]; [discriminate Eb| |reflexivity].
      exfalso. change (chars "//") with ["/"%char; "/"%char] in Eb.
      cbn [Str.startswith] in Eb. rewrite andb_false_r in Eb. discriminate. }
    rewrite Hsk, break_at_app by reflexivity.
    pose proof (break_at_free
                  (fun c => Ascii.eqb c "/" || Ascii.eqb c "?" || Ascii.eqb c "#")
                  "?" (skipn 2 b) (skipn_free _ _ _ Hbq)) as Hrq.
    pose proof (break_at_free
                  (fun c => Ascii.eqb c "/" || Ascii.eqb c "?" || Ascii.eqb c "#")
                  "#" (skipn 2 b) (skipn_free _ _ _ Hbf)) as Hrf.
    destruct (break_at _ (skipn 2 b)) as [n r]. cbn [fst snd] in *.
    destruct ((Str.contains "[" n && negb (Str.contains "]" n))
              || (Str.contains "]" n && negb (Str.contains "[" n)));
      [reflexivity|].
    destruct (if Str.contains "[" n && Str.contains "]" n
              then check_bracketed_netloc bhe n else Ok tt); [|reflexivity].
    cbn [bind].
    assert (Hrqf : Str.contains "#" (r ++ "?"%char :: q') = false).
    { rewrite contains_app, Hrf. cbn [Str.contains existsb orb].
      change (Ascii.eqb "#" "?") with false. exact Hqf. }
    rewrite (cut1_free _ _ Hrqf), (cut1_free _ _ Hrf).
    rewrite (cut1_hit _ _ _ Hrq), (cut1_free _ _ Hrq). reflexivity.
  - cbn [bind].
    assert (Hrqf : Str.contains "#" (b ++ "?"%char :: q') = false).
    { rewrite contains_app, Hbf. cbn [Str.contains existsb orb].
      change (Ascii.eqb "#" "?") with false. exact Hqf. }
    rewrite (cut1_free _ _ Hrqf), (cut1_free _ _ Hbf).
    rewrite (cut1_hit _ _ _ Hbq), (cut1_free _ _ Hbq). reflexivity.
Qed.

(** The query string plays no part in the file name. *)
Lemma filename_query u q :
  Str.contains "?" u = false -> Str.contains "#" u = false ->
  Str.contains "#" q = false ->
  get_filename_from_url bhe (u ++ "?"%char :: q)
  = get_filename_from_url bhe u.
Proof.
  intros Hq Hf Hfq. unfold get_filename_from_url, urlparse.
  rewrite (urlsplit_query u q Hq Hf Hfq).
  destruct (urlsplit bhe u []) as [r|e]; [|reflexivity].
  cbn [bind scheme netloc path query fragment].
  now destruct (if mem_str (scheme r) uses_params && Str.contains ";" (path r)
                then splitparams (path r) else (path r, [])).
Qed.

End WithLibrary.

End QueryName.


Module NameClaims.
Import Fetch NameSpec PathFacts BodyFacts QueryName.

Section WithRun.

Variable bhe : str -> option str.
Variable fs : disk.
Variable http_get : str -> gmap str str -> result response.
Variable headers : gmap str str.
Variable save_directory : str.

Local Abbreviation segment_body := (segment_body bhe fs http_get headers save_directory).
Local Abbreviation manifest_body := (manifest_body bhe fs http_get headers save_directory).

(** The file name is read off the basename of the parsed path alone. *)
Lemma get_filename_of_path u p :
  UrlParse.urlparse bhe u [] = Ok p ->
  get_filename_from_url bhe u = Ok (name_of_path (UrlParse.p_path p)).
Proof. intros H. unfold get_filename_from_url, bind. now rewrite H. Qed.

(** A segment answered with 200 is written to its save path, whatever
    was there, and the pass prints the one line of success. *)
Lemma segment_body_saves u name body w :
  save_directory <> [] ->
  get_filename_from_url bhe u = Ok name ->
  writable fs (save_path save_directory name) ->
  http_get u headers = Ok (Response 200 body) ->
  segment_body u w
  = (Ok tt,
     World (<[save_path save_directory name := body]> (files w))
       (trace w ++
        [EGet u headers true;
         EMakedirs (OsPath.dirname (save_path save_directory name));
         EWrite (save_path save_directory name) body;
         EPrint (chars "Saved: " ++ save_path save_directory name)])).
Proof.
  intros Hd Hn [Hm Ho] Hg. unfold_run. rewrite Hn, Hg. cbn [status_code text].
  change (200 =? 200)%Z with true.
  change (OsPath.join save_directory [[]; name])
    with (save_path save_directory name).
  pose proof (save_path_has_dir save_directory name Hd) as Hdir.
  rewrite Ho.
  destruct (OsPath.dirname (save_path save_directory name)) as [|c d];
    [congruence|].
  rewrite Hm.
  cbv beta iota. cbn [files trace]. rewrite <- !List.app_assoc. reflexivity.
Qed.

(** A manifest answered with 200 is written to its save path before its
    references are looked for. *)
Lemma manifest_body_saves u name body ms ts w :
  save_directory <> [] ->
  get_filename_from_url bhe u = Ok name ->
  writable fs (save_path save_directory name) ->
  http_get u headers = Ok (Response 200 body) ->
  files (manifest_body u ms ts w).2
  = <[save_path save_directory name := body]> (files w).
Proof.
  intros Hd Hn [Hm Ho] Hg. unfold_run. rewrite Hn, Hg. cbn [status_code text].
  change (200 =? 200)%Z with true.
  change (OsPath.join save_directory [[]; name])
    with (save_path save_directory name).
  pose proof (save_path_has_dir save_directory name Hd) as Hdir.
  rewrite Ho.
  destruct (OsPath.dirname (save_path save_directory name)) as [|c d];
    [congruence|].
  rewrite Hm.
  cbv beta iota. cbn [files trace].
  destruct (find_references bhe body u _); cbv beta iota; cbn [files trace snd];
    [|reflexivity].
  destruct (find_references bhe body u _); reflexivity.
Qed.


End WithRun.

End NameClaims.

Module NameExamples.
Import Fetch NameSpec NameClaims Samples Web Defaults Echo.



Example colliding_names :
  get_filename_from_url no_host_error first_url = Ok (chars "seg.ts")
  /\ get_filename_from_url no_host_error second_url = Ok (chars "seg.ts")
  /\ get_filename_from_url no_host_error (chars "https://x.test/dir/?a=b.ts")
     = Ok (chars "index.m3u8").
Proof. vm_compute. repeat split. Qed.

End NameExamples.

Module MatchFacts.
Import Re Pos ReFacts Fetch.

(** How a step of the matcher succeeds when the rest of the pattern
    accepts what it leaves. *)
Lemma lit_ok w p s g k res :
  k (MState (adv p w) s g) = Some res ->
  rmatch (lit w) (MState p (w ++ s) g) k = Some res.
Proof.
  intros H. rewrite rmatch_lit, startswith_refl.
  now rewrite List.skipn_app, List.skipn_all, Nat.sub_diag.
Qed.

Lemma chr_ok c a p s g k res :
  cset_mem c a = true -> k (MState (Some a) s g) = Some res ->
  rmatch (Chr c) (MState p (a :: s) g) k = Some res.
Proof. intros Hc H. rewrite rmatch_chr. now rewrite Hc. Qed.

Lemma plus_ok c a w p s g k res :
  cset_mem c a = true -> forallb (cset_mem c) w = true ->
  match s with [] => True | b :: _ => cset_mem c b = false end ->
  k (MState (adv (Some a) w) s g) = Some res ->
  rmatch (Plus c) (MState p (a :: w ++ s) g) k = Some res.
Proof.
  intros Ha Hw Hs H. rewrite rmatch_plus, Ha. now apply star_loop_greedy.
Qed.

Lemma star_ok c w p s g k res :
  forallb (cset_mem c) w = true ->
  match s with [] => True | b :: _ => cset_mem c b = false end ->
  k (MState (adv p w) s g) = Some res ->
  rmatch (Star c) (MState p (w ++ s) g) k = Some res.
Proof. intros Hw Hs H. rewrite rmatch_star. now apply star_loop_greedy. Qed.

Lemma opt_take r st k res :
  rmatch r st k = Some res -> rmatch (Opt r) st k = Some res.
Proof. intros H. rewrite rmatch_opt. now rewrite H. Qed.

Lemma opt_skip r st k :
  rmatch r st k = None -> rmatch (Opt r) st k = k st.
Proof. intros H. rewrite rmatch_opt. now rewrite H. Qed.

Lemma seq_ok r1 r2 st k res :
  rmatch r1 st (fun st' => rmatch r2 st' k) = Some res ->
  rmatch (Seq r1 r2) st k = Some res.
Proof. now rewrite rmatch_seq. Qed.

Lemma forallb_Forall {A} (f : A -> bool) l :
  Forall (fun a => f a = true) l -> forallb f l = true.
Proof. induction 1; simpl; [reflexivity|]. now rewrite H, IHForall. Qed.

Lemma firstn_consumed {A} (w s : list A) :
  firstn (length (w ++ s) - length s) (w ++ s) = w.
Proof.
  rewrite List.length_app.
  replace (length w + length s - length s) with (length w) by lia.
  now rewrite List.firstn_app, List.firstn_all, Nat.sub_diag, List.app_nil_r.
Qed.

End MatchFacts.

Module UrlPatternFacts.
Import Re Pos ReFacts Fetch MatchFacts RequestSpec.

(** The URL pattern on a quoted URL right after [curl]. *)
Lemma attempt_url tail secure more :
  tail <> [] ->
  Forall (fun c => cset_mem not_space_quote c = true) tail ->
  let url := (if secure : bool then chars "https://" else chars "http://") ++ tail in
  attempt url_pattern None (chars "curl '" ++ url ++ "'"%char :: more)
  = Some (MState (Some "'"%char) more (Some url)).
Proof.
  intros Hne Htail url. unfold attempt, url_pattern.
  change (chars "curl '" ++ url ++ "'"%char :: more)
    with (chars "curl" ++ " "%char :: [] ++ "'"%char :: url ++ "'"%char :: more).
  apply seq_ok, lit_ok. apply seq_ok, plus_ok; try reflexivity.
  apply seq_ok, opt_take, chr_ok; [reflexivity|].
  apply seq_ok. rewrite rmatch_group. cbn [Re.rest prev].
  destruct tail as [|t0 tail]; [congruence|]. inversion Htail; subst.
  set (K := fun st' : mstate => rmatch (Opt (Chr quote)) _ Some).
  assert (Hend : forall p,
    rmatch (Plus not_space_quote)
      (MState p (t0 :: tail ++ "'"%char :: more) None) K
    = Some (MState (Some "'"%char) more (Some url))).
  { intros p. apply plus_ok; auto using forallb_Forall.
    unfold K. cbn [prev Re.rest]. apply opt_take, chr_ok; [reflexivity|].
    now rewrite (firstn_consumed url ("'"%char :: more)). }
  destruct secure.
  - change (url ++ "'"%char :: more)
      with (chars "http" ++ "s"%char :: chars "://" ++ t0 :: tail ++ "'"%char :: more).
    apply seq_ok, lit_ok. apply seq_ok, opt_take, chr_ok; [reflexivity|].
    apply seq_ok, lit_ok. apply Hend.
  - change (url ++ "'"%char :: more)
      with (chars "http" ++ chars "://" ++ t0 :: tail ++ "'"%char :: more).
    apply seq_ok, lit_ok. apply seq_ok. rewrite opt_skip by reflexivity.
    apply lit_ok. apply Hend.
Qed.

End UrlPatternFacts.

Module HeaderPatternFacts.
Import Re Pos ReFacts LineFacts Fetch MatchFacts RequestSpec.

Lemma attempt_header_none p s :
  Str.startswith (chars "-H") s = false -> attempt header_pattern p s = None.
Proof.
  intros H. unfold attempt, header_pattern. now rewrite rmatch_seq, rmatch_lit, H.
Qed.

(** The header pattern on a quoted header. *)
Lemma attempt_header text more p :
  text <> [] -> plain text ->
  attempt header_pattern p (chars "-H '" ++ text ++ "'"%char :: more)
  = Some (MState (Some "'"%char) more (Some text)).
Proof.
  intros Hne Hp. unfold attempt, header_pattern.
  change (chars "-H '" ++ text ++ "'"%char :: more)
    with (chars "-H" ++ [" "%char] ++ "'"%char :: text ++ "'"%char :: more).
  apply seq_ok, lit_ok. apply seq_ok, star_ok; try reflexivity.
  apply seq_ok, opt_take, chr_ok; [reflexivity|].
  apply seq_ok. rewrite rmatch_group. cbn [Re.rest prev].
  destruct text as [|t0 text]; [congruence|]. inversion Hp; subst.
  change ((t0 :: text) ++ "'"%char :: more) with (t0 :: text ++ "'"%char :: more).
  apply plus_ok; auto using forallb_Forall.
  cbn [prev Re.rest]. apply opt_take, chr_ok; [reflexivity|].
  change (t0 :: text ++ "'"%char :: more) with ((t0 :: text) ++ "'"%char :: more).
  now rewrite (firstn_consumed (t0 :: text) ("'"%char :: more)).
Qed.

Lemma cut_none_tail sep c s :
  Str.cut sep (c :: s) = None ->
  Str.startswith sep (c :: s) = false /\ Str.cut sep s = None.
Proof.
  intros H. cbn [Str.cut] in H.
  destruct (Str.startswith sep (c :: s)); [discriminate|].
  destruct (Str.cut sep s) as [[a b]|]; [discriminate|]. now split.
Qed.

(** A URL without [-H] in it is passed over, up to its closing quote. *)
Lemma findall_pass_url url : forall p more,
  Str.cut (chars "-H") url = None ->
  findall_from header_pattern 0 p (url ++ "'"%char :: more)
  = findall_from header_pattern 0 (adv p url) ("'"%char :: more).
Proof.
  induction url as [|c url IH]; intros p more H; [reflexivity|].
  apply cut_none_tail in H as [Hs Hc].
  cbn [app]. rewrite findall_miss.
  - now apply IH.
  - apply attempt_header_none.
    change (chars "-H") with ["-"%char; "H"%char] in *.
    cbn [Str.startswith] in *.
    destruct (Ascii.eqb "-" c); [|reflexivity]. cbn [andb] in *.
    destruct url as [|d url]; cbn [app Str.startswith] in *; [reflexivity|].
    exact Hs.
Qed.

Lemma plain_header_text kv : well_formed_header kv -> plain (header_text kv).
Proof.
  intros (Hk & Hv & _). unfold header_text, plain.
  apply List.Forall_app. split; [exact Hk|].
  apply List.Forall_app. split; [|exact Hv].
  repeat constructor.
Qed.

Lemma header_text_nonempty kv : header_text kv <> [].
Proof. unfold header_text. destruct kv as [[|c k] v]; discriminate. Qed.

(** The header declarations, one match each. *)
Lemma findall_headers hs : forall p,
  Forall well_formed_header hs ->
  findall_from header_pattern 0 p (concat (map header_decl hs))
  = map header_text hs.
Proof.
  induction hs as [|kv hs IH]; intros p H.
  - reflexivity.
  - inversion H as [|? ? Hkv Hhs]; subst.
    change (concat (map header_decl (kv :: hs)))
      with (header_decl kv ++ concat (map header_decl hs)).
    unfold header_decl at 1.
    replace ((chars " -H '" ++ header_text kv ++ chars "'")
             ++ concat (map header_decl hs))
      with (" "%char :: (chars "-H '" ++ header_text kv ++ ["'"%char])
                        ++ concat (map header_decl hs))
      by (now rewrite <- !List.app_assoc).
    rewrite findall_miss by (apply attempt_header_none; reflexivity).
    pose proof (attempt_header (header_text kv) (concat (map header_decl hs))
                  (Some " "%char) (header_text_nonempty kv)
                  (plain_header_text kv Hkv)) as Ha.
    assert (Ha' : attempt header_pattern (Some " "%char)
                    ((chars "-H '" ++ header_text kv ++ ["'"%char])
                     ++ concat (map header_decl hs))
                  = Some (MState (Some "'"%char) (concat (map header_decl hs))
                            (Some (header_text kv))))
      by (rewrite <- !List.app_assoc; exact Ha).
    assert (Hw : chars "-H '" ++ header_text kv ++ ["'"%char] <> [])
      by discriminate.
    rewrite (findall_hit _ _ _ _ _ Hw Ha' eq_refl).
    cbn [group1 grp map]. f_equal. now apply IH.
Qed.

(** The headers of a request description, as [re.findall] returns them. *)
Lemma findall_description url hs :
  Str.cut (chars "-H") url = None -> Forall well_formed_header hs ->
  findall header_pattern (request_description url hs) = map header_text hs.
Proof.
  intros Hu Hhs. unfold findall, request_description.
  change (chars "curl '" ++ url ++ chars "'" ++ concat (map header_decl hs))
    with ("c"%char :: "u"%char :: "r"%char :: "l"%char :: " "%char :: "'"%char
          :: url ++ "'"%char :: concat (map header_decl hs)).
  do 6 (rewrite findall_miss by (apply attempt_header_none; reflexivity)).
  rewrite findall_pass_url by assumption.
  rewrite findall_miss by (apply attempt_header_none; reflexivity).
  now apply findall_headers.
Qed.

End HeaderPatternFacts.

Module RequestClaims.
Import Re Pos ReFacts Fetch MatchFacts UrlPatternFacts HeaderPatternFacts RequestSpec.

Lemma search_from_hit_eq r p s :
  search_from r p s
  = match attempt r p s with
    | Some st => Some st
    | None => match s with [] => None | c :: s' => search_from r (Some c) s' end
    end.
Proof. destruct s; reflexivity. Qed.

Lemma cut_colon_space k v :
  Str.cut (chars ": ") k = None ->
  Str.cut (chars ": ") (k ++ chars ": " ++ v) = Some (k, v).
Proof.
  induction k as [|c k IH]; intros H; [reflexivity|].
  apply cut_none_tail in H as [Hs Hc].
  cbn [app Str.cut].
  assert (Hn : Str.startswith (chars ": ") (c :: k ++ chars ": " ++ v) = false).
  { change (chars ": ") with [":"%char; " "%char] in *.
    cbn [Str.startswith] in *.
    destruct (Ascii.eqb ":" c); [|reflexivity]. cbn [andb] in *.
    destruct k as [|d k]; cbn [app Str.startswith] in *; [reflexivity|exact Hs]. }
  rewrite Hn. now rewrite (IH Hc).
Qed.

Lemma header_item_text kv :
  well_formed_header kv -> header_item (header_text kv) = Ok kv.
Proof.
  intros (_ & _ & Hc). destruct kv as [k v]. unfold header_item, header_text, Str.split1.
  cbn [fst snd]. now rewrite (cut_colon_space k v Hc).
Qed.

Lemma header_dict_ok hs : forall d,
  Forall well_formed_header hs ->
  header_dict (map header_text hs) d = Ok (dict_of hs d).
Proof.
  induction hs as [|kv hs IH]; intros d H; [reflexivity|].
  inversion H; subst. cbn [map header_dict]. unfold bind.
  rewrite header_item_text by assumption. now apply IH.
Qed.

Lemma dict_of_cons (kv : str * str) (hs : list (str * str)) (d : gmap str str) :
  dict_of (kv :: hs) d = dict_of hs (<[kv.1 := kv.2]> d).
Proof. reflexivity. Qed.

Lemma dict_of_other hs : forall (d : gmap str str) k,
  ~ In k (map fst hs) -> dict_of hs d !! k = d !! k.
Proof.
  induction hs as [|kv hs IH]; intros d k Hk; [reflexivity|].
  rewrite dict_of_cons.
  rewrite IH by (intros Hin; apply Hk; now right).
  apply lookup_insert_ne. intros Heq. apply Hk. left. exact Heq.
Qed.

Lemma dict_of_lookup hs : forall (d : gmap str str) k v,
  List.NoDup (map fst hs) -> In (k, v) hs -> dict_of hs d !! k = Some v.
Proof.
  induction hs as [|kv hs IH]; intros d k v Hnd Hin; [destruct Hin|].
  inversion Hnd as [|? ? Hfresh Hnd']; subst.
  rewrite dict_of_cons.
  destruct Hin as [->|Hin].
  - rewrite dict_of_other by exact Hfresh. apply lookup_insert_eq.
  - now apply IH.
Qed.

Lemma dict_of_size hs : forall (d : gmap str str),
  List.NoDup (map fst hs) -> (forall k, In k (map fst hs) -> d !! k = None) ->
  size (dict_of hs d) = size d + length hs.
Proof.
  induction hs as [|kv hs IH]; intros d Hnd Hd; [simpl; lia|].
  inversion Hnd as [|? ? Hfresh Hnd']; subst.
  rewrite dict_of_cons.
  rewrite IH; [| exact Hnd' |].
  - rewrite map_size_insert_None by (apply Hd; now left). simpl. lia.
  - intros k Hk. rewrite lookup_insert_ne.
    + apply Hd. now right.
    + intros Heq. rewrite Heq in Hfresh. contradiction.
Qed.


End RequestClaims.

Module RequestExamples.
Import Re Fetch RequestSpec RequestClaims.



(** Two declarations under one name leave one entry, the later value. *)
Example repeated_name_collapses :
  extract_headers (chars "curl 'https://x.test/a.m3u8' -H 'Cookie: a' -H 'Cookie: b'")
  = Ok {[ chars "Cookie" := chars "b" ]}.
Proof. vm_compute. reflexivity. Qed.

End RequestExamples.

Module SplitFacts.
Import UrlParse OsPath PathFacts.

Section WithSep.

Variable sep : ascii.

Lemma split_nonempty s : Str.split sep s <> [].
Proof.
  destruct s as [|c s]; simpl; [discriminate|].
  destruct (Ascii.eqb c sep); [discriminate|].
  destruct (Str.split sep s); discriminate.
Qed.

Lemma split_sep_free s :
  Str.contains sep s = false -> Str.split sep s = [s].
Proof.
  induction s as [|c s IH]; simpl; [reflexivity|].
  rewrite (Ascii.eqb_sym sep c). destruct (Ascii.eqb c sep); [discriminate|].
  simpl. intros H. now rewrite IH.
Qed.

(** Splitting distributes over a separator. *)
Lemma split_app a b :
  Str.split sep (a ++ sep :: b) = Str.split sep a ++ Str.split sep b.
Proof.
  induction a as [|c a IH]; simpl.
  - now rewrite Ascii.eqb_refl.
  - destruct (Ascii.eqb c sep); [now rewrite IH|].
    rewrite IH. pose proof (split_nonempty a) as Hne.
    destruct (Str.split sep a); [congruence|reflexivity].
Qed.

Lemma split_components s :
  Forall (fun c => Str.contains sep c = false) (Str.split sep s).
Proof.
  induction s as [|c s IH]; simpl.
  - repeat constructor.
  - destruct (Ascii.eqb c sep) eqn:E.
    + constructor; [reflexivity|exact IH].
    + pose proof (split_nonempty s) as Hne.
      destruct (Str.split sep s) as [|l ls]; [congruence|].
      inversion IH; subst. constructor; [|assumption].
      simpl. rewrite (Ascii.eqb_sym sep c), E. assumption.
Qed.

(** Joining names that hold no separator and splitting again gives the
    names back. *)
Lemma split_join names :
  names <> [] -> Forall (fun c => Str.contains sep c = false) names ->
  Str.split sep (Str.join [sep] names) = names.
Proof.
  intros Hne H. induction H as [|n names Hn Hs IH]; [congruence|].
  destruct names as [|n2 names].
  - now apply split_sep_free.
  - change (Str.join [sep] (n :: n2 :: names))
      with (n ++ sep :: Str.join [sep] (n2 :: names)).
    rewrite split_app, split_sep_free by assumption.
    simpl. f_equal. now apply IH.
Qed.

Lemma filter_nonempty_good comps :
  Forall (fun c => c <> []) comps -> List.filter nonempty comps = comps.
Proof.
  induction 1 as [|c comps Hc _ IH]; simpl; [reflexivity|].
  destruct c; [congruence|]. simpl. now rewrite IH.
Qed.

(** The components of a normalised path, read back from its text. *)
Lemma components_of_rendered n comps :
  Forall (fun c => c <> []) comps ->
  Forall (fun c => Str.contains sep c = false) comps ->
  List.filter nonempty (Str.split sep (repeat sep n ++ Str.join [sep] comps))
  = comps.
Proof.
  intros Hne Hsf. induction n as [|n IH]; simpl.
  - destruct comps as [|c comps]; [reflexivity|].
    rewrite split_join by (assumption || discriminate).
    now apply filter_nonempty_good.
  - rewrite Ascii.eqb_refl. simpl. exact IH.
Qed.

End WithSep.

End SplitFacts.

Module NormFacts.
Import UrlParse OsPath PathFacts SplitFacts PathSpec UploadSpec.

Section WithSep.

Lemma step_same_zero n m acc comp :
  (n =? 0)%nat = (m =? 0)%nat ->
  normpath_step n acc comp = normpath_step m acc comp.
Proof. intros H. unfold normpath_step. now rewrite H. Qed.

Lemma step_empty n acc : normpath_step n acc [] = acc.
Proof. reflexivity. Qed.

Lemma step_good n acc name :
  good_name sep name -> normpath_step n acc name = acc ++ [name].
Proof.
  intros (Hne & _ & Hdot & Hdd). unfold normpath_step.
  rewrite (bool_decide_eq_false_2 _ Hne), (bool_decide_eq_false_2 _ Hdot),
    (bool_decide_eq_false_2 _ Hdd). reflexivity.
Qed.

Lemma fold_good n names : forall acc,
  Forall (good_name sep) names ->
  fold_left (normpath_step n) names acc = acc ++ names.
Proof.
  induction names as [|a names IH]; intros acc H; simpl.
  - now rewrite List.app_nil_r.
  - inversion H; subst. rewrite step_good by assumption.
    rewrite IH by assumption. now rewrite <- List.app_assoc.
Qed.

(** What [normpath] keeps is never empty and holds no separator. *)
Lemma fold_components n cs : forall acc,
  Forall (fun c => Str.contains sep c = false) cs ->
  Forall (fun c => c <> [] /\ Str.contains sep c = false) acc ->
  Forall (fun c => c <> [] /\ Str.contains sep c = false)
    (fold_left (normpath_step n) cs acc).
Proof.
  induction cs as [|c cs IH]; intros acc Hcs Hacc; simpl; [exact Hacc|].
  inversion Hcs; subst. apply IH; [assumption|].
  unfold normpath_step.
  destruct (bool_decide (c = [])) eqn:E1; [exact Hacc|].
  apply bool_decide_eq_false_1 in E1. cbn [orb].
  destruct (bool_decide (c = chars ".")); [exact Hacc|]. cbn [orb].
  destruct (_ || _).
  - apply List.Forall_app. split; [exact Hacc|]. repeat constructor; assumption.
  - clear -Hacc. induction Hacc as [|x l Hx Hl IHl]; simpl; [constructor|].
    destruct l; [constructor|]. constructor; assumption.
Qed.

Lemma components_good p :
  Forall (fun c => c <> [] /\ Str.contains sep c = false) (components p).
Proof. apply fold_components; [apply split_components|constructor]. Qed.

(** [normpath] renders the components behind the leading separators. *)
Lemma normpath_rendered p :
  p <> [] ->
  Str.startswith [sep] p = true \/ components p <> [] ->
  List.filter nonempty (Str.split sep (normpath p)) = components p.
Proof.
  intros Hp Habs. destruct p as [|c p]; [congruence|].
  unfold normpath.
  set (n := if Str.startswith [sep] (c :: p) then _ else 0).
  assert (Hn : (n =? 0)%nat
               = ((if Str.startswith [sep] (c :: p) then 1 else 0) =? 0)%nat).
  { unfold n. destruct (Str.startswith [sep] (c :: p)); [|reflexivity].
    now destruct (_ && _). }
  assert (Hc : fold_left (normpath_step n) (Str.split sep (c :: p)) []
               = components (c :: p)).
  { unfold components. generalize (@nil str).
    induction (Str.split sep (c :: p)) as [|x l IH]; intros acc; [reflexivity|].
    simpl. rewrite (step_same_zero _ _ _ _ Hn). apply IH. }
  rewrite Hc.
  pose proof (components_good (c :: p)) as Hg.
  assert (Hne : Forall (fun c => c <> []) (components (c :: p)))
    by (eapply List.Forall_impl; [|exact Hg]; simpl; tauto).
  assert (Hsf : Forall (fun c => Str.contains sep c = false) (components (c :: p)))
    by (eapply List.Forall_impl; [|exact Hg]; simpl; tauto).
  destruct (repeat sep n ++ Str.join [sep] (components (c :: p)))
    as [|x l] eqn:E.
  - exfalso. apply List.app_eq_nil in E as [En Ej].
    destruct Habs as [Ha|Ha].
    + unfold n in En. rewrite Ha in En. now destruct (_ && _).
    + destruct (components (c :: p)) as [|c1 [|c2 cs]]; [congruence| |].
      * simpl in Ej. inversion Hne; subst. congruence.
      * simpl in Ej. inversion Hne; subst. destruct c1; [congruence|discriminate].
  - rewrite <- E. now apply components_of_rendered.
Qed.

Lemma endswith_last c s :
  Str.endswith [c] s = true -> exists s', s = s' ++ [c].
Proof.
  unfold Str.endswith. simpl. destruct (rev s) as [|x l] eqn:E; [discriminate|].
  intros H. apply andb_prop in H as [H _]. apply Ascii.eqb_eq in H. subst x.
  exists (rev l). apply (f_equal (@rev ascii)) in E.
  now rewrite List.rev_involutive in E.
Qed.

Lemma startswith_app_nonempty pre a b :
  a <> [] -> Str.startswith [pre] (a ++ b) = Str.startswith [pre] a.
Proof. destruct a; [congruence|reflexivity]. Qed.

Lemma endswith_app_nonempty c a b :
  b <> [] -> Str.endswith [c] (a ++ b) = Str.endswith [c] b.
Proof.
  intros Hb. unfold Str.endswith. rewrite List.rev_app_distr.
  destruct (rev b) as [|x l] eqn:E; [|reflexivity].
  apply (f_equal (@rev ascii)) in E. rewrite List.rev_involutive in E.
  simpl in E. congruence.
Qed.

(** Going down into well-named entries adds their names to the
    components. *)
Lemma components_app a names :
  a <> [] -> names <> [] -> Forall (good_name sep) names ->
  components (a ++ tail_for a names) = components a ++ names.
Proof.
  intros Ha Hne Hg.
  assert (Hsf : Forall (fun c => Str.contains sep c = false) names)
    by (eapply List.Forall_impl; [|exact Hg]; unfold good_name; tauto).
  unfold components. rewrite startswith_app_nonempty by assumption.
  unfold tail_for. destruct (Str.endswith [sep] a) eqn:E.
  - apply endswith_last in E as [a' ->].
    rewrite <- List.app_assoc. cbn [app].
    rewrite !split_app, split_join by assumption.
    rewrite !List.fold_left_app. cbn [Str.split fold_left].
    rewrite step_empty. now apply fold_good.
  - rewrite split_app, split_join by assumption.
    rewrite List.fold_left_app. now apply fold_good.
Qed.

Lemma good_no_start name :
  good_name sep name -> Str.startswith [sep] name = false.
Proof.
  intros (Hne & Hsf & _). destruct name as [|c name]; [congruence|].
  simpl in *. apply orb_false_elim in Hsf as [H _]. now rewrite H.
Qed.

Lemma good_no_end x name :
  good_name sep name -> Str.endswith [sep] (x ++ name) = false.
Proof.
  intros (Hne & Hsf & _). rewrite endswith_app_nonempty by assumption.
  unfold Str.endswith. simpl. destruct (rev name) as [|c l] eqn:E; [reflexivity|].
  assert (Hc : Str.contains sep (rev name) = false)
    by (unfold Str.contains; now rewrite existsb_rev).
  rewrite E in Hc. simpl in Hc. apply orb_false_elim in Hc as [H _].
  now rewrite H.
Qed.

Lemma join_cons n names :
  Str.join [sep] (n :: names) = n ++ concat (map (cons sep) names).
Proof.
  revert n. induction names as [|m names IH]; intros n; simpl.
  - now rewrite List.app_nil_r.
  - now rewrite <- IH.
Qed.

Lemma join_from names : forall acc,
  acc <> [] -> Str.endswith [sep] acc = false ->
  Forall (good_name sep) names ->
  fold_left join2 names acc = acc ++ concat (map (cons sep) names).
Proof.
  induction names as [|n names IH]; intros acc Hacc He Hg; simpl.
  - now rewrite List.app_nil_r.
  - inversion Hg; subst.
    assert (Hj : join2 acc n = acc ++ sep :: n).
    { unfold join2. rewrite good_no_start by assumption.
      destruct acc; [congruence|]. cbn [nonempty negb orb]. now rewrite He. }
    rewrite Hj, IH; try assumption.
    + now rewrite <- List.app_assoc.
    + now destruct acc.
    + change (acc ++ sep :: n) with (acc ++ [sep] ++ n).
      rewrite List.app_assoc. now apply good_no_end.
Qed.

(** [os.path.join] of well-formed names puts one separator between. *)
Lemma join_names a p :
  Forall (good_name sep) (a :: p) -> join a p = Str.join [sep] (a :: p).
Proof.
  intros H. inversion H; subst. unfold join. rewrite join_cons.
  apply join_from; try assumption.
  - unfold good_name in *. tauto.
  - now apply (good_no_end []).
Qed.

(** The path [os.walk] builds for the names below a directory. *)
Lemma walk_path dir names :
  dir <> [] -> names <> [] -> Forall (good_name sep) names ->
  fold_left join2 names dir = dir ++ tail_for dir names.
Proof.
  intros Hd Hne Hg. destruct names as [|n names]; [congruence|].
  inversion Hg; subst. cbn [fold_left].
  assert (Hj : join2 dir n = dir ++ tail_for dir [n]).
  { unfold join2, tail_for. rewrite good_no_start by assumption.
    destruct dir; [congruence|]. cbn [nonempty negb orb].
    now destruct (Str.endswith [sep] _). }
  rewrite Hj, join_from; try assumption.
  - unfold tail_for. rewrite !join_cons. cbn [map concat].
    rewrite (List.app_nil_r n).
    destruct (Str.endswith [sep] dir); now rewrite <- List.app_assoc.
  - now destruct dir.
  - unfold tail_for. destruct (Str.endswith [sep] dir); cbn [Str.join].
    + now apply good_no_end.
    + change (dir ++ sep :: n) with (dir ++ [sep] ++ n).
      rewrite List.app_assoc. now apply good_no_end.
Qed.

End WithSep.

End NormFacts.

Module RelFacts.
Import UrlParse OsPath PathFacts SplitFacts NormFacts PathSpec UploadSpec.

Section WithCwd.

Variable cwd : str.
Hypothesis cwd_abs : isabs cwd = true.

(** What [abspath] normalises: [p] itself or [p] behind the working
    directory; text added behind [p] stays behind. *)
Lemma absolute_form p :
  p <> [] ->
  exists A, (if isabs p then p else join2 cwd p) = A
    /\ A <> [] /\ Str.startswith [sep] A = true
    /\ Str.endswith [sep] A = Str.endswith [sep] p
    /\ forall T, (if isabs (p ++ T) then p ++ T
                  else join2 cwd (p ++ T)) = A ++ T.
Proof using cwd_abs.
  intros Hp. unfold isabs in *.
  destruct (Str.startswith [sep] p) eqn:E.
  - exists p. repeat split; try assumption.
    intros T. now rewrite startswith_app_nonempty, E.
  - unfold join2. rewrite E.
    destruct cwd as [|c cw] eqn:Ec; [discriminate|].
    cbn [nonempty negb orb].
    destruct (Str.endswith [sep] (c :: cw)).
    + exists ((c :: cw) ++ p). repeat split.
      * discriminate.
      * now rewrite startswith_app_nonempty.
      * now apply endswith_app_nonempty.
      * intros T. rewrite startswith_app_nonempty, E by assumption.
        now rewrite List.app_assoc.
    + exists ((c :: cw) ++ [sep] ++ p). repeat split.
      * discriminate.
      * now rewrite startswith_app_nonempty.
      * rewrite List.app_assoc. now apply endswith_app_nonempty.
      * intros T. rewrite startswith_app_nonempty, E by assumption.
        now rewrite <- !List.app_assoc.
Qed.

Lemma common_length_app l x : common_length l (l ++ x) = length l.
Proof.
  induction l as [|a l IH]; [now destruct x|].
  simpl. rewrite bool_decide_eq_true_2 by reflexivity. now rewrite IH.
Qed.

Lemma relpath_eq path start :
  path <> [] ->
  relpath cwd path start =
  match repeat (chars "..")
          (length (List.filter nonempty (Str.split sep (abspath cwd start)))
           - common_length
               (List.filter nonempty (Str.split sep (abspath cwd start)))
               (List.filter nonempty (Str.split sep (abspath cwd path))))
        ++ skipn
             (common_length
                (List.filter nonempty (Str.split sep (abspath cwd start)))
                (List.filter nonempty (Str.split sep (abspath cwd path))))
             (List.filter nonempty (Str.split sep (abspath cwd path)))
  with
  | [] => Ok (chars ".")
  | a :: p => Ok (join a p)
  end.
Proof. destruct path; [congruence|reflexivity]. Qed.

(** The path of well-named entries below a directory, relative to the
    directory, is their names joined by the separator. *)
Lemma relpath_below src names :
  src <> [] -> names <> [] -> Forall (good_name sep) names ->
  relpath cwd (src ++ tail_for src names) src
  = Ok (Str.join [sep] names).
Proof using cwd_abs.
  intros Hs Hn Hg.
  destruct (absolute_form src Hs) as (A & HA & Hne & Hst & Hen & HT).
  rewrite relpath_eq by (destruct src; [congruence|discriminate]).
  unfold abspath. rewrite HT, HA.
  assert (Ht : tail_for src names = tail_for A names)
    by (unfold tail_for; now rewrite Hen).
  rewrite Ht.
  rewrite !normpath_rendered.
  - rewrite components_app by assumption.
    rewrite common_length_app, Nat.sub_diag. cbn [repeat app].
    rewrite List.skipn_app, List.skipn_all, Nat.sub_diag. cbn [skipn app].
    destruct names as [|a p]; [congruence|]. change (drop 0 (a :: p)) with (a :: p). cbv iota. now rewrite join_names.
  - destruct A; [congruence|discriminate].
  - left. now rewrite startswith_app_nonempty.
  - assumption.
  - now left.
Qed.

End WithCwd.

End RelFacts.

Module WalkFacts.
Import UrlParse OsPath PathFacts SplitFacts NormFacts RelFacts PathSpec.
Import Upload UploadSpec.

Lemma entry_nested_ind (P : entry -> Prop) :
  (forall n, P (File n)) ->
  (forall n children, Forall P children -> P (Dir n children)) ->
  forall e, P e.
Proof.
  intros HF HD. fix IH 1. intros [n|n children]; [apply HF|].
  apply HD. induction children as [|c children IHc]; constructor.
  - apply IH.
  - exact IHc.
Qed.

Lemma good_dir sep n children :
  good_entry sep (Dir n children)
  <-> good_name sep n /\ Forall (good_entry sep) children.
Proof.
  cbn [good_entry]. split; intros [Hn Hc]; (split; [exact Hn|]).
  - induction children as [|c children IH]; constructor; tauto.
  - induction Hc as [|c children Hc Hcs IH]; [exact I|]. split; assumption.
Qed.

Lemma file_names_good sep es :
  Forall (good_entry sep) es -> Forall (good_name sep) (file_names es).
Proof.
  induction 1 as [|e es He Hes IH]; [constructor|].
  unfold file_names. cbn [flat_map]. fold (file_names es).
  destruct e; [constructor; assumption|assumption].
Qed.

Lemma uploads_app t1 t2 : uploads (t1 ++ t2) = uploads t1 ++ uploads t2.
Proof. apply List.flat_map_app. Qed.

(** A loop whose every pass returns with one upload call. *)
Lemma for_each_uploads {A B} (body : A -> result (list event))
    (h : B -> A) (g : B -> str * str * str) l :
  (forall b, In b l ->
     exists evs, body (h b) = Ok evs /\ uploads evs = [g b]) ->
  snd (for_each body (map h l)) = None
  /\ uploads (fst (for_each body (map h l))) = map g l.
Proof.
  induction l as [|b l IH]; intros H; [split; reflexivity|].
  destruct (H b (or_introl eq_refl)) as (evs & Hb & Hu).
  destruct IH as [IH1 IH2]; [intros b' Hb'; apply H; now right|].
  cbn [for_each map]. rewrite Hb.
  destruct (for_each body (map h l)) as [evs' r]. cbn [fst snd] in *.
  split; [exact IH1|]. rewrite uploads_app, Hu, IH2. reflexivity.
Qed.

Section WithPlatform.

Variable cwd : str.
Variable upload_file : str -> str -> str -> result unit.

Local Abbreviation posix := (Platform.posix cwd).

Lemma posix_join a b : Platform.path_join posix a b = join2 a b.
Proof. reflexivity. Qed.

Lemma posix_relpath p start :
  Platform.path_relpath posix p start = relpath cwd p start.
Proof. reflexivity. Qed.

(** The files [os.walk] reports below an entry: each with the directory
    [os.walk] gives beside its name. *)
Lemma walk_dir_files src e : forall rel,
  flat_map (fun '(root, _, files) => map (fun f => (root, f)) files)
    (walk_dir posix (fold_left join2 rel src) e)
  = map (fun r => (fold_left join2 (removelast r) src, List.last r []))
        (files_below rel e).
Proof.
  induction e as [n|n children IH] using entry_nested_ind; intros rel;
    [reflexivity|].
  cbn [walk_dir files_below flat_map]. rewrite posix_join.
  replace (join2 (fold_left join2 rel src) n)
    with (fold_left join2 (rel ++ [n]) src)
    by (now rewrite List.fold_left_app).
  rewrite List.map_app, List.map_map. f_equal.
  - apply List.map_ext. intros f.
    now rewrite List.removelast_last, List.last_last.
  - induction IH as [|c children Hc Hcs IHc]; [reflexivity|].
    cbn [flat_map]. rewrite List.flat_map_app, List.map_app, Hc, IHc.
    reflexivity.
Qed.

Lemma files_below_good e : forall rel,
  good_entry sep e -> Forall (good_name sep) rel ->
  Forall (fun r => exists d f, r = d ++ [f] /\ Forall (good_name sep) r)
    (files_below rel e).
Proof.
  induction e as [n|n children IH] using entry_nested_ind; intros rel He Hrel;
    [constructor|].
  apply good_dir in He as [Hn Hc].
  assert (Hrel' : Forall (good_name sep) (rel ++ [n]))
    by (apply List.Forall_app; split; [assumption|now constructor]).
  cbn [files_below]. apply List.Forall_app. split.
  - apply List.Forall_map. eapply List.Forall_impl;
      [|exact (file_names_good _ _ Hc)].
    intros f Hf. exists (rel ++ [n]), f. split; [reflexivity|].
    apply List.Forall_app. split; [assumption|now constructor].
  - clear Hn. induction IH as [|c children Hc' Hcs IHc]; [constructor|].
    inversion Hc; subst. cbn [flat_map]. apply List.Forall_app. split.
    + now apply Hc'.
    + now apply IHc.
Qed.

Hypothesis cwd_abs : isabs cwd = true.

(** One pass of the loop over a well-named file. *)
Lemma upload_one_below src bucket d f :
  src <> [] -> Forall (good_name sep) (d ++ [f]) ->
  exists evs,
    upload_one posix upload_file src bucket (fold_left join2 d src) f
    = Ok evs
    /\ uploads evs = [(fold_left join2 (d ++ [f]) src, bucket,
                       Str.join [sep] (d ++ [f]))].
Proof using cwd_abs.
  intros Hs Hg. unfold upload_one. rewrite posix_join, posix_relpath.
  replace (join2 (fold_left join2 d src) f)
    with (fold_left join2 (d ++ [f]) src)
    by (now rewrite List.fold_left_app).
  assert (Hne : d ++ [f] <> []) by (now destruct d).
  rewrite (walk_path src (d ++ [f]) Hs Hne Hg).
  rewrite (relpath_below cwd cwd_abs src (d ++ [f]) Hs Hne Hg).
  cbn [bind]. eexists. split; [reflexivity|].
  now destruct (upload_file _ _ _).
Qed.

End WithPlatform.

End WalkFacts.
Module UploadFacts.
Import UrlParse OsPath PathSpec Upload UploadSpec KeySpec WalkFacts.

Lemma falsy_some s : s <> [] -> falsy (Some s) = false.
Proof. destruct s; [congruence|reflexivity]. Qed.

Section WithPlatform.

Variable cwd : str.
Variable upload_file : str -> str -> str -> result unit.
Variable listing : str -> option (list entry).

Local Abbreviation posix := (Platform.posix cwd).

Hypothesis cwd_abs : isabs cwd = true.

(** What [os.walk] reports for a listed directory, file by file. *)
Lemma walk_files src tree :
  flat_map (fun '(root, _, files) => map (fun f => (root, f)) files)
    (walk posix src (Some tree))
  = map (fun r => (fold_left join2 (removelast r) src, List.last r []))
        (files_in tree).
Proof.
  unfold walk, files_in. cbn [flat_map].
  rewrite List.map_app, List.map_map. f_equal.
  induction tree as [|e tree IH]; [reflexivity|].
  cbn [flat_map]. rewrite List.flat_map_app, List.map_app, IH.
  f_equal. exact (walk_dir_files cwd src e []).
Qed.

Lemma files_in_good tree :
  good_tree sep tree ->
  Forall (fun r => exists d f, r = d ++ [f] /\ Forall (good_name sep) r)
    (files_in tree).
Proof.
  intros Hg. unfold files_in. apply List.Forall_app. split.
  - apply List.Forall_map. eapply List.Forall_impl;
      [|exact (file_names_good _ _ Hg)].
    intros f Hf. exists [], f. split; [reflexivity|now constructor].
  - induction Hg as [|e tree He Ht IH]; [constructor|].
    cbn [flat_map]. apply List.Forall_app. split; [|exact IH].
    apply files_below_good; [exact He|constructor].
Qed.

(** The loop over a listed tree of well-named entries: no exception, and
    one upload call per file, under the names joined by the separator. *)
Lemma upload_loop_uploads src bucket tree :
  src <> [] -> listing src = Some tree -> good_tree sep tree ->
  exists events,
    upload_loop posix upload_file listing src bucket = (events, None)
    /\ posix_uploads src bucket tree events.
Proof using cwd_abs.
  intros Hs Hl Hg. unfold upload_loop. rewrite Hl, walk_files.
  pose proof (files_in_good tree Hg) as Hf.
  rewrite List.Forall_forall in Hf.
  destruct (for_each_uploads
              (fun '(root, file) =>
                 upload_one posix upload_file src bucket root file)
              (fun r => (fold_left join2 (removelast r) src,
                         List.last r []))
              (fun r => (fold_left join2 r src, bucket,
                         Str.join [sep] r))
              (files_in tree)) as [H1 H2].
  - intros r Hr. destruct (Hf r Hr) as (d & f & -> & Hgood).
    rewrite List.removelast_last, List.last_last.
    now apply upload_one_below.
  - destruct (for_each _ _) as [events r]. cbn [fst snd] in *. subst r.
    exists events. split; [reflexivity|exact H2].
Qed.

End WithPlatform.

End UploadFacts.

Module UploadClaims.
Import UrlParse OsPath Upload UploadSpec KeySpec UploadFacts.

Section WithPlatform.

Variable cwd : str.
Variable getenv : str -> option str.
Variable boto3_client : str -> str -> result unit.
Variable upload_file : str -> str -> str -> result unit.
Variable listing : str -> option (list entry).

(** C7, as the code has it, on a POSIX platform: with the four values
    given, the client created and the source directory listed as a tree of
    entries named as a file system names them, upload_directory_to_s3 ends
    without an exception and issues exactly one upload call per file of the
    tree, in the order of the walk: the file's path is the one os.walk builds
    from the source directory, and its key is what os.path.relpath gives, the
    names from the source directory down to the file joined by slashes.  The
    code translates no separator: the key reads sub/b.txt because the
    platform's separator is the slash. *)
Theorem keys_are_relative_paths src bucket key secret tree :
  isabs cwd = true ->
  src <> [] -> bucket <> [] -> key <> [] -> secret <> [] ->
  boto3_client key secret = Ok tt ->
  listing src = Some tree ->
  good_tree sep tree ->
  exists events,
    upload_directory_to_s3 (Platform.posix cwd) getenv boto3_client
      upload_file listing
      (Some src) (Some bucket) (Some key) (Some secret) = (events, None)
    /\ posix_uploads src bucket tree events.
Proof using Type.
  intros Hcwd Hs Hb Hk Hsec Hc Hl Hg.
  destruct (upload_loop_uploads cwd upload_file listing Hcwd
              src bucket tree Hs Hl Hg) as (events & He & Hu).
  unfold upload_directory_to_s3.
  rewrite !falsy_some by assumption. cbn [text_of].
  rewrite Hc, He. eexists. split; [reflexivity|exact Hu].
Qed.

End WithPlatform.

End UploadClaims.

Module UploadExamples.
Import UrlParse OsPath Upload UploadSpec KeySpec Trees.

Lemma small_good sep :
  Str.contains sep (chars "a.txt") = false ->
  Str.contains sep (chars "sub") = false ->
  Str.contains sep (chars "b.txt") = false ->
  good_tree sep small.
Proof.
  intros Ha Hs Hb. unfold good_tree, small.
  repeat constructor; try assumption; discriminate.
Qed.

Lemma keys_are_relative_paths_witness :
  exists events,
    run (Platform.posix (chars "/home/u")) small = (events, None)
    /\ posix_uploads (chars "site") (chars "bucket") small events.
Proof.
  apply (UploadClaims.keys_are_relative_paths (chars "/home/u")
           (fun _ => None) (fun _ _ => Ok tt) (fun _ _ _ => Ok tt)
           (fun _ => Some small));
    try discriminate; try reflexivity.
  apply small_good; reflexivity.
Defined.

(** The specification's scenario on a POSIX platform. *)
Example posix_keys :
  uploads (fst (run (Platform.posix (chars "/home/u")) small))
  = [(chars "site/a.txt", chars "bucket", chars "a.txt");
     (chars "site/sub/b.txt", chars "bucket", chars "sub/b.txt")].
Proof. vm_compute. reflexivity. Qed.

(** The same tree on Windows, with and without a trailing slash on the
    source directory. *)
Example windows_keys :
  uploads (fst (run (Platform.nt (chars "C:\work")) small))
  = [(chars "site\a.txt", chars "bucket", chars "a.txt");
     (chars "site\sub\b.txt", chars "bucket", chars "sub\b.txt")].
Proof. vm_compute. reflexivity. Qed.

(** C7 as worded fails on Windows: the tree of a.txt and sub/b.txt is
    uploaded under a key that keeps the backslash. *)
Lemma backslash_key_not_translated :
  files_in small = [[chars "a.txt"]; [chars "sub"; chars "b.txt"]]
  /\ keys (fst (run (Platform.nt (chars "C:\work")) small))
     = [chars "a.txt"; chars "sub\b.txt"]
  /\ ~ storage_keys small (fst (run (Platform.nt (chars "C:\work")) small)).
Proof.
  split; [reflexivity|]. split; [vm_compute; reflexivity|].
  unfold storage_keys. vm_compute. discriminate.
Qed.

End UploadExamples.

Module MatchSound.
Import Re ReFacts ReSpec.

Lemma star_loop_sound s k g : forall l p m,
  star_loop s k g p l = Some m ->
  exists w l' p',
    l = w ++ l' /\ Forall (fun c => cset_mem s c = true) w
    /\ k (MState p' l' g) = Some m.
Proof.
  induction l as [|c l IH]; intros p m H; cbn [star_loop] in H.
  - exists [], [], p. repeat split; [constructor|exact H].
  - destruct (cset_mem s c) eqn:Hc.
    + destruct (star_loop s k g (Some c) l) as [r|] eqn:Hs.
      * injection H as ->. apply IH in Hs as (w & l' & p' & -> & Hw & Hk).
        exists (c :: w), l', p'. repeat split; [constructor; assumption|exact Hk].
      * exists [], (c :: l), p. repeat split; [constructor|exact H].
    + exists [], (c :: l), p. repeat split; [constructor|exact H].
Qed.

(** Whatever the matcher accepts, the pattern takes: the continuation was
    entered behind a text the pattern describes. *)
Lemma rmatch_sound r : forall st k m,
  rmatch r st k = Some m ->
  exists st' w,
    k st' = Some m /\ rest st = w ++ rest st'
    /\ takes r w (grp st) (grp st').
Proof.
  induction r as [|s|r1 IH1 r2 IH2|s|s|r IH| | |r IH|r IH]; intros st k m H;
    cbn [rmatch] in H.
  - exists st, []. now repeat split.
  - destruct (rest st) as [|c l] eqn:Hr; [discriminate|].
    destruct (cset_mem s c) eqn:Hc; [|discriminate].
    exists (MState (Some c) l (grp st)), [c]. cbn [rest grp takes].
    repeat split; [exact H|]. now exists c.
  - apply IH1 in H as (st1 & w1 & H & Hr1 & Ht1).
    apply IH2 in H as (st2 & w2 & H & Hr2 & Ht2).
    exists st2, (w1 ++ w2). split; [exact H|]. split.
    + now rewrite Hr1, Hr2, List.app_assoc.
    + cbn [takes]. now exists w1, w2, (grp st1).
  - apply star_loop_sound in H as (w & l' & p' & Hr & Hw & Hk).
    exists (MState p' l' (grp st)), w. cbn [rest grp takes]. now repeat split.
  - destruct (rest st) as [|c l] eqn:Hr; [discriminate|].
    destruct (cset_mem s c) eqn:Hc; [|discriminate].
    apply star_loop_sound in H as (w & l' & p' & -> & Hw & Hk).
    exists (MState p' l' (grp st)), (c :: w). cbn [rest grp takes].
    repeat split; [exact Hk|discriminate|]. now constructor.
  - destruct (rmatch r st k) as [x|] eqn:Hm.
    + injection H as ->. apply IH in Hm as (st' & w & Hk & Hr & Ht).
      exists st', w. cbn [takes]. repeat split; [exact Hk|exact Hr|now right].
    + exists st, []. cbn [takes]. repeat split; [exact H|now left].
  - exists st, []. cbn [takes]. repeat split.
    destruct (prev st) as [c|]; [|exact H].
    now destruct (Ascii.eqb c Str.newline).
  - exists st, []. cbn [takes]. repeat split.
    destruct (rest st) as [|c l]; [exact H|].
    now destruct (Ascii.eqb c Str.newline).
  - exists st, []. cbn [takes]. repeat split.
    now destruct (rmatch r st Some).
  - apply IH in H as (st1 & w & Hk & Hr & Ht).
    eexists (MState (prev st1) (rest st1) _), w. cbn [rest grp takes].
    split; [exact Hk|]. split; [exact Hr|]. split; [now exists (grp st1)|].
    rewrite Hr, List.length_app, Nat.add_sub.
    now rewrite List.firstn_app, Nat.sub_diag, List.firstn_all, List.app_nil_r.
Qed.

Lemma takes_lit l : forall w g g',
  takes (lit l) w g g' -> w = l /\ g' = g.
Proof.
  induction l as [|c l IH]; intros w g g' H; cbn [lit takes] in H.
  - exact H.
  - destruct H as (w1 & w2 & g1 & -> & [(c' & -> & Hc) ->] & H2).
    apply IH in H2 as [-> ->]. cbn [cset_mem] in Hc.
    apply Ascii.eqb_eq in Hc. now subst c'.
Qed.

(** A search that finds a match found it at some position of the text. *)
Lemma search_from_sound r : forall s p m,
  search_from r p s = Some m ->
  exists a b p', s = a ++ b /\ attempt r p' b = Some m.
Proof.
  induction s as [|c s IH]; intros p m H; rewrite RequestClaims.search_from_hit_eq in H.
  - destruct (attempt r p []) eqn:Ha; [|discriminate].
    injection H as ->. now exists [], [], p.
  - destruct (attempt r p (c :: s)) eqn:Ha.
    + injection H as ->. now exists [], (c :: s), p.
    + apply IH in H as (a & b & p' & -> & H). now exists (c :: a), b, p'.
Qed.

End MatchSound.

Module RequestFacts.
Import Re ReFacts ReSpec Fetch MatchSound RequestSpec HeaderPatternFacts.
Import LineFacts.

(** What the URL pattern captures. *)
Lemma url_pattern_takes w g g' :
  takes url_pattern w g g' ->
  exists ws q url q',
    w = chars "curl" ++ ws ++ q ++ url ++ q'
    /\ ws <> [] /\ Forall (fun c => Str.is_space c = true) ws
    /\ (q = [] \/ exists c, q = [c] /\ cset_mem quote c = true)
    /\ http_text url /\ g' = Some url.
Proof.
  unfold url_pattern. cbn [takes].
  intros (w1 & w2 & g1 & -> & H1 & ws & w3 & g2 & -> & (Hws & Hsp & ->)
          & q & w4 & g3 & -> & Hq & url & q' & g4 & -> & [[g5 Hu] ->] & Hq').
  apply takes_lit in H1 as [-> ->].
  exists ws, q, url, q'. split; [reflexivity|]. split; [exact Hws|].
  split; [exact Hsp|]. split.
  { destruct Hq as [[-> _]|[(c & -> & Hc) _]]; [now left|right; now exists c]. }
  split.
  - destruct Hu as (h & w5 & g6 & -> & Hh & s & w6 & g7 & -> & Hs
                    & l & tail & g8 & -> & Hl & Hne & Htail & _).
    apply takes_lit in Hh as [-> _]. apply takes_lit in Hl as [-> _].
    exists tail. split; [exact Hne|]. split; [exact Htail|].
    destruct Hs as [[-> _]|[(c & -> & Hc) _]]; [now left|right].
    cbn [cset_mem] in Hc. apply Ascii.eqb_eq in Hc. now subst c.
  - destruct Hq' as [[_ ->]|[_ ->]]; reflexivity.
Qed.

Lemma search_url s m :
  search url_pattern s = Some m ->
  http_text (group1 m) /\ after_curl (group1 m) s.
Proof.
  intros H. apply search_from_sound in H as (a & b & p & -> & H).
  apply rmatch_sound in H as (st' & w & Hk & Hr & Ht).
  injection Hk as ->. cbn [rest grp] in *.
  apply url_pattern_takes in Ht as (ws & q & url & q' & -> & Hws & Hsp & Hq
                                    & Hu & Hg).
  unfold group1. rewrite Hg. split; [exact Hu|].
  exists a, ws, q, (q' ++ rest m). rewrite Hr, <- !List.app_assoc.
  now repeat split.
Qed.

Lemma header_item_cases h :
  match Str.cut (chars ": ") h with
  | Some (k, v) => header_item h = Ok (k, v)
  | None =>
      header_item h = Raise (IndexError (chars "list index out of range"))
  end.
Proof.
  unfold header_item, Str.split1.
  destruct (Str.cut (chars ": ") h) as [[k v]|]; reflexivity.
Qed.

Lemma header_dict_raises headers : forall d h,
  In h headers -> Str.cut (chars ": ") h = None ->
  header_dict headers d
  = Raise (IndexError (chars "list index out of range")).
Proof.
  induction headers as [|x headers IH]; intros d h Hin Hc; [destruct Hin|].
  cbn [header_dict]. pose proof (header_item_cases x) as Hx.
  destruct (Str.cut (chars ": ") x) as [[k v]|] eqn:Hcx.
  - rewrite Hx. cbn [bind]. destruct Hin as [->|Hin]; [congruence|].
    now apply IH with h.
  - now rewrite Hx.
Qed.

Lemma header_dict_returns headers : forall d,
  Forall (fun h => Str.cut (chars ": ") h <> None) headers ->
  exists d', header_dict headers d = Ok d'.
Proof.
  induction headers as [|x headers IH]; intros d H; [now exists d|].
  inversion H as [|? ? Hx Hs]; subst. cbn [header_dict].
  pose proof (header_item_cases x) as Hi.
  destruct (Str.cut (chars ": ") x) as [[k v]|]; [|congruence].
  rewrite Hi. cbn [bind]. apply IH, Hs.
Qed.

Lemma header_dict_cases headers : forall d,
  match header_dict headers d with
  | Ok _ => Forall (fun h => Str.cut (chars ": ") h <> None) headers
  | Raise e =>
      e = IndexError (chars "list index out of range")
      /\ Exists (fun h => Str.cut (chars ": ") h = None) headers
  end.
Proof.
  induction headers as [|x headers IH]; intros d; [constructor|].
  cbn [header_dict]. pose proof (header_item_cases x) as Hx.
  destruct (Str.cut (chars ": ") x) as [[k v]|] eqn:Hc; rewrite Hx; cbn [bind].
  - specialize (IH (<[k := v]> d)). cbn [fst snd].
    destruct (header_dict headers (<[k := v]> d)).
    + constructor; [congruence|exact IH].
    + destruct IH as [-> IH]. split; [reflexivity|now apply List.Exists_cons_tl].
  - split; [reflexivity|now apply List.Exists_cons_hd].
Qed.

Lemma cut_none_startswith sep s :
  sep <> [] -> Str.cut sep s = None -> Str.startswith sep s = false.
Proof.
  intros Hsep H. destruct s; cbn [Str.cut] in H.
  - destruct (Str.startswith sep []); [discriminate|reflexivity].
  - destruct (Str.startswith sep (a :: s)); [discriminate|reflexivity].
Qed.

Lemma cut_none_cons sep c s :
  Str.cut sep (c :: s) = None -> Str.cut sep s = None.
Proof.
  cbn [Str.cut]. destruct (Str.startswith sep (c :: s)); [discriminate|].
  now destruct (Str.cut sep s) as [[a b]|].
Qed.

(** A text without the flag holds no header. *)
Lemma findall_no_flag s : forall p,
  Str.cut (chars "-H") s = None -> findall_from header_pattern 0 p s = [].
Proof.
  induction s as [|c s IH]; intros p H.
  - apply findall_miss_nil, attempt_header_none. reflexivity.
  - rewrite findall_miss.
    + apply IH. now apply cut_none_cons in H.
    + apply attempt_header_none. apply cut_none_startswith; [discriminate|exact H].
Qed.

Lemma dict_of_app (hs1 hs2 : list (str * str)) (d : gmap str str) :
  dict_of (hs1 ++ hs2) d = dict_of hs2 (dict_of hs1 d).
Proof. apply List.fold_left_app. Qed.

End RequestFacts.

Module RequestExtras.
Import Re ReSpec Fetch RequestSpec RequestFacts HeaderPatternFacts RequestClaims.

(** extract_url returns only what it validated: an http or https URL free
    of white space and quotes that stands in the request description
    behind the word curl, and whose text before the first question mark ends
    in .m3u8. *)
Theorem extract_url_sound curl_command url :
  extract_url curl_command = Ok url ->
  http_text url
  /\ after_curl url curl_command
  /\ Str.endswith (chars ".m3u8") (hd [] (Str.split "?" url)) = true.
Proof.
  unfold extract_url.
  destruct (search url_pattern curl_command) as [m|] eqn:Hs; [|discriminate].
  destruct (Str.endswith _ _) eqn:He; [|discriminate].
  cbn [negb]. intros [= <-]. apply search_url in Hs as [Hu Ha].
  now repeat split.
Qed.

(** extract_headers raises exactly when a header it found has no
    colon-space between name and value, and then it raises IndexError;
    otherwise it returns a dictionary. *)
Theorem extract_headers_raises_iff curl_command :
  match extract_headers curl_command with
  | Ok _ =>
      Forall (fun h => Str.cut (chars ": ") h <> None)
        (findall header_pattern curl_command)
  | Raise e =>
      e = IndexError (chars "list index out of range")
      /\ Exists (fun h => Str.cut (chars ": ") h = None)
           (findall header_pattern curl_command)
  end.
Proof. apply header_dict_cases. Qed.

(** A header without a value stops the run before it starts: whatever
    the URL, fetch_and_save_m3u8_and_ts raises IndexError with nothing
    requested, written or printed. *)
Theorem bare_header_stops_run bhe fs http_get curl_command h :
  In h (findall header_pattern curl_command) ->
  Str.cut (chars ": ") h = None ->
  forall fuel save_directory w,
    fetch_and_save_m3u8_and_ts bhe fs http_get fuel curl_command save_directory w
    = (Raise (IndexError (chars "list index out of range")), w).
Proof.
  intros Hin Hc fuel save_directory w.
  unfold fetch_and_save_m3u8_and_ts, mbind, lift, extract_headers.
  now rewrite (header_dict_raises _ ∅ h Hin Hc).
Qed.

(** A header name declared more than once keeps the value of its last
    declaration. *)
Theorem last_header_wins url hs1 k v hs2 :
  Str.cut (chars "-H") url = None ->
  Forall well_formed_header (hs1 ++ (k, v) :: hs2) ->
  ~ In k (map fst hs2) ->
  exists d,
    extract_headers (request_description url (hs1 ++ (k, v) :: hs2)) = Ok d
    /\ d !! k = Some v.
Proof.
  intros Hu Hw Hk. unfold extract_headers.
  rewrite findall_description by assumption.
  rewrite header_dict_ok by assumption.
  eexists. split; [reflexivity|].
  rewrite dict_of_app, dict_of_cons, dict_of_other by assumption.
  cbn [fst snd]. apply lookup_insert_eq.
Qed.

(** A request description without the flag -H gives the empty
    dictionary. *)
Theorem no_flag_no_headers curl_command :
  Str.cut (chars "-H") curl_command = None ->
  extract_headers curl_command = Ok ∅.
Proof.
  intros H. unfold extract_headers, findall. now rewrite findall_no_flag.
Qed.

End RequestExtras.

Module RequestExtrasExamples.
Import Re ReSpec Fetch RequestSpec RequestExtras.

Lemma extract_url_sound_witness :
  http_text Web.master
  /\ after_curl Web.master Web.command
  /\ Str.endswith (chars ".m3u8") (hd [] (Str.split "?" Web.master)) = true.
Proof.
  apply (extract_url_sound Web.command Web.master). vm_compute. reflexivity.
Defined.

Lemma last_header_wins_witness :
  exists d,
    extract_headers
      (request_description Web.master
         ([(chars "Accept", chars "a")]
          ++ (chars "Accept", chars "b") :: [(chars "Range", chars "r")]))
    = Ok d
    /\ d !! chars "Accept" = Some (chars "b").
Proof.
  apply (last_header_wins Web.master [(chars "Accept", chars "a")]
           (chars "Accept") (chars "b") [(chars "Range", chars "r")]).
  - vm_compute. reflexivity.
  - repeat constructor; try (vm_compute; reflexivity).
  - cbn [map fst]. intros [H|[]]. discriminate.
Defined.

Lemma no_flag_no_headers_witness :
  extract_headers (chars "curl 'https://x.test/master.m3u8'") = Ok ∅.
Proof.
  apply (no_flag_no_headers (chars "curl 'https://x.test/master.m3u8'")).
  vm_compute. reflexivity.
Defined.

Lemma bare_header_stops_run_witness :
  fetch_and_save_m3u8_and_ts Samples.no_host_error Samples.plain_disk Web.site 5
    (chars "curl 'https://x.test/master.m3u8' -H 'Accept'")
    Defaults.downloads start
  = (Raise (IndexError (chars "list index out of range")), start).
Proof.
  apply (bare_header_stops_run Samples.no_host_error Samples.plain_disk Web.site
           (chars "curl 'https://x.test/master.m3u8' -H 'Accept'")
           (chars "Accept")).
  - vm_compute. now left.
  - vm_compute. reflexivity.
Defined.

End RequestExtrasExamples.

Module ReferenceExtras.
Import Re Pos ReFacts Spec RefSpec Fetch RefFacts LineFacts ReferenceClaims.
Import PathFacts NormFacts RunSpec.

Lemma ends_in_inv ext : forall l,
  ends_in ext l = true ->
  exists a r, l = a ++ ext ++ r /\ query_or_end r = true.
Proof.
  induction l as [|c l IH]; intros H; cbn [ends_in] in H;
    apply orb_prop in H as [H|H]; try discriminate.
  - apply andb_prop in H as [H1 H2]. apply startswith_split in H1.
    exists [], (skipn (length ext) []). now split.
  - apply andb_prop in H as [H1 H2]. apply startswith_split in H1.
    exists [], (skipn (length ext) (c :: l)). now split.
  - apply IH in H as (a & r & -> & Hq). now exists (c :: a), r.
Qed.

Section WithLibrary.

Variable bhe : str -> option str.
Variable ext : str.
Hypothesis ext_nonempty : ext <> [].
Hypothesis ext_no_newline : no_newline ext.

(** A line that ends in a character the extension does not hold, and has
    no question mark, is no reference line. *)
Lemma closed_line_no_reference c l :
  Str.contains c ext = false ->
  Str.endswith [c] l = true -> Str.contains "?" l = false ->
  reference_line ext l = false.
Proof using ext_nonempty.
  intros Hc He Hq. unfold reference_line.
  destruct (ends_in ext l) eqn:Hi; [|apply andb_false_r].
  exfalso. apply ends_in_inv in Hi as (a & r & -> & Hr).
  destruct r as [|q r].
  - rewrite List.app_nil_r, endswith_app_nonempty in He by assumption.
    apply endswith_contains in He. congruence.
  - cbn [query_or_end] in Hr. apply Ascii.eqb_eq in Hr. subst q.
    rewrite !contains_app in Hq. cbn [Str.contains existsb] in Hq.
    rewrite Ascii.eqb_refl in Hq. cbn [orb] in Hq.
    now rewrite !orb_true_r in Hq.
Qed.

(** A manifest whose lines end in a carriage return gives no reference:
    the pattern wants the extension, or the query behind it, right at the
    line feed.  Only a line with a question mark can still match. *)
Theorem carriage_return_lines_not_found ls base :
  Str.contains cr ext = false ->
  Forall (fun l => no_newline l /\ Str.endswith [cr] l = true
                   /\ Str.contains "?" l = false) ls ->
  find_references bhe (join_lines ls) base ext = Ok [].
Proof using ext_nonempty ext_no_newline.
  intros Hc Hls.
  rewrite (find_references_lines bhe ext ext_nonempty ext_no_newline).
  assert (Hr : reference_lines ext (join_lines ls)
               = List.filter (reference_line ext) ls).
  { apply reference_lines_join; try assumption.
    eapply List.Forall_impl; [|exact Hls]. cbn beta. tauto. }
  rewrite Hr.
  replace (List.filter (reference_line ext) ls) with (@nil str); [reflexivity|].
  symmetry. clear Hr.
  induction Hls as [|l ls (_ & He & Hq) _ IH]; [reflexivity|].
  cbn [List.filter]. now rewrite (closed_line_no_reference cr l Hc He Hq).
Qed.

End WithLibrary.

End ReferenceExtras.

Module ReferenceExtrasExamples.
Import Re Pos Spec RefSpec Fetch RunSpec ReferenceExtras.

Lemma carriage_return_lines_not_found_witness :
  find_references Samples.no_host_error (join_lines Web2.crlf_body)
    Samples.sample_base (chars ".ts") = Ok [].
Proof.
  apply (carriage_return_lines_not_found Samples.no_host_error (chars ".ts")).
  - discriminate.
  - repeat constructor; discriminate.
  - reflexivity.
  - repeat constructor; try discriminate; reflexivity.
Defined.

End ReferenceExtrasExamples.

Module NameExtras.
Import UrlParse OsPath Fetch NameSpec RunSpec PathFacts.

Lemma basename_no_sep p : Str.contains sep (basename p) = false.
Proof.
  unfold basename. destruct (rcut sep p) as [[head tail]|] eqn:E.
  - now apply rcut_some in E as (_ & _ & H).
  - now apply rcut_none.
Qed.

Lemma url_file_name bhe url name :
  get_filename_from_url bhe url = Ok name -> file_name name.
Proof.
  unfold get_filename_from_url.
  destruct (urlparse bhe url []) as [p|e]; [|discriminate].
  cbn [bind]. destruct (nonempty (basename (p_path p))) eqn:E.
  - intros [= <-]. split; [|apply basename_no_sep].
    destruct (basename (p_path p)); [discriminate|discriminate].
  - intros [= <-]. split; [discriminate|reflexivity].
Qed.

(** The name of a saved file is never empty and never holds a slash. *)
Theorem get_filename_no_slash bhe url name :
  get_filename_from_url bhe url = Ok name ->
  name <> [] /\ Str.contains "/" name = false.
Proof. intros H. exact (url_file_name bhe url name H). Qed.

Lemma name_no_start name :
  file_name name -> Str.startswith [sep] name = false.
Proof.
  intros [Hne Hs]. destruct name as [|c name]; [congruence|].
  cbn [Str.contains existsb] in Hs. apply orb_false_elim in Hs as [H _].
  cbn [Str.startswith]. unfold sep. now rewrite H.
Qed.

(** Where a name goes below a directory. *)
Lemma save_path_eq dir name :
  file_name name ->
  save_path dir name
  = if nonempty dir && negb (Str.endswith [sep] dir)
    then dir ++ sep :: name else dir ++ name.
Proof.
  intros Hn. unfold save_path, join. cbn [fold_left].
  unfold join2 at 2. cbn [Str.startswith].
  destruct dir as [|c dir].
  - cbn [nonempty negb orb andb app]. unfold join2.
    rewrite (name_no_start _ Hn). reflexivity.
  - cbn [nonempty negb orb andb].
    destruct (Str.endswith [sep] (c :: dir)) eqn:E; cbn [negb].
    + rewrite List.app_nil_r. unfold join2.
      rewrite (name_no_start _ Hn), E. cbn [nonempty negb orb]. reflexivity.
    + unfold join2. rewrite (name_no_start _ Hn).
      assert (He : Str.endswith [sep] ((c :: dir) ++ [sep] ++ []) = true).
      { unfold Str.endswith. rewrite List.rev_app_distr. reflexivity. }
      rewrite He. cbn [nonempty app negb orb]. rewrite <- List.app_assoc.
      reflexivity.
Qed.

(** Without a directory the save path has no directory part. *)
Lemma save_path_bare name :
  file_name name -> dirname (save_path [] name) = [].
Proof.
  intros Hn. rewrite (save_path_eq [] name Hn). cbn [nonempty andb app].
  unfold dirname. destruct (rcut sep name) as [[head tail]|] eqn:E;
    [|reflexivity].
  apply rcut_some in E as (-> & (h & ->) & _). destruct Hn as [_ Hs].
  rewrite !contains_app in Hs. cbn [Str.contains existsb] in Hs.
  rewrite Ascii.eqb_refl in Hs. cbn [orb] in Hs.
  now rewrite orb_true_r in Hs.
Qed.

End NameExtras.

Module NameExtrasExamples.
Import Fetch RunSpec NameExtras.

Lemma get_filename_no_slash_witness :
  chars "seg.ts" <> [] /\ Str.contains "/" (chars "seg.ts") = false.
Proof.
  apply (get_filename_no_slash Samples.no_host_error Echo.first_url).
  vm_compute. reflexivity.
Defined.

End NameExtrasExamples.

Module RunFacts.
Import UrlParse OsPath Fetch NameSpec RunSpec EventSpec LoopSpec LoopSpec2.
Import PathFacts FrameFacts BodyFacts LoopFacts NameExtras.

Lemma requests_app t1 t2 : requests (t1 ++ t2) = requests t1 ++ requests t2.
Proof. apply List.flat_map_app. Qed.

Lemma written_app t1 t2 : written (t1 ++ t2) = written t1 ++ written t2.
Proof. apply List.flat_map_app. Qed.

Lemma behaved_requests headers dir t :
  Forall (well_behaved headers dir) t ->
  Forall (fun r => r.2 = headers) (requests t).
Proof.
  induction 1 as [|e t He Ht IH]; [constructor|].
  unfold requests. cbn [flat_map]. fold (requests t).
  apply List.Forall_app. split; [|exact IH].
  destruct e; repeat constructor. exact He.
Qed.

Lemma behaved_written headers dir t :
  Forall (well_behaved headers dir) t ->
  Forall (saved_in dir) (written t).
Proof.
  induction 1 as [|e t He Ht IH]; [constructor|].
  unfold written. cbn [flat_map]. fold (written t).
  apply List.Forall_app. split; [|exact IH].
  destruct e; repeat constructor. exact He.
Qed.

Section WithRun.

Variable bhe : str -> option str.
Variable fs : disk.
Variable http_get : str -> gmap str str -> result response.
Variable headers : gmap str str.
Variable save_directory : str.

Local Abbreviation manifest_loop := (manifest_loop bhe fs http_get headers save_directory).
Local Abbreviation segment_loop := (segment_loop bhe fs http_get headers save_directory).
Local Abbreviation nested := (nested bhe fs http_get headers save_directory).
Local Abbreviation segments := (segments bhe fs http_get headers save_directory).
Local Abbreviation drain := (drain bhe fs http_get headers save_directory).
Local Abbreviation visited := (visited bhe fs http_get headers save_directory).
Local Abbreviation manifest_events := (manifest_events bhe fs http_get headers save_directory).
Local Abbreviation segment_events := (segment_events bhe fs http_get headers save_directory).

Lemma manifest_events_behaved u :
  Forall (well_behaved headers save_directory) (manifest_events u).
Proof.
  unfold LoopSpec.manifest_events. unfold_run.
  destruct (http_get u headers) as [resp|e]; cbv beta iota;
    [|repeat constructor].
  destruct (status_code resp =? 200)%Z; cbv beta iota; [|repeat constructor].
  destruct (get_filename_from_url bhe u) as [name|e] eqn:Hn; cbv beta iota;
    [|repeat constructor].
  assert (Hs : saved_in save_directory
                 (OsPath.join save_directory [[]; name])).
  { exists name. split; [now apply url_file_name in Hn|reflexivity]. }
  destruct (dirname _); cbv beta iota; [repeat constructor|].
  destruct (makedirs_error fs _); cbv beta iota; [repeat constructor|].
  destruct (open_error fs _); cbv beta iota; [repeat constructor|].
  destruct (find_references bhe (text resp) u _); cbv beta iota;
    [|repeat constructor; exact Hs].
  destruct (find_references bhe (text resp) u _); cbv beta iota;
    repeat constructor; exact Hs.
Qed.

Lemma segment_events_behaved u :
  Forall (well_behaved headers save_directory) (segment_events u).
Proof.
  unfold LoopSpec.segment_events. unfold_run.
  destruct (get_filename_from_url bhe u) as [name|e] eqn:Hn; cbv beta iota;
    [|repeat constructor].
  assert (Hs : saved_in save_directory
                 (OsPath.join save_directory [[]; name])).
  { exists name. split; [now apply url_file_name in Hn|reflexivity]. }
  destruct (http_get u headers) as [resp|e]; cbv beta iota;
    [|repeat constructor].
  destruct (status_code resp =? 200)%Z; cbv beta iota; [|repeat constructor].
  destruct (dirname _); cbv beta iota; [repeat constructor|].
  destruct (makedirs_error fs _); cbv beta iota; [repeat constructor|].
  destruct (open_error fs _); cbv beta iota; repeat constructor; exact Hs.
Qed.

(** The first loop's events: the passes over the manifests it visits. *)
Lemma manifest_loop_events fuel : forall i ms ts w,
  exists F,
    manifest_loop fuel i ms ts w
    = (Ok (drain fuel i ms ts),
       World (F ∪ files w)
         (trace w ++ concat (map manifest_events (visited fuel i ms)))).
Proof.
  induction fuel as [|fuel IH]; intros i ms ts w; simpl;
    destruct (nth_error ms i) as [u|] eqn:Hu;
    try (exists ∅; unfold ret;
         now rewrite (left_id_L ∅ (∪)), List.app_nil_r, world_eta).
  unfold mbind.
  destruct (manifest_body_run bhe fs http_get headers save_directory u ms ts w)
    as [F1 ->].
  cbn [fst snd].
  destruct (IH (S i) (ms ++ nested u) (ts ++ segments u)
              (World (F1 ∪ files w) (trace w ++ manifest_events u)))
    as (F2 & ->).
  exists (F2 ∪ F1). cbn [files trace map concat].
  now rewrite (assoc_L (∪)), <- List.app_assoc.
Qed.

Lemma concat_behaved (f : str -> list event) l :
  (forall u, Forall (well_behaved headers save_directory) (f u)) ->
  Forall (well_behaved headers save_directory) (concat (map f l)).
Proof.
  intros H. induction l as [|u l IH]; [constructor|].
  cbn [map concat]. apply List.Forall_app. split; [apply H|exact IH].
Qed.

End WithRun.

Section WithNetwork.

Variable bhe : str -> option str.
Variable fs : disk.
Variable http_get : str -> gmap str str -> result response.

(** What a run adds to the trace, whatever its end: events that keep to
    the headers of the request description and to the save directory. *)
Lemma run_behaved fuel curl_command save_directory w :
  exists E,
    trace (fetch_and_save_m3u8_and_ts bhe fs http_get fuel curl_command
             save_directory w).2 = trace w ++ E
    /\ forall headers,
         extract_headers curl_command = Ok headers ->
         Forall (well_behaved headers save_directory) E.
Proof.
  unfold fetch_and_save_m3u8_and_ts, mbind, lift.
  destruct (extract_headers curl_command) as [headers|e];
    [|exists []; split; [now rewrite List.app_nil_r|discriminate]].
  destruct (extract_url curl_command) as [root|e];
    [|exists []; split; [now rewrite List.app_nil_r|constructor]].
  destruct (manifest_loop_events bhe fs http_get headers save_directory fuel 0
              [root] [] w) as [F ->].
  destruct (drain bhe fs http_get headers save_directory fuel 0 [root] [])
    as [[ms ts]|].
  - destruct (segment_loop_run bhe fs http_get headers save_directory ts
                (World (F ∪ files w)
                   (trace w ++ concat (map (manifest_events bhe fs http_get headers
                                              save_directory)
                                         (visited bhe fs http_get headers
                                            save_directory fuel 0 [root])))))
      as [F2 ->].
    unfold ret. cbn [snd trace]. eexists. rewrite <- List.app_assoc.
    split; [reflexivity|]. intros h [= <-]. apply List.Forall_app. split.
    + apply concat_behaved, manifest_events_behaved.
    + apply concat_behaved, segment_events_behaved.
  - unfold ret. cbn [snd trace]. eexists. split; [reflexivity|].
    intros h [= <-]. apply concat_behaved, manifest_events_behaved.
Qed.

End WithNetwork.

End RunFacts.

Module RunExtras.
Import UrlParse OsPath Fetch NameSpec RunSpec EventSpec LoopSpec LoopSpec2.
Import RunFacts NameExtras.

Section WithNetwork.

Variable bhe : str -> option str.
Variable fs : disk.
Variable http_get : str -> gmap str str -> result response.

(** Every request of a run carries the headers of the request
    description, whichever URL it goes to: the manifests and segments a
    manifest refers to are asked for with the same headers as the master
    manifest. *)
Theorem every_request_carries_headers fuel curl_command save_directory headers w :
  extract_headers curl_command = Ok headers ->
  exists E,
    trace (fetch_and_save_m3u8_and_ts bhe fs http_get fuel curl_command
             save_directory w).2 = trace w ++ E
    /\ Forall (fun r => r.2 = headers) (requests E).
Proof.
  intros Hh.
  destruct (run_behaved bhe fs http_get fuel curl_command save_directory w)
    as (E & Ht & HE).
  exists E. split; [exact Ht|].
  apply behaved_requests with save_directory. now apply HE.
Qed.



End WithNetwork.

End RunExtras.

Module RunExtrasExamples.
Import Fetch RunSpec RunExtras.

Lemma every_request_carries_headers_witness :
  exists E,
    trace (fetch_and_save_m3u8_and_ts Samples.no_host_error Samples.plain_disk Web.site 5
             Web.command Defaults.downloads start).2 = trace start ++ E
    /\ Forall (fun r => r.2 = Web.auth) (requests E).
Proof.
  apply (every_request_carries_headers Samples.no_host_error Samples.plain_disk Web.site 5
           Web.command Defaults.downloads Web.auth start).
  vm_compute. reflexivity.
Defined.

End RunExtrasExamples.

Module BodyExtras.
Import UrlParse OsPath Fetch NameSpec RunSpec LoopSpec LoopSpec2.
Import PathFacts FrameFacts BodyFacts NameExtras.

Section WithRun.

Variable bhe : str -> option str.
Variable fs : disk.
Variable http_get : str -> gmap str str -> result response.
Variable headers : gmap str str.
Variable save_directory : str.

Local Abbreviation segment_body := (segment_body bhe fs http_get headers save_directory).
Local Abbreviation manifest_body := (manifest_body bhe fs http_get headers save_directory).
Local Abbreviation manifest_events := (manifest_events bhe fs http_get headers save_directory).
Local Abbreviation segment_events := (segment_events bhe fs http_get headers save_directory).

(** A segment that is not answered with status 200 is reported and
    passed over: one request, one printed line, no file, no exception.
    The line names the status when there was an answer, and the exception
    when the request raised. *)
Theorem failed_segment_is_skipped u name w :
  get_filename_from_url bhe u = Ok name ->
  (forall body, http_get u headers <> Ok (Response 200 body)) ->
  segment_body u w
  = (Ok tt,
     World (files w)
       (trace w ++
        [EGet u headers true;
         EPrint match http_get u headers with
                | Ok response =>
                    chars "Failed to download " ++ u ++ chars ". Status code: "
                      ++ Str.of_Z (status_code response)
                | Raise e =>
                    chars "Error downloading " ++ u ++ chars ": " ++ exn_msg e
                end])).
Proof.
  intros Hn Hg. unfold_run. rewrite Hn. cbv beta iota.
  destruct (http_get u headers) as [[status body]|e] eqn:E.
  - cbn [status_code]. destruct (status =? 200)%Z eqn:Hs.
    + apply Z.eqb_eq in Hs. subst status. now destruct (Hg body).
    + cbn [files trace]. now rewrite <- List.app_assoc.
  - cbn [files trace]. now rewrite <- List.app_assoc.
Qed.

(** A fetched manifest with a reference urljoin rejects is saved, but the
    pass ends in the handler: neither list grows, not even by the
    references that were found, and the line printed says Error fetching. *)
Theorem rejected_reference_drops_all u name body ms ts w :
  save_directory <> [] ->
  get_filename_from_url bhe u = Ok name ->
  writable fs (save_path save_directory name) ->
  http_get u headers = Ok (Response 200 body) ->
  is_ok (find_references bhe body u (chars ".m3u8"))
  && is_ok (find_references bhe body u (chars ".ts")) = false ->
  exists e,
    manifest_body u ms ts w
    = (Ok (ms, ts),
       World (<[save_path save_directory name := body]> (files w))
         (trace w ++
          [EGet u headers false;
           EMakedirs (dirname (save_path save_directory name));
           EWrite (save_path save_directory name) body;
           EPrint (chars "Saved .m3u8 file: " ++ save_path save_directory name);
           EPrint (chars "Error fetching " ++ u ++ chars ": " ++ exn_msg e)])).
Proof.
  intros Hd Hn [Hm Ho] Hg Hr. unfold_run. rewrite Hg. cbn [status_code text].
  change (200 =? 200)%Z with true. cbv beta iota. rewrite Hn. cbv beta iota.
  fold (save_path save_directory name).
  pose proof (save_path_has_dir save_directory name Hd) as Hdir.
  rewrite Ho.
  destruct (dirname (save_path save_directory name)) as [|c dir] eqn:Ed;
    [congruence|].
  rewrite Hm.
  cbv beta iota. cbn [files trace].
  destruct (find_references bhe body u (chars ".m3u8")) as [r1|e1].
  - destruct (find_references bhe body u (chars ".ts")) as [r2|e2];
      [discriminate|].
    exists e2. cbv beta iota. cbn [files trace].
    now rewrite <- !List.app_assoc.
  - exists e1. cbv beta iota. cbn [files trace].
    now rewrite <- !List.app_assoc.
Qed.

End WithRun.

End BodyExtras.

Module BodyExtrasExamples.
Import Fetch NameSpec BodyExtras.

Lemma failed_segment_is_skipped_witness :
  segment_body Samples.no_host_error Samples.plain_disk Web.site Web.auth Defaults.downloads
    Web.variant2 start
  = (Ok tt,
     World (files start)
       (trace start ++
        [EGet Web.variant2 Web.auth true;
         EPrint match Web.site Web.variant2 Web.auth with
                | Ok response =>
                    chars "Failed to download " ++ Web.variant2
                      ++ chars ". Status code: "
                      ++ Str.of_Z (status_code response)
                | Raise e =>
                    chars "Error downloading " ++ Web.variant2 ++ chars ": "
                      ++ exn_msg e
                end])).
Proof.
  apply (failed_segment_is_skipped Samples.no_host_error Samples.plain_disk Web.site Web.auth
           Defaults.downloads Web.variant2 (chars "variant2.m3u8") start).
  - vm_compute. reflexivity.
  - intros body. vm_compute. discriminate.
Defined.

Lemma rejected_reference_drops_all_witness :
  exists e,
    manifest_body Samples.no_host_error Samples.plain_disk Web2.broken Web.auth Defaults.downloads
      Web.master [Web.master] [] start
    = (Ok ([Web.master], []),
       World (<[save_path Defaults.downloads (chars "master.m3u8")
                := RefSpec.join_lines [chars "v1.m3u8"; chars "//[v2.m3u8"]]>
                (files start))
         (trace start ++
          [EGet Web.master Web.auth false;
           EMakedirs (OsPath.dirname
                        (save_path Defaults.downloads (chars "master.m3u8")));
           EWrite (save_path Defaults.downloads (chars "master.m3u8"))
             (RefSpec.join_lines [chars "v1.m3u8"; chars "//[v2.m3u8"]);
           EPrint (chars "Saved .m3u8 file: "
                   ++ save_path Defaults.downloads (chars "master.m3u8"));
           EPrint (chars "Error fetching " ++ Web.master ++ chars ": "
                   ++ exn_msg e)])).
Proof.
  apply (rejected_reference_drops_all Samples.no_host_error Samples.plain_disk Web2.broken
           Web.auth Defaults.downloads Web.master (chars "master.m3u8")
           (RefSpec.join_lines [chars "v1.m3u8"; chars "//[v2.m3u8"])
           [Web.master] [] start).
  - discriminate.
  - vm_compute. reflexivity.
  - split; reflexivity.
  - reflexivity.
  - vm_compute. reflexivity.
Defined.

End BodyExtrasExamples.
Module BareDirectory.
Import UrlParse OsPath Fetch NameSpec RunSpec.
Import PathFacts FrameFacts BodyFacts NameExtras.

Section WithNetwork.

Variable bhe : str -> option str.
Variable fs : disk.
Variable http_get : str -> gmap str str -> result response.
Variable headers : gmap str str.

(** With the empty string for the save directory a pass of the first
    loop never gets to write: makedirs is called on the empty directory part
    of the bare file name and raises. *)
Lemma manifest_body_bare u ms ts w :
  exists E,
    manifest_body bhe fs http_get headers [] u ms ts w
    = (Ok (ms, ts), World (files w) (trace w ++ E))
    /\ requests E = [(u, headers)] /\ written E = [].
Proof.
  unfold_run.
  destruct (http_get u headers) as [resp|e]; cbv beta iota.
  2:{ eexists [EGet u headers false; EPrint _]. cbn [files trace].
      rewrite <- List.app_assoc. repeat split. }
  destruct (status_code resp =? 200)%Z; cbv beta iota.
  2:{ eexists [EGet u headers false; EPrint _]. cbn [files trace].
      rewrite <- List.app_assoc. repeat split. }
  destruct (get_filename_from_url bhe u) as [name|e] eqn:Hn; cbv beta iota.
  2:{ eexists [EGet u headers false; EPrint _]. cbn [files trace].
      rewrite <- List.app_assoc. repeat split. }
  fold (save_path [] name).
  rewrite (save_path_bare name (url_file_name _ _ _ Hn)).
  cbv beta iota.
  eexists [EGet u headers false; EPrint _]. cbn [files trace].
  rewrite <- List.app_assoc. repeat split.
Qed.

(** With the empty string for the save directory a run asks for the
    master manifest and nothing else, saves nothing, and returns: the
    references of the master manifest are never looked for. *)
Theorem empty_save_directory_saves_nothing fuel curl_command root w :
  extract_headers curl_command = Ok headers ->
  extract_url curl_command = Ok root ->
  exists E,
    fetch_and_save_m3u8_and_ts bhe fs http_get (S fuel) curl_command [] w
    = (Ok Returned, World (files w) (trace w ++ E))
    /\ requests E = [(root, headers)] /\ written E = [].
Proof.
  intros Hh Hu. unfold fetch_and_save_m3u8_and_ts, mbind, lift.
  rewrite Hh, Hu. cbn [manifest_loop nth_error]. unfold mbind.
  destruct (manifest_body_bare root [root] [] w) as (E & -> & Hr & Hw).
  cbn [fst snd].
  assert (Hl : forall w',
            manifest_loop bhe fs http_get headers [] fuel 1 [root] [] w'
            = (Ok (Some ([root], [])), w'))
    by (intros w'; destruct fuel; reflexivity).
  rewrite Hl. exists E. cbn [segment_loop]. unfold ret. now repeat split.
Qed.

End WithNetwork.

End BareDirectory.

Module BareDirectoryExamples.
Import Fetch RunSpec BareDirectory.

Lemma empty_save_directory_saves_nothing_witness :
  exists E,
    fetch_and_save_m3u8_and_ts Samples.no_host_error Samples.plain_disk Web.site 5
      Web.command [] start
    = (Ok Returned, World (files start) (trace start ++ E))
    /\ requests E = [(Web.master, Web.auth)] /\ written E = [].
Proof.
  apply (empty_save_directory_saves_nothing Samples.no_host_error Samples.plain_disk Web.site
           Web.auth 4 Web.command Web.master start);
    vm_compute; reflexivity.
Defined.

End BareDirectoryExamples.

Module UploadExtras.
Import UrlParse OsPath PathSpec Upload UploadSpec KeySpec ReportSpec.
Import SplitFacts NormFacts RelFacts WalkFacts UploadFacts.

(** A loop whose every pass returns: its events are the passes' events,
    in order. *)
Lemma for_each_events {A B} (body : A -> result (list event))
    (h : B -> A) (ev : B -> list event) l :
  (forall b, In b l -> body (h b) = Ok (ev b)) ->
  for_each body (map h l) = (flat_map ev l, None).
Proof.
  induction l as [|b l IH]; intros H; [reflexivity|].
  cbn [for_each map flat_map]. rewrite (H b (or_introl eq_refl)).
  rewrite IH by (intros b' Hb'; apply H; now right). reflexivity.
Qed.

Section WithPaths.

Variable cwd : str.

(** os.path.relpath undoes os.path.join: the path built from a
    directory and well-formed names, taken relative to the directory, is the
    names joined by the separator, and splitting it gives the names back. *)
Theorem relpath_inverts_join src names :
  isabs cwd = true ->
  src <> [] -> names <> [] -> Forall (good_name sep) names ->
  relpath cwd (fold_left join2 names src) src
  = Ok (Str.join [sep] names)
  /\ Str.split sep (Str.join [sep] names) = names.
Proof using Type.
  intros Hc Hs Hn Hg. split.
  - rewrite (walk_path src names Hs Hn Hg).
    now apply relpath_below.
  - apply split_join; [exact Hn|].
    eapply List.Forall_impl; [|exact Hg]. unfold good_name. tauto.
Qed.

End WithPaths.

Section WithStore.

Variable cwd : str.
Variable upload_file : str -> str -> str -> result unit.

Local Abbreviation posix := (Platform.posix cwd).

(** One pass of the loop over a well-named file, with what it prints. *)
Lemma upload_one_events src bucket d f :
  isabs cwd = true ->
  src <> [] -> Forall (good_name sep) (d ++ [f]) ->
  upload_one posix upload_file src bucket (fold_left join2 d src) f
  = Ok (loop_events upload_file src bucket [d ++ [f]]).
Proof using Type.
  intros Hc Hs Hg. unfold upload_one, loop_events, report. cbv zeta.
  cbn [flat_map app]. rewrite posix_join, posix_relpath.
  replace (join2 (fold_left join2 d src) f)
    with (fold_left join2 (d ++ [f]) src)
    by (now rewrite List.fold_left_app).
  assert (Hne : d ++ [f] <> []) by (now destruct d).
  rewrite (walk_path src (d ++ [f]) Hs Hne Hg).
  rewrite (relpath_below cwd Hc src (d ++ [f]) Hs Hne Hg).
  cbn [bind]. now destruct (upload_file _ _ _).
Qed.

Lemma loop_events_flat src bucket rels :
  loop_events upload_file src bucket rels
  = flat_map (fun r => loop_events upload_file src bucket [r]) rels.
Proof.
  unfold loop_events. apply List.flat_map_ext. intros r.
  cbn [flat_map]. now rewrite List.app_nil_r.
Qed.

End WithStore.

Section WithPlatform.

Variable cwd : str.
Variable getenv : str -> option str.
Variable boto3_client : str -> str -> result unit.
Variable upload_file : str -> str -> str -> result unit.
Variable listing : str -> option (list entry).

Local Abbreviation posix := (Platform.posix cwd).

Lemma upload_loop_events src bucket tree :
  isabs cwd = true ->
  src <> [] -> listing src = Some tree -> good_tree sep tree ->
  upload_loop posix upload_file listing src bucket
  = (loop_events upload_file src bucket (files_in tree), None).
Proof using Type.
  clear getenv boto3_client.
  intros Hc Hs Hl Hg. unfold upload_loop. rewrite Hl, walk_files.
  pose proof (files_in_good tree Hg) as Hf.
  rewrite List.Forall_forall in Hf. rewrite loop_events_flat.
  apply (for_each_events
           (fun '(root, file) =>
              upload_one posix upload_file src bucket root file)
           (fun r => (fold_left join2 (removelast r) src,
                      List.last r []))
           (fun r => loop_events upload_file src bucket [r])).
  intros r Hr. destruct (Hf r Hr) as (d & f & -> & Hgood).
  rewrite List.removelast_last, List.last_last.
  now apply upload_one_events.
Qed.

(** Every file gets its upload call and one line of report, whatever
    happened to the files before it: a failed upload is reported and the
    loop goes on. *)
Theorem report_per_file src bucket key secret tree :
  isabs cwd = true ->
  src <> [] -> bucket <> [] -> key <> [] -> secret <> [] ->
  boto3_client key secret = Ok tt ->
  listing src = Some tree ->
  good_tree sep tree ->
  upload_directory_to_s3 posix getenv boto3_client upload_file listing
    (Some src) (Some bucket) (Some key) (Some secret)
  = (EClient key secret
       :: loop_events upload_file src bucket (files_in tree), None).
Proof using Type.
  intros Hcwd Hs Hb Hk Hsec Hc Hl Hg.
  unfold upload_directory_to_s3.
  rewrite !falsy_some by assumption. cbn [text_of].
  now rewrite Hc, (upload_loop_events src bucket tree Hcwd Hs Hl Hg).
Qed.

(** No two files of a tree share a key: upload calls with the same key
    are calls for the same file. *)
Theorem keys_identify_files src bucket key secret tree events r p1 p2 b1 b2 k :
  isabs cwd = true ->
  src <> [] -> bucket <> [] -> key <> [] -> secret <> [] ->
  listing src = Some tree ->
  good_tree sep tree ->
  upload_directory_to_s3 posix getenv boto3_client upload_file listing
    (Some src) (Some bucket) (Some key) (Some secret) = (events, r) ->
  In (p1, b1, k) (uploads events) -> In (p2, b2, k) (uploads events) ->
  p1 = p2.
Proof using Type.
  intros Hcwd Hs Hb Hk Hsec Hl Hg Hrun H1 H2.
  unfold upload_directory_to_s3 in Hrun.
  rewrite !falsy_some in Hrun by assumption. cbn [text_of] in Hrun.
  destruct (upload_loop_uploads cwd upload_file listing Hcwd
              src bucket tree Hs Hl Hg) as (evs & He & Hu).
  assert (Hup : uploads events = uploads evs \/ uploads events = []).
  { destruct (boto3_client key secret) as [[]|e].
    - rewrite He in Hrun. injection Hrun as <- _. now left.
    - right. destruct e; injection Hrun as <- _; reflexivity. }
  destruct Hup as [Hup|Hup]; rewrite Hup in H1, H2; [|destruct H1].
  unfold posix_uploads in Hu. rewrite Hu in H1, H2.
  apply List.in_map_iff in H1 as (r1 & E1 & Hr1).
  apply List.in_map_iff in H2 as (r2 & E2 & Hr2).
  injection E1 as <- _ Hk1. injection E2 as <- _ Hk2.
  pose proof (files_in_good tree Hg) as Hf.
  rewrite List.Forall_forall in Hf.
  destruct (Hf r1 Hr1) as (d1 & f1 & Hd1 & Hg1).
  destruct (Hf r2 Hr2) as (d2 & f2 & Hd2 & Hg2).
  assert (Hsplit : forall rel d f,
            rel = d ++ [f] -> Forall (good_name sep) rel ->
            Str.split sep (Str.join [sep] rel) = rel).
  { intros rel d f -> Hgood. apply split_join; [now destruct d|].
    eapply List.Forall_impl; [|exact Hgood]. unfold good_name. tauto. }
  rewrite <- (Hsplit r1 d1 f1 Hd1 Hg1), <- (Hsplit r2 d2 f2 Hd2 Hg2).
  now rewrite Hk1, Hk2.
Qed.

End WithPlatform.

Section AnyPlatform.

Variable os : Platform.os_path.
Variable getenv : str -> option str.
Variable boto3_client : str -> str -> result unit.
Variable upload_file : str -> str -> str -> result unit.
Variable listing : str -> option (list entry).

(** A source directory that cannot be listed is passed over in silence:
    the client is created, nothing is uploaded, nothing is printed, and the
    call returns. *)
Theorem unlisted_directory_uploads_nothing src bucket key secret :
  src <> [] -> bucket <> [] -> key <> [] -> secret <> [] ->
  boto3_client key secret = Ok tt ->
  listing src = None ->
  upload_directory_to_s3 os getenv boto3_client upload_file listing
    (Some src) (Some bucket) (Some key) (Some secret)
  = ([EClient key secret], None).
Proof using Type.
  intros Hs Hb Hk Hsec Hc Hl. unfold upload_directory_to_s3.
  rewrite !falsy_some by assumption. cbn [text_of].
  rewrite Hc. unfold upload_loop. now rewrite Hl.
Qed.

(** Of the exceptions creating the client may raise only
    NoCredentialsError is handled, with a printed line; any other leaves the
    call as it is.  Either way nothing is uploaded. *)
Theorem client_errors src bucket key secret e :
  src <> [] -> bucket <> [] -> key <> [] -> secret <> [] ->
  boto3_client key secret = Raise e ->
  upload_directory_to_s3 os getenv boto3_client upload_file listing
    (Some src) (Some bucket) (Some key) (Some secret)
  = match e with
    | NoCredentialsError _ =>
        ([EClient key secret;
          EPrint (chars "Error: AWS credentials not provided or incorrect")],
         None)
    | _ => ([EClient key secret], Some e)
    end.
Proof using Type.
  intros Hs Hb Hk Hsec Hc. unfold upload_directory_to_s3.
  rewrite !falsy_some by assumption. cbn [text_of].
  rewrite Hc. now destruct e.
Qed.

(** The script ends by sys.exit(1) exactly when fewer than two arguments
    follow its name, having printed the usage line and nothing else; with two
    or more it ends with the call, whatever the call printed: a missing
    credential does not change the way the script ends. *)
Theorem script_exit_status argv :
  match script os getenv boto3_client upload_file listing argv with
  | (events, Exited code) =>
      code = 1%Z /\ (length argv < 3)%nat /\ events = [EPrint usage]
  | (_, Finished _) => (3 <= length argv)%nat
  end.
Proof using Type.
  unfold script. destruct (length argv <? 3)%nat eqn:E.
  - apply Nat.ltb_lt in E. now repeat split.
  - apply Nat.ltb_ge in E.
    now destruct (upload_directory_to_s3 _ _ _ _ _ _ _ _ _).
Qed.

End AnyPlatform.

End UploadExtras.

Module UploadExtrasExamples.
Import UrlParse OsPath Upload UploadSpec KeySpec ReportSpec Trees.
Import UploadExtras.

Lemma relpath_inverts_join_witness :
  relpath (chars "/home/u")
    (fold_left join2 [chars "sub"; chars "b.txt"] (chars "site"))
    (chars "site")
  = Ok (Str.join [sep] [chars "sub"; chars "b.txt"])
  /\ Str.split sep (Str.join [sep] [chars "sub"; chars "b.txt"])
     = [chars "sub"; chars "b.txt"].
Proof.
  apply (relpath_inverts_join (chars "/home/u") (chars "site")
           [chars "sub"; chars "b.txt"]);
    try discriminate; try reflexivity.
  repeat constructor; try discriminate; reflexivity.
Defined.

Lemma report_per_file_witness :
  run (Platform.posix (chars "/home/u")) small
  = (EClient (chars "AKIA") (chars "secret")
       :: loop_events (fun _ _ _ => Ok tt) (chars "site") (chars "bucket")
            (files_in small), None).
Proof.
  apply (report_per_file (chars "/home/u") (fun _ => None)
           (fun _ _ => Ok tt) (fun _ _ _ => Ok tt) (fun _ => Some small));
    try discriminate; try reflexivity.
  apply UploadExamples.small_good; reflexivity.
Defined.

Lemma unlisted_directory_uploads_nothing_witness :
  upload_directory_to_s3 (Platform.posix (chars "/home/u")) (fun _ => None)
    (fun _ _ => Ok tt) (fun _ _ _ => Ok tt) (fun _ => None)
    (Some (chars "missing")) (Some (chars "bucket"))
    (Some (chars "AKIA")) (Some (chars "secret"))
  = ([EClient (chars "AKIA") (chars "secret")], None).
Proof.
  apply (unlisted_directory_uploads_nothing (Platform.posix (chars "/home/u"))
           (fun _ => None) (fun _ _ => Ok tt) (fun _ _ _ => Ok tt)
           (fun _ => None));
    try discriminate; reflexivity.
Defined.

Lemma client_errors_witness :
  upload_directory_to_s3 (Platform.posix (chars "/home/u")) (fun _ => None)
    (fun _ _ => Raise (ClientError (chars "InvalidRegion")))
    (fun _ _ _ => Ok tt) (fun _ => Some small)
    (Some (chars "site")) (Some (chars "bucket"))
    (Some (chars "AKIA")) (Some (chars "secret"))
  = ([EClient (chars "AKIA") (chars "secret")],
     Some (ClientError (chars "InvalidRegion"))).
Proof.
  apply (client_errors (Platform.posix (chars "/home/u")) (fun _ => None)
           (fun _ _ => Raise (ClientError (chars "InvalidRegion")))
           (fun _ _ _ => Ok tt) (fun _ => Some small)
           (chars "site") (chars "bucket") (chars "AKIA") (chars "secret")
           (ClientError (chars "InvalidRegion")));
    try discriminate; reflexivity.
Defined.

Lemma keys_identify_files_witness :
  chars "site/sub/b.txt" = chars "site/sub/b.txt".
Proof.
  apply (keys_identify_files (chars "/home/u") (fun _ => None)
           (fun _ _ => Ok tt) (fun _ _ _ => Ok tt) (fun _ => Some small)
           (chars "site") (chars "bucket") (chars "AKIA") (chars "secret")
           small (fst (run (Platform.posix (chars "/home/u")) small)) None
           (chars "site/sub/b.txt") (chars "site/sub/b.txt")
           (chars "bucket") (chars "bucket") (chars "sub/b.txt"));
    try discriminate; try reflexivity.
  - apply UploadExamples.small_good; reflexivity.
  - vm_compute. right. now left.
  - vm_compute. right. now left.
Defined.

End UploadExtrasExamples.

Module DiskExamples.
Import Fetch LoopSpec NameSpec RunSpec Samples Web Web2 Defaults.

(** With the dot names taken for files the manifest that refers to
    [..] would be its own child; with the file system as it is, opening
    [downloads/..] raises inside the try, nothing is queued, and the run
    returns after two passes. *)
Example dot_name_ends_loop :
  let run := fetch_and_save_m3u8_and_ts no_host_error dot_disk dotdot 5 command
               downloads start in
  run.1 = Ok Returned
  /\ manifest_gets (trace run.2) = [master; dotdot_url]
  /\ written (trace run.2) = [chars "downloads/master.m3u8"]
  /\ printed (trace run.2)
     = [chars "Saved .m3u8 file: downloads/master.m3u8";
        chars "Error fetching https://x.test/a/..?x=.m3u8: [Errno 21] Is a directory: 'downloads/..'"].
Proof. vm_compute. repeat split. Qed.

Example dot_name_is_not_saved :
  let w := (segment_body no_host_error dot_disk dotdot auth downloads
              (chars "https://x.test/a/..?x=.ts") start).2 in
  files w = ∅
  /\ printed (trace w)
     = [chars "Error downloading https://x.test/a/..?x=.ts: [Errno 21] Is a directory: 'downloads/..'"].
Proof. vm_compute. repeat split. Qed.

End DiskExamples.

Module DiskExtras.
Import UrlParse OsPath Fetch NameSpec RunSpec PathFacts BodyFacts.

Section WithRun.

Variable bhe : str -> option str.
Variable fs : disk.
Variable http_get : str -> gmap str str -> result response.
Variable headers : gmap str str.
Variable save_directory : str.

(** A segment whose file cannot be opened is reported and passed over:
    the answer is dropped, no file is written, and the pass ends without an
    exception, the line naming what open raised. *)
Theorem unwritable_segment_is_reported u name body e w :
  save_directory <> [] ->
  get_filename_from_url bhe u = Ok name ->
  http_get u headers = Ok (Response 200 body) ->
  makedirs_error fs (dirname (save_path save_directory name)) = None ->
  open_error fs (save_path save_directory name) = Some e ->
  segment_body bhe fs http_get headers save_directory u w
  = (Ok tt,
     World (files w)
       (trace w ++
        [EGet u headers true;
         EMakedirs (dirname (save_path save_directory name));
         EPrint (chars "Error downloading " ++ u ++ chars ": " ++ exn_msg e)])).
Proof.
  intros Hd Hn Hg Hm Ho. unfold_run. rewrite Hn, Hg. cbn [status_code text].
  change (200 =? 200)%Z with true.
  change (OsPath.join save_directory [[]; name])
    with (save_path save_directory name).
  pose proof (save_path_has_dir save_directory name Hd) as Hdir.
  rewrite Ho.
  destruct (dirname (save_path save_directory name)) as [|c d];
    [congruence|].
  rewrite Hm.
  cbv beta iota. cbn [files trace]. rewrite <- !List.app_assoc. reflexivity.
Qed.

End WithRun.

End DiskExtras.

Module DiskExtrasExamples.
Import Fetch NameSpec Samples Web Web2 Defaults DiskExtras.

Lemma unwritable_segment_is_reported_witness :
  segment_body no_host_error dot_disk dotdot auth downloads
    (chars "https://x.test/a/..?x=.ts") start
  = (Ok tt,
     World (files start)
       (trace start ++
        [EGet (chars "https://x.test/a/..?x=.ts") auth true;
         EMakedirs (OsPath.dirname (save_path downloads (chars "..")));
         EPrint (chars "Error downloading " ++ chars "https://x.test/a/..?x=.ts"
                 ++ chars ": "
                 ++ exn_msg (OSError (chars "[Errno 21] Is a directory: 'downloads/..'")))])).
Proof.
  apply (unwritable_segment_is_reported no_host_error dot_disk dotdot auth
           downloads (chars "https://x.test/a/..?x=.ts") (chars "..")
           (chars "//x.test/a/..?x=.m3u8")
           (OSError (chars "[Errno 21] Is a directory: 'downloads/..'")) start).
  - discriminate.
  - vm_compute. reflexivity.
  - reflexivity.
  - reflexivity.
  - vm_compute. reflexivity.
Defined.

End DiskExtrasExamples.

Module QueryExtras.
Import UrlParse OsPath Fetch QueryName.

(** The query string plays no part in the file name: a URL without
    query and fragment gets the same name with any query behind it. *)
Theorem get_filename_ignores_query bhe u q :
  Str.contains "?" u = false -> Str.contains "#" u = false ->
  Str.contains "#" q = false ->
  get_filename_from_url bhe (u ++ "?"%char :: q)
  = get_filename_from_url bhe u.
Proof. intros Hq Hf Hfq. now apply filename_query. Qed.

End QueryExtras.


Module QueryExtrasExamples.
Import Fetch QueryExtras.

Lemma get_filename_ignores_query_witness :
  get_filename_from_url Samples.no_host_error
    (chars "https://x.test/a/seg.ts" ++ "?"%char :: chars "x=1/other.bin")
  = get_filename_from_url Samples.no_host_error (chars "https://x.test/a/seg.ts").
Proof.
  apply (get_filename_ignores_query Samples.no_host_error
           (chars "https://x.test/a/seg.ts") (chars "x=1/other.bin"));
    reflexivity.
Defined.

End QueryExtrasExamples.
